(** * GF(256) table generator and Cauchy matrix search (tabgen.cpp)

    A shallow embedding of [tabgen.cpp]: the GF(256) log/antilog,
    multiply/divide and inverse tables, the Cauchy bit-weight table, the
    Cauchy matrix builder with its per-row pivoting, the greedy solver,
    the column sorter and the deck shuffle of the random search.

    Conventions.  Every C integer is a [Z]; the casts [(u8)], [(u32)] are
    written as explicit reductions.  An array is a [list Z] read with [get]
    and written with [set]; a [for] loop over an index is [for_range]. *)

From Stdlib Require Import ZArith List Lia Bool Permutation.
From Equations Require Import Equations.
Import ListNotations.
Local Open Scope Z_scope.

(** ** Integers and arrays *)

Definition u8 (x : Z) : Z := x mod 256.
Definition u32 (x : Z) : Z := x mod 4294967296.
Definition INT_MAX : Z := 0x7fffffff.

Definition is_byte (v : Z) : Prop := 0 <= v < 256.

(** [get a i] is the C expression [a[i]].  Reading outside the array is
    undefined in the source; here it yields 0. *)
Definition get (a : list Z) (i : Z) : Z := nth (Z.to_nat i) a 0.

Fixpoint upd (n : nat) (v : Z) (a : list Z) : list Z :=
  match a, n with
  | [], _ => []
  | _ :: t, O => v :: t
  | h :: t, S n' => h :: upd n' v t
  end.

(** [set a i v] is the C statement [a[i] = v].  Writing outside the array is
    undefined in the source; here it leaves the array as it is. *)
Definition set (a : list Z) (i : Z) (v : Z) : list Z :=
  if i <? 0 then a else upd (Z.to_nat i) v a.

(** The index values [lo, lo+1, ..., hi-1]. *)
Definition zrange (lo hi : Z) : list Z :=
  map (fun n => lo + Z.of_nat n) (seq 0 (Z.to_nat (hi - lo))).

(** [for (i = lo; i < hi; ++i) s = body i s]. *)
Definition for_range {St : Type} (lo hi : Z) (body : Z -> St -> St) (s : St) : St :=
  fold_left (fun s i => body i s) (zrange lo hi) s.

(** ** GaloisField: log / antilog tables *)

Definition GEN_POLY : list Z :=
  [ 0x8e; 0x95; 0x96; 0xa6; 0xaf; 0xb1; 0xb2; 0xb4;
    0xb8; 0xc3; 0xc6; 0xd4; 0xe1; 0xe7; 0xf3; 0xfa ].

Definition FAVORITE_POLY : Z := 9.

(** Static storage is zero-initialised: [GF256_LOG_TABLE[256]] and
    [GF256_EXP_TABLE[512*2+1]] before the first table build. *)
Definition LOG_TABLE_0 : list Z := repeat 0 256.
Definition EXP_TABLE_0 : list Z := repeat 0 (512 * 2 + 1).

(** One turn of the generation loop, [jj] in 1..254. *)
Definition exp_log_step (poly : Z) (jj : Z) (st : list Z * list Z)
  : list Z * list Z :=
  let '(LogTable, ALogTable) := st in
  let next := u32 (get ALogTable (jj - 1) * 2) in
  let next := if 256 <=? next then Z.lxor next poly else next in
  let ALogTable := set ALogTable jj (u8 next) in
  let LogTable := set LogTable (get ALogTable jj) jj in
  (LogTable, ALogTable).

(** The body of [GenerateExpLogTables] once [poly] has been read from the
    catalogue. *)
Definition ExpLogTablesOfPoly (poly : Z) (LogTable ALogTable : list Z)
  : list Z * list Z :=
  let LogTable := set LogTable 0 512 in
  let ALogTable := set ALogTable 0 1 in
  let '(LogTable, ALogTable) :=
    for_range 1 255 (exp_log_step poly) (LogTable, ALogTable) in
  let ALogTable := set ALogTable 255 (get ALogTable 0) in
  let LogTable := set LogTable (get ALogTable 255) 255 in
  let ALogTable :=
    for_range 256 (2 * 255)
      (fun jj A => set A jj (get A (jj mod 255))) ALogTable in
  let ALogTable := set ALogTable (2 * 255) 1 in
  let ALogTable :=
    for_range (2 * 255 + 1) (4 * 255) (fun jj A => set A jj 0) ALogTable in
  (LogTable, ALogTable).

(** [GenerateExpLogTables(ii, LogTable, ALogTable)].  The source reads
    [GEN_POLY[ii]] unchecked; an index outside 0..15 is undefined there. *)
Definition GenerateExpLogTables (ii : Z) (LogTable ALogTable : list Z)
  : list Z * list Z :=
  let poly := u32 (Z.lor (Z.shiftl (get GEN_POLY ii) 1) 1) in
  ExpLogTablesOfPoly poly LogTable ALogTable.

(** ** GaloisField: multiply / divide / inverse tables *)

(** The 64 KB multiplication table is kept as its 256 subtables of 256 bytes
    (the source fills it subtable by subtable, [m += 256]); byte offset [i]
    is entry [i mod 256] of subtable [i / 256]. *)
Definition table := list (list Z).

Definition tget (t : table) (i : Z) : Z :=
  get (nth (Z.to_nat (i / 256)) t []) (i mod 256).

(** [InitMulDivTables]: returns [GF256_MUL_TABLE] and [GF256_DIV_TABLE]. *)
Definition InitMulDivTables (LOG EXP : list Z) : table * table :=
  let zero := map (fun _ => 0) (zrange 0 256) in
  let sub (y : Z) : list Z * list Z :=
    let log_y := u8 (get LOG y) in
    let log_yn := u8 (255 - log_y) in
    (0 :: map (fun x => get EXP (get LOG x + log_y)) (zrange 1 256),
     0 :: map (fun x => get EXP (get LOG x + log_yn)) (zrange 1 256)) in
  (zero :: map (fun y => fst (sub y)) (zrange 1 256),
   zero :: map (fun y => snd (sub y)) (zrange 1 256)).

(** Modelled from the spec: [BIT_COUNT_TABLE] (declared in BitMath.hpp, not
    part of this file) holds the population count of each byte value. *)
Definition BIT_COUNT_TABLE (n : Z) : Z :=
  fold_left (fun acc i => acc + Z.b2z (Z.testbit n i)) (zrange 0 8) 0.

(** The process-wide tables, in the order [main] builds them. *)
Record Tables := {
  GF256_LOG_TABLE : list Z;
  GF256_EXP_TABLE : list Z;
  GF256_MUL_TABLE : table;
  GF256_DIV_TABLE : table;
  GF256_INV_TABLE : list Z;
  CAUCHY_ONES : list Z;
}.

Section Field.
Variables MUL DIV : table.

(** [GF256Multiply(x, y)] and [GF256Divide(x, y)]. *)
Definition GF256Multiply (x y : Z) : Z := tget MUL (Z.shiftl y 8 + x).
Definition GF256Divide (x y : Z) : Z := tget DIV (Z.shiftl y 8 + x).

(** [InitInvTable]. *)
Definition InitInvTable : list Z :=
  map (fun x => GF256Divide 1 x) (zrange 0 256).

(** [cauchy_ones(n)]: the state of the loop is [(n, ones)]. *)
Definition cauchy_ones (n : Z) : Z :=
  let ones := BIT_COUNT_TABLE n in
  snd (for_range 1 8
         (fun _ '(n, ones) =>
            let n := GF256Multiply n 2 in
            (n, ones + BIT_COUNT_TABLE n))
         (n, ones)).

(** [GenerateCauchyOnes]: the table cells are [u8]. *)
Definition GenerateCauchyOnes : list Z :=
  map (fun x => u8 (cauchy_ones x)) (zrange 0 256).
End Field.

(** The table-building prefix of [main], for catalogue index [ii]. *)
Definition InitTables (ii : Z) : Tables :=
  let '(LOG, EXP) := GenerateExpLogTables ii LOG_TABLE_0 EXP_TABLE_0 in
  let '(MUL, DIV) := InitMulDivTables LOG EXP in
  {| GF256_LOG_TABLE := LOG;
     GF256_EXP_TABLE := EXP;
     GF256_MUL_TABLE := MUL;
     GF256_DIV_TABLE := DIV;
     GF256_INV_TABLE := InitInvTable DIV;
     CAUCHY_ONES := GenerateCauchyOnes MUL |}.

Definition mul (T : Tables) (x y : Z) : Z := GF256Multiply (GF256_MUL_TABLE T) x y.
Definition div (T : Tables) (x y : Z) : Z := GF256Divide (GF256_DIV_TABLE T) x y.


(** ** BitWeight ordering: [SortMinWeightElements] *)

(** The search for the smallest remaining count, shared verbatim by
    [SortMinWeightElements] and [SortColumns]: the state is
    [(smallest, best_x)]. *)
Definition find_smallest (counts : list Z) (x hi : Z) : Z * Z :=
  for_range (x + 1) hi
    (fun z '(smallest, best_x) =>
       let ones := get counts z in
       if get counts z <? smallest then (ones, z) else (smallest, best_x))
    (get counts x, x).

Definition SortMinWeightElements (ONES : list Z) (elements : list Z) : list Z :=
  let counts := map (fun x => get ONES x) (zrange 0 256) in
  snd (for_range 0 256
         (fun x '(counts, elements) =>
            let '(smallest, best_x) := find_smallest counts x 256 in
            let counts := set counts best_x (get counts x) in
            let counts := set counts x smallest in
            let temp := get elements best_x in
            let elements := set elements best_x (get elements x) in
            let elements := set elements x temp in
            (counts, elements))
         (counts, elements)).

(** [MINWEIGHT_TABLE] as [main] prepares it: the identity table, sorted. *)
Definition MINWEIGHT_TABLE (T : Tables) : list Z :=
  SortMinWeightElements (CAUCHY_ONES T) (zrange 0 256).

(** The tables as [main] leaves them before it calls the solver. *)
Definition main_tables : Tables := InitTables FAVORITE_POLY.
Definition main_minweight : list Z := MINWEIGHT_TABLE main_tables.

(** ** CauchyMatrixBuilder: [GenerateCauchyMatrix] *)

Section Cauchy.
Variable T : Tables.

(** Row 0 is all ones. *)
Definition cauchy_row0 (k : Z) (matrix : list Z) : list Z :=
  for_range 0 k (fun y M => set M y 1) matrix.

(** Row [y] of the raw matrix.  [row] points at [matrix + y*k].  The second
    component is ghost state: it records each index read from
    [GF256_INV_TABLE] and each divisor passed to [GF256Divide], latest
    first. *)
Definition cauchy_raw_row (k : Z) (X Y : list Z) (y : Z)
    (s : list Z * list Z) : list Z * list Z :=
  let YC := get Y y in
  for_range 0 k
    (fun x '(M, dv) =>
       let XC := get X x in
       let D := Z.lxor (get Y 0) XC in
       let C := mul T (get (GF256_INV_TABLE T) (Z.lxor XC YC)) D in
       (set M (y * k + x) C, Z.lxor XC YC :: dv))
    s.

(** The first two loops of [GenerateCauchyMatrix]: the matrix before any
    pivoting. *)
Definition cauchy_raw (k m : Z) (matrix X Y : list Z) : list Z * list Z :=
  for_range 1 m (cauchy_raw_row k X Y) (cauchy_row0 k matrix, []).

(** Weight of the row at offset [base] if it were divided by [XC]. *)
Definition pivot_count (k base XC : Z) (M dv : list Z) : Z * list Z :=
  for_range 0 k
    (fun z '(count, dv) =>
       let C := div T (get M (base + z)) XC in
       (count + get (CAUCHY_ONES T) C, XC :: dv))
    (0, dv).

(** The candidate loop: the state is [(best, best_x)] and the ghost log. *)
Definition pivot_select (k base : Z) (M dv : list Z) : Z * Z * list Z :=
  for_range 0 k
    (fun x '(best, best_x, dv) =>
       let XC := get M (base + x) in
       let '(count, dv) := pivot_count k base XC M dv in
       if count <? best then (count, x, dv) else (best, best_x, dv))
    (INT_MAX, 0, dv).

(** The rewriting loop: the state is [(matrix, ones)] and the ghost log. *)
Definition pivot_rewrite (k base XC : Z) (s : list Z * Z * list Z)
  : list Z * Z * list Z :=
  for_range 0 k
    (fun z '(M, ones, dv) =>
       let C := div T (get M (base + z)) XC in
       (set M (base + z) C, ones + get (CAUCHY_ONES T) C, XC :: dv))
    s.

Definition cauchy_pivot_row (k y : Z) (s : list Z * Z * list Z)
  : list Z * Z * list Z :=
  let '(M, ones, dv) := s in
  let base := y * k in
  let '(_, best_x, dv) := pivot_select k base M dv in
  let XC := get M (base + best_x) in
  pivot_rewrite k base XC (M, ones, dv).

(** [GenerateCauchyMatrix(k, m, matrix, X, Y)]: the matrix written, the
    returned count of ones, and the ghost log of divisors. *)
Definition GenerateCauchyMatrix (k m : Z) (matrix X Y : list Z)
  : list Z * Z * list Z :=
  let ones := get (CAUCHY_ONES T) 1 * k in
  let '(M, dv) := cauchy_raw k m matrix X Y in
  for_range 1 m (cauchy_pivot_row k) (M, ones, dv).

(** Row [y] of a [k]-column matrix, and the bit-weight of a row. *)
Definition matrix_row (k : Z) (M : list Z) (y : Z) : list Z :=
  map (fun x => get M (y * k + x)) (zrange 0 k).

Definition row_weight (r : list Z) : Z :=
  fold_right (fun c acc => get (CAUCHY_ONES T) c + acc) 0 r.

(** [CountMatrixOnes(k, subk, m, matrix)]: the weight of the first [subk]
    columns. *)
Definition CountMatrixOnes (k subk m : Z) (matrix : list Z) : Z :=
  for_range 0 m
    (fun y ones =>
       for_range 0 subk
         (fun x ones => ones + get (CAUCHY_ONES T) (get matrix (y * k + x)))
         ones)
    0.

(** ** ColumnSorter: [SortColumns] *)

Definition column_ones (k m : Z) (M : list Z) (x : Z) : Z :=
  for_range 0 m (fun y ones => ones + get (CAUCHY_ONES T) (get M (y * k + x))) 0.

Definition swap_columns (k m x best_x : Z) (M : list Z) : list Z :=
  for_range 1 m
    (fun y M =>
       let temp := get M (y * k + x) in
       let M := set M (y * k + x) (get M (y * k + best_x)) in
       set M (y * k + best_x) temp)
    M.

Definition sort_columns_step (k m x : Z) (s : list Z * list Z)
  : list Z * list Z :=
  let '(counts, M) := s in
  let '(smallest, best_x) := find_smallest counts x k in
  let counts := set counts best_x (get counts x) in
  let counts := set counts x smallest in
  (counts, swap_columns k m x best_x M).

Definition SortColumns (k m : Z) (matrix : list Z) : list Z :=
  let counts := map (column_ones k m matrix) (zrange 0 k) in
  snd (for_range 0 k (sort_columns_step k m) (counts, matrix)).

(** ** GreedyColumnSolver: the row phase of [SolveBestMatrix] *)

Variable MINWEIGHT : list Z.

(** The candidate scan of one row, [for (ii = ...; ii < 256; ++ii)], from
    the candidates still to try: [Some (a, G)] at the [break], [None] when
    the loop runs to its end. *)
Fixpoint scan_row (A AF : Z) (seen : list Z) (cands : list Z) : option (Z * Z) :=
  match cands with
  | [] => None
  | ii :: rest =>
      let a := get MINWEIGHT ii in
      let G := div T (Z.lxor AF (mul T a A)) a in
      if get seen G =? 0 then Some (a, G) else scan_row A AF seen rest
  end.

Record solver := {
  seen : list Z;
  sol_X : list Z;
  sol_Y : list Z;
  sol_matrix : list Z;
}.

Definition solve_row (A F k y : Z) (s : solver) : solver :=
  match scan_row A (Z.lxor A F) (seen s) (zrange 1 256) with
  | Some (a, G) =>
      {| seen := set (seen s) G 1;
         sol_X := sol_X s;
         sol_Y := set (sol_Y s) y G;
         sol_matrix := set (sol_matrix s) (y * k) a |}
  | None => s
  end.

(** [SolveBestMatrix(m)] up to the end of the loop over rows, for the seed
    [(A, F)]; [X], [Y] and [matrix] are the uninitialised buffers. *)
Definition SolveBestMatrix_rows (A F m : Z) (X Y matrix : list Z) : solver :=
  let k := 256 - m in
  let matrix := for_range 0 k (fun x M => set M x 1) matrix in
  let seen := repeat 0 256 in
  let seen := set seen A 1 in
  let seen := set seen F 1 in
  let X := set X 0 A in
  let Y := set Y 0 F in
  for_range 1 m (solve_row A F k)
    {| seen := seen; sol_X := X; sol_Y := Y; sol_matrix := matrix |}.
End Cauchy.

(** The seed the source fixes. *)
Definition seed_A : Z := 1.
Definition seed_F : Z := 0.

(** ** RandomSearchOptimizer: [ShuffleDeck8] and [Explore] *)

(** [memcpy(dst, src, n)]. *)
Definition memcpy (dst src : list Z) (n : Z) : list Z :=
  firstn (Z.to_nat n) src ++ skipn (Z.to_nat n) dst.

(** The iteration count the source fixes. *)
Definition EXPLORE_ITERATIONS : Z := 1000000000.

(** ** GreedyColumnSolver: the column phase of [SolveBestMatrix] *)

Section Columns.
Variable T : Tables.

(** The weight a candidate [B] would give its column: the loop
    [for (y = 1; y < m; ++y)] around [ones += CAUCHY_ONES[b]]. *)
Definition candidate_ones (F m : Z) (Y : list Z) (B : Z) : Z :=
  for_range 1 m
    (fun y ones =>
       let b := div T (u8 (Z.lxor B F)) (u8 (Z.lxor (get Y y) B)) in
       ones + get (CAUCHY_ONES T) b)
    0.

(** The loop over the options [B]: the state is [(best, best_B)]. *)
Definition select_column (F m : Z) (seen Y : list Z) : Z * Z :=
  for_range 0 256
    (fun B '(best, best_B) =>
       if get seen B =? 0 then
         let ones := candidate_ones F m Y B in
         if ones <? best then (ones, B) else (best, best_B)
       else (best, best_B))
    (INT_MAX, 0).

(** The cells of column [x] for the chosen [B]. *)
Definition fill_column (F k m x B : Z) (Y matrix : list Z) : list Z :=
  for_range 1 m
    (fun y M =>
       let b := div T (u8 (Z.lxor B F)) (u8 (Z.lxor (get Y y) B)) in
       set M (y * k + x) b)
    matrix.

Definition solve_column (F k m x : Z) (s : solver) : solver :=
  let B := snd (select_column F m (seen s) (sol_Y s)) in
  {| seen := set (seen s) B 1;
     sol_X := set (sol_X s) x B;
     sol_Y := sol_Y s;
     sol_matrix := fill_column F k m x B (sol_Y s) (sol_matrix s) |}.

(** The loop over the remaining columns. *)
Definition SolveBestMatrix_columns (F m : Z) (s : solver) : solver :=
  let k := 256 - m in
  for_range 1 k (solve_column F k m) s.

(** [SolveBestMatrix(m)] for the seed the source fixes: the solver state
    after both phases, and [best_matrix] and [best_count] at the end. *)
Definition SolveBestMatrix (MINWEIGHT : list Z) (m : Z)
    (X Y matrix best_matrix : list Z) : solver * list Z * Z :=
  let k := 256 - m in
  let best_count := INT_MAX in
  let s := SolveBestMatrix_columns seed_F m
             (SolveBestMatrix_rows T MINWEIGHT seed_A seed_F m X Y matrix) in
  let count := CountMatrixOnes T k 10 m (sol_matrix s) in
  if count <? best_count then
    (s, memcpy best_matrix (sol_matrix s) (k * m), count)
  else (s, best_matrix, best_count).
End Columns.

(** ** [PrintMinWeights] *)

(** The static tables before any build: zero-initialised arrays and the two
    null table pointers. *)
Definition Tables_0 : Tables :=
  {| GF256_LOG_TABLE := LOG_TABLE_0;
     GF256_EXP_TABLE := EXP_TABLE_0;
     GF256_MUL_TABLE := [];
     GF256_DIV_TABLE := [];
     GF256_INV_TABLE := repeat 0 256;
     CAUCHY_ONES := repeat 0 256 |}.

(** The four table-building calls at the head of a round, run on the
    tables the previous round left. *)
Definition RebuildTables (ii : Z) (T : Tables) : Tables :=
  let '(LOG, EXP) :=
    GenerateExpLogTables ii (GF256_LOG_TABLE T) (GF256_EXP_TABLE T) in
  let '(MUL, DIV) := InitMulDivTables LOG EXP in
  {| GF256_LOG_TABLE := LOG;
     GF256_EXP_TABLE := EXP;
     GF256_MUL_TABLE := MUL;
     GF256_DIV_TABLE := DIV;
     GF256_INV_TABLE := InitInvTable DIV;
     CAUCHY_ONES := GenerateCauchyOnes MUL |}.

(** The two-row matrix of all symbols: [matrix[x] = 1; matrix[x + 256] = x]. *)
Definition minweights_matrix (matrix : list Z) : list Z :=
  for_range 0 256 (fun x M => set (set M x 1) (x + 256) (u8 x)) matrix.

(** The count printed for [x] columns. *)
Definition minweights_ones (T : Tables) (k : Z) (matrix : list Z) (x : Z) : Z :=
  for_range 1 (x + 1)
    (fun z ones => ones + get (CAUCHY_ONES T) (get matrix (k + z)))
    0.

(** One round of the loop over the generators: the tables and the matrix it
    leaves, and what it prints: the sorted matrix and the 32 counts. *)
Definition PrintMinWeights_round (ii : Z) (st : Tables * list Z)
  : (Tables * list Z) * (list Z * list Z) :=
  let k := 256 in
  let m := 2 in
  let '(T, matrix) := st in
  let T := RebuildTables ii T in
  let matrix := minweights_matrix matrix in
  let matrix := SortColumns T k m matrix in
  let counts := map (minweights_ones T k matrix) (zrange 1 33) in
  ((T, matrix), (matrix, counts)).

(** [PrintMinWeights()], from the tables in place and the uninitialised
    [matrix] buffer: what is printed, generator by generator. *)
Definition PrintMinWeights (T : Tables) (matrix : list Z)
  : list (list Z * list Z) :=
  snd (for_range 0 16
         (fun ii '(st, out) =>
            let '(st, printed) := PrintMinWeights_round ii st in
            (st, out ++ [printed]))
         ((T, matrix), [])).

Section RandomSearch.
(** Modelled from the spec: the pseudorandom source [Abyssinian]
    (AbyssinianPRNG.hpp, not part of this file) is a generator state with
    [next() -> u32]; [Next] returns the word drawn and the state after. *)
Variable prng : Type.
Variable Next : prng -> Z * prng.

(** [jj = r % ii; deck[ii] = deck[jj]; deck[jj] = ii;] for the 8-bit draw
    [r]. *)
Definition deal (deck : list Z) (ii r : Z) : list Z :=
  let jj := r mod ii in
  let deck := set deck ii (get deck jj) in
  set deck jj (u8 ii).

(** The labels [case 1], [case 2] and [case 3] of the switch; each falls
    through to the next. *)
Definition case_1 (rv ii : Z) (deck : list Z) : list Z :=
  deal deck ii (u8 (Z.shiftr rv 16)).

Definition case_2 (rv ii : Z) (deck : list Z) : list Z :=
  case_1 rv (u32 (ii + 1)) (deal deck ii (u8 (Z.shiftr rv 8))).

Definition case_3 (rv ii : Z) (deck : list Z) : list Z :=
  case_2 rv (u32 (ii + 1)) (deal deck ii (u8 rv)).

(** The [default] label: four draws, then back to the head of the loop. *)
Definition case_default (rv ii : Z) (deck : list Z) : list Z :=
  let deck := deal deck ii (u8 rv) in
  let ii := u32 (ii + 1) in
  let deck := deal deck ii (u8 (Z.shiftr rv 8)) in
  let ii := u32 (ii + 1) in
  let deck := deal deck ii (u8 (Z.shiftr rv 16)) in
  let ii := u32 (ii + 1) in
  deal deck ii (u8 (Z.shiftr rv 24)).

(** Turns the loop has left: [count - ii], an unsigned difference. *)
Definition turns_left (ii : Z) : nat := Z.to_nat (u32 (256 - ii)).

Lemma turns_left_default ii :
  ~ u32 (256 - ii) < 4 -> (turns_left (u32 (ii + 4)) < turns_left ii)%nat.
Proof.
  unfold turns_left, u32; intros H.
  rewrite Zminus_mod_idemp_r.
  replace (256 - (ii + 4)) with (256 - ii - 4) by lia.
  rewrite <- Zminus_mod_idemp_l.
  pose proof (Z.mod_pos_bound (256 - ii) 4294967296 ltac:(lia)).
  rewrite (Z.mod_small ((256 - ii) mod 4294967296 - 4)) by lia.
  lia.
Qed.

Arguments turns_left : simpl never.
Arguments u32 : simpl never.

(** The loop [for (u32 ii = 1;;)], from the value [ii] of its counter; it
    ends when [count - ii] is below 4. *)
Equations ShuffleDeck8_loop (ii : Z) (p : prng) (deck : list Z)
  : list Z * prng by wf (turns_left ii) lt :=
ShuffleDeck8_loop ii p deck with Z_lt_dec (u32 (256 - ii)) 4 := {
  | left _ =>
      let rv := u32 (fst (Next p)) in
      let d := u32 (256 - ii) in
      (if d =? 3 then case_3 rv ii deck
       else if d =? 2 then case_2 rv ii deck
       else if d =? 1 then case_1 rv ii deck
       else deck,
       snd (Next p))
  | right H =>
      let rv := u32 (fst (Next p)) in
      ShuffleDeck8_loop (u32 (ii + 4)) (snd (Next p)) (case_default rv ii deck) }.
Next Obligation. now apply turns_left_default. Qed.

(** [ShuffleDeck8(prng, deck)]. *)
Definition ShuffleDeck8 (p : prng) (deck : list Z) : list Z * prng :=
  ShuffleDeck8_loop 1 p (set deck 0 0).

Variable T : Tables.

Record explore := {
  ex_prng : prng;
  ex_XY : list Z;
  ex_matrix : list Z;
  ex_best : list Z;
  ex_least : Z;
}.

(** The count of ones [GenerateCauchyMatrix] returns in the iteration that
    starts from [s]. *)
Definition iteration_ones (k m : Z) (s : explore) : Z :=
  let XY := fst (ShuffleDeck8 (ex_prng s) (ex_XY s)) in
  snd (fst (GenerateCauchyMatrix T k m (ex_matrix s) XY (skipn (Z.to_nat k) XY))).

(** One turn of the search loop of [Explore(k, m)]; [X] is [XY] and [Y] is
    [XY + k]. *)
Definition Explore_iter (k m : Z) (s : explore) : explore :=
  let '(XY, p) := ShuffleDeck8 (ex_prng s) (ex_XY s) in
  let X := XY in
  let Y := skipn (Z.to_nat k) XY in
  let '(matrix, ones, _) := GenerateCauchyMatrix T k m (ex_matrix s) X Y in
  if ones <? ex_least s then
    {| ex_prng := p; ex_XY := XY; ex_matrix := matrix;
       ex_best := memcpy (ex_best s) matrix (k * m); ex_least := ones |}
  else
    {| ex_prng := p; ex_XY := XY; ex_matrix := matrix;
       ex_best := ex_best s; ex_least := ex_least s |}.

(** The state after [n] turns; [p] is the generator after [Initialize(1)],
    the three buffers are as allocated. *)
Definition Explore_loop (k m n : Z) (p : prng) (XY matrix best : list Z)
  : explore :=
  for_range 0 n (fun _ => Explore_iter k m)
    {| ex_prng := p; ex_XY := XY; ex_matrix := matrix;
       ex_best := best; ex_least := INT_MAX |}.

(** [Explore(k, m)]: the sorted best matrix. *)
Definition Explore (k m : Z) (p : prng) (XY matrix best : list Z) : list Z :=
  SortColumns T k m (ex_best (Explore_loop k m EXPLORE_ITERATIONS p XY matrix best)).
End RandomSearch.

(** * Verification *)

Arguments zrange : simpl never.
Arguments for_range : simpl never.

(** ** Arrays and loops *)

Lemma length_upd n v a : length (upd n v a) = length a.
Proof.
  revert n; induction a as [|h t IH]; intros [|n]; simpl; auto.
Qed.

Lemma nth_upd_eq n v a d : (n < length a)%nat -> nth n (upd n v a) d = v.
Proof.
  revert n; induction a as [|h t IH]; intros [|n] H; simpl in *; try lia; auto.
  apply IH; lia.
Qed.

Lemma nth_upd_ne n n' v a d : n <> n' -> nth n' (upd n v a) d = nth n' a d.
Proof.
  revert n n'; induction a as [|h t IH]; intros [|n] [|n'] H; simpl; auto.
  congruence.
Qed.

Lemma length_set a i v : length (set a i v) = length a.
Proof.
  unfold set; destruct (i <? 0); auto using length_upd.
Qed.

Lemma get_set_eq a i v :
  0 <= i < Z.of_nat (length a) -> get (set a i v) i = v.
Proof.
  intros H; unfold get, set.
  destruct (Z.ltb_spec i 0); [lia|].
  apply nth_upd_eq; lia.
Qed.

Lemma get_set_ne a i j v :
  i <> j -> 0 <= j -> get (set a i v) j = get a j.
Proof.
  intros H Hj; unfold get, set.
  destruct (Z.ltb_spec i 0); auto.
  apply nth_upd_ne; lia.
Qed.

Lemma length_zrange lo hi : length (zrange lo hi) = Z.to_nat (hi - lo).
Proof.
  unfold zrange; now rewrite length_map, length_seq.
Qed.

Lemma in_zrange lo hi i : In i (zrange lo hi) <-> lo <= i < hi.
Proof.
  unfold zrange; rewrite in_map_iff; split.
  - intros (n & <- & Hn); apply in_seq in Hn; lia.
  - intros H; exists (Z.to_nat (i - lo)); split; [lia|].
    apply in_seq; lia.
Qed.

Lemma zrange_empty lo hi : hi <= lo -> zrange lo hi = [].
Proof.
  intros H; unfold zrange.
  replace (Z.to_nat (hi - lo)) with O by lia; reflexivity.
Qed.

Lemma zrange_snoc lo hi : lo <= hi -> zrange lo (hi + 1) = zrange lo hi ++ [hi].
Proof.
  intros H; unfold zrange.
  replace (Z.to_nat (hi + 1 - lo)) with (S (Z.to_nat (hi - lo))) by lia.
  rewrite seq_S, map_app; simpl.
  do 2 f_equal; lia.
Qed.

Lemma zrange_cons lo hi : lo < hi -> zrange lo hi = lo :: zrange (lo + 1) hi.
Proof.
  intros H; unfold zrange.
  replace (Z.to_nat (hi - lo)) with (S (Z.to_nat (hi - (lo + 1)))) by lia.
  simpl; f_equal; [lia|].
  rewrite <- seq_shift, map_map.
  apply map_ext; intros; lia.
Qed.

Lemma nth_zrange lo hi n d :
  (n < Z.to_nat (hi - lo))%nat -> nth n (zrange lo hi) d = lo + Z.of_nat n.
Proof.
  intros H; unfold zrange.
  rewrite (nth_indep _ d (lo + Z.of_nat 0)) by now rewrite length_map, length_seq.
  rewrite (map_nth (fun n => lo + Z.of_nat n)), seq_nth by lia.
  reflexivity.
Qed.

Lemma nth_map_zrange {A} (f : Z -> A) lo hi i d :
  lo <= i < hi -> nth (Z.to_nat (i - lo)) (map f (zrange lo hi)) d = f i.
Proof.
  intros H.
  rewrite (nth_indep _ d (f 0)) by (rewrite length_map, length_zrange; lia).
  rewrite (map_nth f), nth_zrange by lia.
  f_equal; lia.
Qed.

Lemma get_map_zrange (f : Z -> Z) hi i :
  0 <= i < hi -> get (map f (zrange 0 hi)) i = f i.
Proof.
  intros H; unfold get.
  replace (Z.to_nat i) with (Z.to_nat (i - 0)) by lia.
  now apply nth_map_zrange.
Qed.

Lemma for_range_empty {St} lo hi (body : Z -> St -> St) s :
  hi <= lo -> for_range lo hi body s = s.
Proof.
  intros H; unfold for_range; now rewrite zrange_empty.
Qed.

Lemma for_range_snoc {St} lo hi (body : Z -> St -> St) s :
  lo <= hi ->
  for_range lo (hi + 1) body s = body hi (for_range lo hi body s).
Proof.
  intros H; unfold for_range.
  now rewrite zrange_snoc, fold_left_app.
Qed.

Lemma for_range_cons {St} lo hi (body : Z -> St -> St) s :
  lo < hi ->
  for_range lo hi body s = for_range (lo + 1) hi body (body lo s).
Proof.
  intros H; unfold for_range.
  now rewrite zrange_cons.
Qed.

(** The loop rule: an invariant [P i s] carried from [lo] to [hi]. *)
Lemma for_range_inv {St} (P : Z -> St -> Prop) lo hi (body : Z -> St -> St) s :
  lo <= hi ->
  P lo s ->
  (forall i s, lo <= i < hi -> P i s -> P (i + 1) (body i s)) ->
  P hi (for_range lo hi body s).
Proof.
  intros Hle H0 Hstep.
  assert (G : forall n, lo + Z.of_nat n <= hi ->
              P (lo + Z.of_nat n) (for_range lo (lo + Z.of_nat n) body s)).
  { induction n as [|n IH]; intros Hn.
    - rewrite Z.add_0_r, for_range_empty by lia; exact H0.
    - replace (lo + Z.of_nat (S n)) with (lo + Z.of_nat n + 1) by lia.
      rewrite for_range_snoc by lia.
      apply Hstep; [lia|apply IH; lia]. }
  specialize (G (Z.to_nat (hi - lo))).
  replace (lo + Z.of_nat (Z.to_nat (hi - lo))) with hi in G by lia.
  apply G; lia.
Qed.

Lemma for_range_ext {St} lo hi (f g : Z -> St -> St) s :
  (forall i s, lo <= i < hi -> f i s = g i s) ->
  for_range lo hi f s = for_range lo hi g s.
Proof.
  intros H; unfold for_range.
  assert (G : forall l, (forall i, In i l -> lo <= i < hi) ->
              forall s, fold_left (fun s i => f i s) l s
                        = fold_left (fun s i => g i s) l s).
  { induction l as [|x l IH]; intros Hl s'; simpl; auto.
    rewrite H by (apply Hl; now left).
    apply IH; intros; apply Hl; now right. }
  apply G; intros i Hi; now apply in_zrange.
Qed.

(** Replace every closed array read of the goal by its value. *)
Ltac eval_get :=
  repeat match goal with
    | |- context [get ?l ?i] =>
        let v := eval vm_compute in (get l i) in
        change (get l i) with v
    end.

(** Bounded quantification decided by evaluation. *)
Definition all_in (lo hi : Z) (p : Z -> bool) : bool := forallb p (zrange lo hi).

Lemma all_in_spec lo hi p :
  all_in lo hi p = true -> forall i, lo <= i < hi -> p i = true.
Proof.
  unfold all_in; rewrite forallb_forall.
  intros H i Hi; apply H, in_zrange, Hi.
Qed.

(** ** The multiply / divide tables, entry by entry *)

(** What [InitMulDivTables] stores at [(y << 8) + x]. *)
Definition mul_entry (LOG EXP : list Z) (x y : Z) : Z :=
  if (x =? 0) || (y =? 0) then 0
  else get EXP (get LOG x + u8 (get LOG y)).

Definition div_entry (LOG EXP : list Z) (x y : Z) : Z :=
  if (x =? 0) || (y =? 0) then 0
  else get EXP (get LOG x + u8 (255 - u8 (get LOG y))).

Lemma tget_sub (t : table) x y :
  is_byte x -> 0 <= y ->
  tget t (Z.shiftl y 8 + x) = get (nth (Z.to_nat y) t []) x.
Proof.
  intros Hx Hy; unfold tget, is_byte in *.
  rewrite Z.shiftl_mul_pow2 by lia.
  change (2 ^ 8) with 256.
  replace ((y * 256 + x) / 256) with y by (apply Z.div_unique with x; lia).
  replace ((y * 256 + x) mod 256) with x by (apply Z.mod_unique with y; lia).
  reflexivity.
Qed.

Lemma nth_sub_cons {A} (z : A) (f : Z -> A) y d :
  is_byte y ->
  nth (Z.to_nat y) (z :: map f (zrange 1 256)) d = if y =? 0 then z else f y.
Proof.
  intros Hy; unfold is_byte in Hy.
  destruct (Z.eqb_spec y 0) as [->|Hn]; [reflexivity|].
  replace (Z.to_nat y) with (S (Z.to_nat (y - 1))) by lia; cbn [nth].
  apply nth_map_zrange; lia.
Qed.

Lemma get_sub_cons (f : Z -> Z) x :
  is_byte x ->
  get (0 :: map f (zrange 1 256)) x = if x =? 0 then 0 else f x.
Proof.
  intros Hx; unfold get; now apply nth_sub_cons.
Qed.

Lemma InitMulDivTables_fst LOG EXP :
  fst (InitMulDivTables LOG EXP)
  = map (fun _ => 0) (zrange 0 256)
    :: map (fun y => 0 :: map (fun x => get EXP (get LOG x + u8 (get LOG y)))
                               (zrange 1 256))
           (zrange 1 256).
Proof. cbv beta iota zeta delta [InitMulDivTables fst snd]. reflexivity. Qed.

Lemma InitMulDivTables_snd LOG EXP :
  snd (InitMulDivTables LOG EXP)
  = map (fun _ => 0) (zrange 0 256)
    :: map (fun y => 0 :: map (fun x => get EXP (get LOG x + u8 (255 - u8 (get LOG y))))
                               (zrange 1 256))
           (zrange 1 256).
Proof. cbv beta iota zeta delta [InitMulDivTables fst snd]. reflexivity. Qed.

Lemma GF256Multiply_entry LOG EXP x y :
  is_byte x -> is_byte y ->
  GF256Multiply (fst (InitMulDivTables LOG EXP)) x y = mul_entry LOG EXP x y.
Proof.
  intros Hx Hy; unfold GF256Multiply, mul_entry.
  rewrite InitMulDivTables_fst.
  rewrite tget_sub by (unfold is_byte in *; auto; lia).
  rewrite nth_sub_cons by assumption.
  destruct (Z.eqb_spec y 0).
  - rewrite orb_true_r, get_map_zrange; auto.
  - rewrite orb_false_r, get_sub_cons; auto.
Qed.

Lemma GF256Divide_entry LOG EXP x y :
  is_byte x -> is_byte y ->
  GF256Divide (snd (InitMulDivTables LOG EXP)) x y = div_entry LOG EXP x y.
Proof.
  intros Hx Hy; unfold GF256Divide, div_entry.
  rewrite InitMulDivTables_snd.
  rewrite tget_sub by (unfold is_byte in *; auto; lia).
  rewrite nth_sub_cons by assumption.
  destruct (Z.eqb_spec y 0).
  - rewrite orb_true_r, get_map_zrange; auto.
  - rewrite orb_false_r, get_sub_cons; auto.
Qed.

(** The log / antilog pair [main] starts from, for catalogue index [ii]. *)
Definition explog (ii : Z) : list Z * list Z :=
  GenerateExpLogTables ii LOG_TABLE_0 EXP_TABLE_0.

Lemma InitTables_LOG ii : GF256_LOG_TABLE (InitTables ii) = fst (explog ii).
Proof.
  unfold InitTables, explog.
  destruct (GenerateExpLogTables ii LOG_TABLE_0 EXP_TABLE_0) as [LOG EXP].
  destruct (InitMulDivTables LOG EXP); reflexivity.
Qed.

Lemma InitTables_EXP ii : GF256_EXP_TABLE (InitTables ii) = snd (explog ii).
Proof.
  unfold InitTables, explog.
  destruct (GenerateExpLogTables ii LOG_TABLE_0 EXP_TABLE_0) as [LOG EXP].
  destruct (InitMulDivTables LOG EXP); reflexivity.
Qed.

Lemma InitTables_MUL ii :
  GF256_MUL_TABLE (InitTables ii)
  = fst (InitMulDivTables (fst (explog ii)) (snd (explog ii))).
Proof.
  unfold InitTables, explog.
  destruct (GenerateExpLogTables ii LOG_TABLE_0 EXP_TABLE_0) as [LOG EXP].
  cbn [fst snd].
  destruct (InitMulDivTables LOG EXP); reflexivity.
Qed.

Lemma InitTables_DIV ii :
  GF256_DIV_TABLE (InitTables ii)
  = snd (InitMulDivTables (fst (explog ii)) (snd (explog ii))).
Proof.
  unfold InitTables, explog.
  destruct (GenerateExpLogTables ii LOG_TABLE_0 EXP_TABLE_0) as [LOG EXP].
  cbn [fst snd].
  destruct (InitMulDivTables LOG EXP); reflexivity.
Qed.

Lemma InitTables_INV ii :
  GF256_INV_TABLE (InitTables ii) = InitInvTable (GF256_DIV_TABLE (InitTables ii)).
Proof.
  unfold InitTables, explog.
  destruct (GenerateExpLogTables ii LOG_TABLE_0 EXP_TABLE_0) as [LOG EXP].
  destruct (InitMulDivTables LOG EXP); reflexivity.
Qed.

Lemma InitTables_ONES ii :
  CAUCHY_ONES (InitTables ii) = GenerateCauchyOnes (GF256_MUL_TABLE (InitTables ii)).
Proof.
  unfold InitTables, explog.
  destruct (GenerateExpLogTables ii LOG_TABLE_0 EXP_TABLE_0) as [LOG EXP].
  destruct (InitMulDivTables LOG EXP); reflexivity.
Qed.

Lemma mul_entry_eq ii x y :
  is_byte x -> is_byte y ->
  mul (InitTables ii) x y = mul_entry (fst (explog ii)) (snd (explog ii)) x y.
Proof.
  intros; unfold mul; rewrite InitTables_MUL; now apply GF256Multiply_entry.
Qed.

Lemma div_entry_eq ii x y :
  is_byte x -> is_byte y ->
  div (InitTables ii) x y = div_entry (fst (explog ii)) (snd (explog ii)) x y.
Proof.
  intros; unfold div; rewrite InitTables_DIV; now apply GF256Divide_entry.
Qed.

(** The table builders are from here on used through their equations. *)
Opaque GenerateExpLogTables InitMulDivTables InitTables.

(** ** The sixteen catalogue polynomials, checked by evaluation *)

Definition explog_check (LE : list Z * list Z) : bool :=
  let '(LOG, EXP) := LE in
  (length LOG =? 256)%nat && (length EXP =? 1025)%nat
  && (get EXP 0 =? 1) && (get LOG 1 =? 255) && (get LOG 0 =? 512)
  && all_in 1 256 (fun v =>
       (1 <=? get LOG v) && (get LOG v <=? 255) && (get EXP (get LOG v) =? v))
  && all_in 1 511 (fun s =>
       (get LOG (get EXP s) =? (s - 1) mod 255 + 1)
       && (1 <=? get EXP s) && (get EXP s <=? 255))
  && all_in 1 256 (fun v =>
       (count_occ Z.eq_dec (firstn 255 EXP) v =? 1)%nat).

Lemma explog_check_all : all_in 0 16 (fun ii => explog_check (explog ii)) = true.
Proof. vm_compute. reflexivity. Qed.

Record explog_facts (LOG EXP : list Z) : Prop := {
  ef_len_log : length LOG = 256%nat;
  ef_len_exp : length EXP = 1025%nat;
  ef_exp_0 : get EXP 0 = 1;
  ef_log_1 : get LOG 1 = 255;
  ef_log_0 : get LOG 0 = 512;
  ef_log : forall v, 1 <= v <= 255 ->
      1 <= get LOG v <= 255 /\ get EXP (get LOG v) = v;
  ef_exp : forall s, 1 <= s <= 510 ->
      get LOG (get EXP s) = (s - 1) mod 255 + 1 /\ 1 <= get EXP s <= 255;
  ef_once : forall v, 1 <= v <= 255 ->
      count_occ Z.eq_dec (firstn 255 EXP) v = 1%nat;
}.

Lemma explog_facts_of_check LOG EXP :
  explog_check (LOG, EXP) = true -> explog_facts LOG EXP.
Proof.
  unfold explog_check; rewrite !andb_true_iff.
  intros [[[[[[[H1 H2] H3] H4] H5] H6] H7] H8].
  split.
  - now apply Nat.eqb_eq.
  - now apply Nat.eqb_eq.
  - now apply Z.eqb_eq.
  - now apply Z.eqb_eq.
  - now apply Z.eqb_eq.
  - intros v Hv.
    pose proof (all_in_spec _ _ _ H6 v ltac:(lia)) as E.
    rewrite !andb_true_iff, !Z.leb_le, Z.eqb_eq in E; tauto.
  - intros s Hs.
    pose proof (all_in_spec _ _ _ H7 s ltac:(lia)) as E.
    rewrite !andb_true_iff, !Z.leb_le, Z.eqb_eq in E; tauto.
  - intros v Hv.
    pose proof (all_in_spec _ _ _ H8 v ltac:(lia)) as E.
    now apply Nat.eqb_eq in E.
Qed.

Lemma explog_facts_catalogue ii :
  0 <= ii < 16 -> explog_facts (fst (explog ii)) (snd (explog ii)).
Proof.
  intros H.
  apply explog_facts_of_check.
  rewrite <- surjective_pairing.
  exact (all_in_spec _ _ _ explog_check_all ii H).
Qed.

(** The antilog table has period 255 over the indices the tables use. *)
Lemma exp_period LOG EXP s :
  explog_facts LOG EXP -> 1 <= s <= 510 ->
  get EXP s = get EXP ((s - 1) mod 255 + 1).
Proof.
  intros F Hs.
  destruct (ef_exp _ _ F s Hs) as [E1 E2].
  destruct (ef_log _ _ F (get EXP s) E2) as [_ E3].
  now rewrite <- E1, E3.
Qed.

(** ** Log and antilog tables *)




(** C2, as the code has it: for each catalogue index, [antilog[log[v]] = v]
    for every v in 1..255 and [log[antilog[e]] = e] for every e in 1..254;
    at e = 0 the code stores 255, not 0: [antilog[0] = 1] and
    [log[antilog[0]] = log[1] = 255]. *)
Theorem log_antilog_inverse ii :
  0 <= ii < 16 ->
  let LOG := fst (GenerateExpLogTables ii LOG_TABLE_0 EXP_TABLE_0) in
  let EXP := snd (GenerateExpLogTables ii LOG_TABLE_0 EXP_TABLE_0) in
  (forall v, 1 <= v <= 255 -> get EXP (get LOG v) = v)
  /\ (forall e, 1 <= e <= 254 -> get LOG (get EXP e) = e)
  /\ get EXP 0 = 1
  /\ get LOG (get EXP 0) = 255.
Proof.
  intros H.
  pose proof (explog_facts_catalogue ii H) as F; unfold explog in F.
  destruct (GenerateExpLogTables ii LOG_TABLE_0 EXP_TABLE_0) as [LOG EXP].
  cbn [fst snd] in *.
  split; [|split; [|split]].
  - intros v Hv; destruct (ef_log _ _ F v Hv) as [_ E]; exact E.
  - intros e He.
    destruct (ef_exp _ _ F e ltac:(lia)) as [E _].
    rewrite E, Z.mod_small; lia.
  - exact (ef_exp_0 _ _ F).
  - rewrite (ef_exp_0 _ _ F); exact (ef_log_1 _ _ F).
Qed.

Lemma log_antilog_inverse_witness :
  let LOG := fst (GenerateExpLogTables FAVORITE_POLY LOG_TABLE_0 EXP_TABLE_0) in
  let EXP := snd (GenerateExpLogTables FAVORITE_POLY LOG_TABLE_0 EXP_TABLE_0) in
  (forall v, 1 <= v <= 255 -> get EXP (get LOG v) = v)
  /\ (forall e, 1 <= e <= 254 -> get LOG (get EXP e) = e)
  /\ get EXP 0 = 1
  /\ get LOG (get EXP 0) = 255.
Proof.
  apply (log_antilog_inverse FAVORITE_POLY).
  unfold FAVORITE_POLY; lia.
Defined.

(** C2, refuted as stated: with the default polynomial,
    [log[antilog[0]]] is 255, so [log[antilog[e]] = e] fails at e = 0. *)
Lemma log_antilog_0_not_inverse :
  let LOG := fst (GenerateExpLogTables FAVORITE_POLY LOG_TABLE_0 EXP_TABLE_0) in
  let EXP := snd (GenerateExpLogTables FAVORITE_POLY LOG_TABLE_0 EXP_TABLE_0) in
  ~ (forall e, 0 <= e <= 254 -> get LOG (get EXP e) = e).
Proof.
  intros LOG EXP F.
  specialize (F 0 ltac:(lia)).
  assert (E : get LOG (get EXP 0) = 255) by (vm_compute; reflexivity).
  rewrite E in F; discriminate F.
Qed.

(** ** Field operations *)

Lemma u8_small x : 0 <= x < 256 -> u8 x = x.
Proof. intros; unfold u8; apply Z.mod_small; lia. Qed.

Section FieldLaws.
Variable ii : Z.
Hypothesis Hii : 0 <= ii < 16.

Let LOG := fst (explog ii).
Let EXP := snd (explog ii).
Let T := InitTables ii.

Local Lemma facts_ii : explog_facts LOG EXP.
Proof. exact (explog_facts_catalogue ii Hii). Qed.

Lemma mul_nonzero_eq x y :
  1 <= x <= 255 -> 1 <= y <= 255 ->
  mul T x y = get EXP (get LOG x + get LOG y)
  /\ 2 <= get LOG x + get LOG y <= 510.
Proof.
  intros Hx Hy; unfold T.
  rewrite mul_entry_eq by (unfold is_byte; lia).
  unfold mul_entry; fold LOG EXP.
  destruct (Z.eqb_spec x 0); [lia|].
  destruct (Z.eqb_spec y 0); [lia|]; cbn [orb].
  destruct (ef_log _ _ facts_ii x Hx) as [Lx _].
  destruct (ef_log _ _ facts_ii y Hy) as [Ly _].
  rewrite u8_small by lia; split; [reflexivity|lia].
Qed.

Lemma div_nonzero_eq x y :
  1 <= x <= 255 -> 1 <= y <= 255 ->
  div T x y = get EXP (get LOG x + (255 - get LOG y))
  /\ 1 <= get LOG x + (255 - get LOG y) <= 509.
Proof.
  intros Hx Hy; unfold T.
  rewrite div_entry_eq by (unfold is_byte; lia).
  unfold div_entry; fold LOG EXP.
  destruct (Z.eqb_spec x 0); [lia|].
  destruct (Z.eqb_spec y 0); [lia|]; cbn [orb].
  destruct (ef_log _ _ facts_ii x Hx) as [Lx _].
  destruct (ef_log _ _ facts_ii y Hy) as [Ly _].
  rewrite (u8_small (get LOG y)) by lia.
  rewrite u8_small by lia; split; [reflexivity|lia].
Qed.

Lemma mul_zero_l y : is_byte y -> mul T 0 y = 0.
Proof.
  intros Hy; unfold T; rewrite mul_entry_eq by (unfold is_byte in *; lia).
  reflexivity.
Qed.

Lemma mul_zero_r x : is_byte x -> mul T x 0 = 0.
Proof.
  intros Hx; unfold T; rewrite mul_entry_eq by (unfold is_byte in *; lia).
  unfold mul_entry; now rewrite orb_true_r.
Qed.

Lemma div_zero_l y : is_byte y -> div T 0 y = 0.
Proof.
  intros Hy; unfold T; rewrite div_entry_eq by (unfold is_byte in *; lia).
  reflexivity.
Qed.

Lemma mul_nonzero x y :
  1 <= x <= 255 -> 1 <= y <= 255 -> 1 <= mul T x y <= 255.
Proof.
  intros Hx Hy.
  destruct (mul_nonzero_eq x y Hx Hy) as [-> R].
  apply (ef_exp _ _ facts_ii); lia.
Qed.

Lemma div_nonzero x y :
  1 <= x <= 255 -> 1 <= y <= 255 -> 1 <= div T x y <= 255.
Proof.
  intros Hx Hy.
  destruct (div_nonzero_eq x y Hx Hy) as [-> R].
  apply (ef_exp _ _ facts_ii); lia.
Qed.

Lemma mul_byte x y : is_byte x -> is_byte y -> is_byte (mul T x y).
Proof.
  unfold is_byte; intros Hx Hy.
  destruct (Z.eq_dec x 0) as [->|]; [rewrite mul_zero_l; unfold is_byte; lia|].
  destruct (Z.eq_dec y 0) as [->|]; [rewrite mul_zero_r; unfold is_byte; lia|].
  pose proof (mul_nonzero x y); lia.
Qed.

Lemma mul_comm x y : is_byte x -> is_byte y -> mul T x y = mul T y x.
Proof.
  unfold is_byte; intros Hx Hy.
  destruct (Z.eq_dec x 0) as [->|].
  { rewrite mul_zero_l, mul_zero_r; unfold is_byte; auto. }
  destruct (Z.eq_dec y 0) as [->|].
  { rewrite mul_zero_l, mul_zero_r; unfold is_byte; auto; lia. }
  destruct (mul_nonzero_eq x y) as [-> _]; try lia.
  destruct (mul_nonzero_eq y x) as [-> _]; try lia.
  f_equal; lia.
Qed.

Lemma mul_one_r x : is_byte x -> mul T x 1 = x.
Proof.
  unfold is_byte; intros Hx.
  destruct (Z.eq_dec x 0) as [->|]; [apply mul_zero_l; unfold is_byte; lia|].
  destruct (mul_nonzero_eq x 1) as [-> R]; try lia.
  destruct (ef_log _ _ facts_ii x ltac:(lia)) as [Lx Ex].
  rewrite (ef_log_1 _ _ facts_ii) in *.
  rewrite (exp_period _ _ _ facts_ii) by lia.
  replace ((get LOG x + 255 - 1) mod 255 + 1) with (get LOG x); [exact Ex|].
  clear - Lx.
  generalize dependent (get LOG x).
  intros; Z.div_mod_to_equations; lia.
Qed.

Lemma div_mul x y : is_byte x -> 1 <= y <= 255 -> div T (mul T x y) y = x.
Proof.
  unfold is_byte; intros Hx Hy.
  destruct (Z.eq_dec x 0) as [->|].
  { rewrite mul_zero_l, div_zero_l; unfold is_byte; auto; lia. }
  pose proof (mul_nonzero x y ltac:(lia) Hy) as Hm.
  destruct (div_nonzero_eq (mul T x y) y Hm Hy) as [-> R].
  destruct (mul_nonzero_eq x y ltac:(lia) Hy) as [Em Rm].
  destruct (ef_log _ _ facts_ii x ltac:(lia)) as [Lx Ex].
  destruct (ef_log _ _ facts_ii y Hy) as [Ly _].
  rewrite (exp_period _ _ _ facts_ii) by lia.
  rewrite Em in *.
  destruct (ef_exp _ _ facts_ii (get LOG x + get LOG y) ltac:(lia)) as [E _].
  rewrite E.
  replace (((get LOG x + get LOG y - 1) mod 255 + 1
            + (255 - get LOG y) - 1) mod 255 + 1) with (get LOG x);
    [exact Ex|].
  clear - Lx Ly.
  generalize dependent (get LOG x); generalize dependent (get LOG y).
  intros; Z.div_mod_to_equations; lia.
Qed.
End FieldLaws.

(** C5: with the tables built for any catalogue polynomial, multiplication
    is commutative, 1 is its unit, 0 is absorbing, and dividing a product by
    its nonzero factor gives back the other factor. *)
Theorem field_operations_laws ii a b :
  0 <= ii < 16 -> is_byte a -> is_byte b ->
  let T := InitTables ii in
  mul T a b = mul T b a
  /\ mul T a 1 = a
  /\ mul T a 0 = 0
  /\ (b <> 0 -> div T (mul T a b) b = a).
Proof.
  intros Hii Ha Hb T; unfold T.
  split; [now apply mul_comm|].
  split; [now apply mul_one_r|].
  split; [now apply mul_zero_r|].
  intros Hnz; apply div_mul; auto.
  unfold is_byte in Hb; lia.
Qed.

Lemma field_operations_laws_witness :
  let T := InitTables FAVORITE_POLY in
  mul T 1 1 = mul T 1 1
  /\ mul T 1 1 = 1
  /\ mul T 1 0 = 0
  /\ (1 <> 0 -> div T (mul T 1 1) 1 = 1).
Proof.
  apply (field_operations_laws FAVORITE_POLY 1 1);
    unfold FAVORITE_POLY, is_byte; lia.
Defined.

(** ** Bit weights *)

(** Two loops that agree on every state an invariant allows. *)
Lemma for_range_ext_inv {St} (Inv : St -> Prop) lo hi (f g : Z -> St -> St) s :
  Inv s ->
  (forall i s, lo <= i < hi -> Inv s -> f i s = g i s /\ Inv (f i s)) ->
  for_range lo hi f s = for_range lo hi g s /\ Inv (for_range lo hi f s).
Proof.
  intros H0 Hstep.
  destruct (Z.le_gt_cases lo hi) as [Hle|Hgt].
  - apply (for_range_inv
             (fun i t => t = for_range lo i g s /\ Inv t) lo hi f s Hle).
    + rewrite for_range_empty by lia; auto.
    + intros i t Hi [-> It].
      destruct (Hstep i _ Hi It) as [E I'].
      rewrite for_range_snoc by lia; split; auto.
  - rewrite !for_range_empty by lia; auto.
Qed.

(** [cauchy_ones] computed from the log / antilog pair alone. *)
Definition cauchy_ones_entry (LOG EXP : list Z) (n : Z) : Z :=
  snd (for_range 1 8
         (fun _ '(n, ones) =>
            let n := mul_entry LOG EXP n 2 in
            (n, ones + BIT_COUNT_TABLE n))
         (n, BIT_COUNT_TABLE n)).

Lemma cauchy_ones_entry_eq ii n :
  0 <= ii < 16 -> is_byte n ->
  cauchy_ones (GF256_MUL_TABLE (InitTables ii)) n
  = cauchy_ones_entry (fst (explog ii)) (snd (explog ii)) n.
Proof.
  intros Hii Hn; unfold cauchy_ones, cauchy_ones_entry.
  f_equal.
  apply (for_range_ext_inv (fun s => is_byte (fst s))); [exact Hn|].
  intros i [n' ones] _ Hb; cbn [fst] in *.
  fold (mul (InitTables ii) n' 2).
  rewrite <- mul_entry_eq by (auto; unfold is_byte; lia).
  split; [reflexivity|].
  cbn [fst]; apply mul_byte; auto; unfold is_byte; lia.
Qed.

Definition ONES_entry (LOG EXP : list Z) : list Z :=
  map (fun x => u8 (cauchy_ones_entry LOG EXP x)) (zrange 0 256).

Lemma CAUCHY_ONES_entry ii :
  0 <= ii < 16 ->
  CAUCHY_ONES (InitTables ii) = ONES_entry (fst (explog ii)) (snd (explog ii)).
Proof.
  intros Hii; rewrite InitTables_ONES; unfold GenerateCauchyOnes, ONES_entry.
  apply map_ext_in; intros x Hx; apply in_zrange in Hx.
  now rewrite cauchy_ones_entry_eq.
Qed.

(** A list holds each of 1..255 exactly once and nothing else. *)
Definition is_perm_1_255 (l : list Z) : bool :=
  forallb (fun x => (1 <=? x) && (x <=? 255)) l
  && all_in 1 256 (fun v => (count_occ Z.eq_dec l v =? 1)%nat).

Lemma NoDup_zrange lo hi : NoDup (zrange lo hi).
Proof.
  unfold zrange; apply Finite.Injective_map_NoDup; [|apply seq_NoDup].
  intros a b; lia.
Qed.

Lemma is_perm_1_255_spec l :
  is_perm_1_255 l = true -> Permutation l (zrange 1 256).
Proof.
  unfold is_perm_1_255; rewrite andb_true_iff, forallb_forall; intros [Hr Hc].
  apply (Permutation_count_occ Z.eq_dec); intros x.
  destruct (Z_le_dec 1 x) as [H1|H1]; [destruct (Z_le_dec x 255) as [H2|H2]|].
  - pose proof (all_in_spec _ _ _ Hc x ltac:(lia)) as E.
    apply Nat.eqb_eq in E; rewrite E; symmetry.
    apply (proj1 (NoDup_count_occ' Z.eq_dec _) (NoDup_zrange 1 256)).
    apply in_zrange; lia.
  - rewrite (proj1 (count_occ_not_In Z.eq_dec l x)),
            (proj1 (count_occ_not_In Z.eq_dec (zrange 1 256) x)); auto.
    + rewrite in_zrange; lia.
    + intros Hin; specialize (Hr x Hin).
      rewrite andb_true_iff, !Z.leb_le in Hr; lia.
  - rewrite (proj1 (count_occ_not_In Z.eq_dec l x)),
            (proj1 (count_occ_not_In Z.eq_dec (zrange 1 256) x)); auto.
    + rewrite in_zrange; lia.
    + intros Hin; specialize (Hr x Hin).
      rewrite andb_true_iff, !Z.leb_le in Hr; lia.
Qed.

Definition weights_check_with (LOG EXP ONES MW : list Z) : bool :=
  (cauchy_ones_entry LOG EXP 0 =? 0)
  && all_in 1 256 (fun v =>
       (8 <=? cauchy_ones_entry LOG EXP v)
       && negb (mul_entry LOG EXP v 2 =? 0)
       && (get ONES 0 <? get ONES v))
  && (get MW 0 =? 0)
  && is_perm_1_255 (map (get MW) (zrange 1 256)).

Lemma weights_check_all :
  all_in 0 16
    (fun ii =>
       weights_check_with (fst (explog ii)) (snd (explog ii))
         (ONES_entry (fst (explog ii)) (snd (explog ii)))
         (SortMinWeightElements
            (ONES_entry (fst (explog ii)) (snd (explog ii))) (zrange 0 256)))
  = true.
Proof. vm_compute. reflexivity. Qed.

Lemma weights_check_spec LOG EXP ONES MW :
  weights_check_with LOG EXP ONES MW = true ->
  cauchy_ones_entry LOG EXP 0 = 0
  /\ (forall v, 1 <= v <= 255 ->
        8 <= cauchy_ones_entry LOG EXP v
        /\ mul_entry LOG EXP v 2 <> 0
        /\ get ONES 0 < get ONES v)
  /\ get MW 0 = 0
  /\ Permutation (map (get MW) (zrange 1 256)) (zrange 1 256).
Proof.
  unfold weights_check_with; intros C.
  rewrite !andb_true_iff in C.
  destruct C as [[[C1 C2] C3] C4].
  apply Z.eqb_eq in C1, C3.
  split; [exact C1|].
  split; [|split; [exact C3|apply is_perm_1_255_spec, C4]].
  intros v Hv.
  pose proof (all_in_spec _ _ _ C2 v ltac:(lia)) as E; cbv beta in E.
  rewrite !andb_true_iff, negb_true_iff, Z.leb_le, Z.eqb_neq, Z.ltb_lt in E.
  tauto.
Qed.

(** C10: for each catalogue polynomial, [cauchy_ones(0)] is 0 and
    [cauchy_ones(v)] is at least 8 for every nonzero v, doubling a nonzero
    value never gives 0, so 0 has the strictly smallest weight;
    [MINWEIGHT_TABLE[0]] is 0 after [SortMinWeightElements], and the entries
    at indices 1..255, the candidates of the greedy row scan, are the 255
    nonzero field values, each once. *)
Theorem cauchy_ones_zero_unique_minimum ii :
  0 <= ii < 16 ->
  let T := InitTables ii in
  cauchy_ones (GF256_MUL_TABLE T) 0 = 0
  /\ (forall v, 1 <= v <= 255 -> 8 <= cauchy_ones (GF256_MUL_TABLE T) v)
  /\ (forall v, 1 <= v <= 255 -> mul T v 2 <> 0)
  /\ (forall v, 1 <= v <= 255 -> get (CAUCHY_ONES T) 0 < get (CAUCHY_ONES T) v)
  /\ get (MINWEIGHT_TABLE T) 0 = 0
  /\ Permutation (map (get (MINWEIGHT_TABLE T)) (zrange 1 256)) (zrange 1 256).
Proof.
  intros Hii T; unfold T, MINWEIGHT_TABLE; clear T.
  pose proof (all_in_spec _ _ _ weights_check_all ii Hii) as C.
  cbv beta in C; apply weights_check_spec in C.
  rewrite <- (CAUCHY_ONES_entry ii Hii) in C.
  assert (Em : forall v, is_byte v ->
             mul (InitTables ii) v 2
             = mul_entry (fst (explog ii)) (snd (explog ii)) v 2)
    by (intros; apply mul_entry_eq; auto; unfold is_byte; lia).
  assert (Ec : forall v, is_byte v ->
             cauchy_ones (GF256_MUL_TABLE (InitTables ii)) v
             = cauchy_ones_entry (fst (explog ii)) (snd (explog ii)) v)
    by (intros; now apply cauchy_ones_entry_eq).
  unfold mul in *.
  generalize dependent (CAUCHY_ONES (InitTables ii)).
  generalize dependent (GF256_MUL_TABLE (InitTables ii)).
  generalize dependent (fst (explog ii)); generalize dependent (snd (explog ii)).
  intros EXP LOG MUL Em Ec ONES (C1 & C2 & C3 & C4).
  split; [rewrite Ec by (unfold is_byte; lia); exact C1|].
  split; [intros v Hv; rewrite Ec by (unfold is_byte; lia); apply C2, Hv|].
  split; [intros v Hv; rewrite Em by (unfold is_byte; lia); apply C2, Hv|].
  split; [intros v Hv; apply C2, Hv|].
  split; [exact C3|exact C4].
Qed.

Lemma cauchy_ones_zero_unique_minimum_witness :
  let T := InitTables FAVORITE_POLY in
  cauchy_ones (GF256_MUL_TABLE T) 0 = 0
  /\ (forall v, 1 <= v <= 255 -> 8 <= cauchy_ones (GF256_MUL_TABLE T) v)
  /\ (forall v, 1 <= v <= 255 -> mul T v 2 <> 0)
  /\ (forall v, 1 <= v <= 255 -> get (CAUCHY_ONES T) 0 < get (CAUCHY_ONES T) v)
  /\ get (MINWEIGHT_TABLE T) 0 = 0
  /\ Permutation (map (get (MINWEIGHT_TABLE T)) (zrange 1 256)) (zrange 1 256).
Proof.
  apply (cauchy_ones_zero_unique_minimum FAVORITE_POLY).
  unfold FAVORITE_POLY; lia.
Defined.

(** ** Selection of the smallest remaining count *)

Lemma get_set a i j v :
  0 <= i < Z.of_nat (length a) -> 0 <= j ->
  get (set a i v) j = if j =? i then v else get a j.
Proof.
  intros Hi Hj; destruct (Z.eqb_spec j i) as [->|Hne].
  - now apply get_set_eq.
  - apply get_set_ne; auto.
Qed.

Lemma find_smallest_spec counts x hi :
  x < hi ->
  let r := find_smallest counts x hi in
  x <= snd r < hi
  /\ fst r = get counts (snd r)
  /\ (forall z, x <= z < hi -> fst r <= get counts z)
  /\ ((forall z, x < z < hi -> get counts x <= get counts z) -> snd r = x).
Proof.
  intros Hx r; subst r; unfold find_smallest.
  apply (for_range_inv
           (fun z (s : Z * Z) =>
              x <= snd s < z
              /\ fst s = get counts (snd s)
              /\ (forall j, x <= j < z -> fst s <= get counts j)
              /\ ((forall j, x < j < z -> get counts x <= get counts j) ->
                  snd s = x))); [lia| |].
  - cbn [fst snd]; repeat split; try lia.
    intros j Hj; replace j with x by lia; lia.
  - intros z [sm b] Hz (Hb & Hsm & Hmin & Hfirst); cbn [fst snd] in *.
    destruct (Z.ltb_spec (get counts z) sm) as [Hlt|Hge]; cbn [fst snd].
    + repeat split; try lia.
      * intros j Hj.
        destruct (Z.eq_dec j z) as [->|]; [lia|].
        specialize (Hmin j ltac:(lia)); lia.
      * intros Hall.
        assert (b = x) by (apply Hfirst; intros; apply Hall; lia).
        subst b; specialize (Hall z ltac:(lia)); lia.
    + repeat split; try lia.
      * intros j Hj.
        destruct (Z.eq_dec j z) as [->|]; [lia|].
        apply Hmin; lia.
      * intros Hall; apply Hfirst; intros; apply Hall; lia.
Qed.

(** ** ColumnSorter *)

(** The cells of column [x] in rows 1..m-1, and all the columns. *)
Definition column_cells (k m : Z) (M : list Z) (x : Z) : list Z :=
  map (fun y => get M (y * k + x)) (zrange 1 m).

Definition columns (k m : Z) (M : list Z) : list (list Z) :=
  map (column_cells k m M) (zrange 0 k).

(** The transposition of [x] and [b]. *)
Definition transp (x b j : Z) : Z :=
  if j =? x then b else if j =? b then x else j.

Lemma transp_range k x b j :
  0 <= x < k -> 0 <= b < k -> 0 <= j < k -> 0 <= transp x b j < k.
Proof.
  unfold transp; intros.
  destruct (Z.eqb_spec j x); [lia|]; destruct (Z.eqb_spec j b); lia.
Qed.

Lemma transp_involutive x b j : transp x b (transp x b j) = j.
Proof.
  unfold transp.
  destruct (Z.eqb_spec j x) as [->|H1].
  - destruct (Z.eqb_spec b x) as [->|]; [reflexivity|].
    now rewrite Z.eqb_refl.
  - destruct (Z.eqb_spec j b) as [->|H2].
    + now rewrite Z.eqb_refl.
    + destruct (Z.eqb_spec j x); [lia|].
      destruct (Z.eqb_spec j b); [lia|reflexivity].
Qed.

Lemma cell_index_inj k y j y' j' :
  0 <= j < k -> 0 <= j' < k -> y * k + j = y' * k + j' -> y = y' /\ j = j'.
Proof.
  intros Hj Hj' E.
  assert (y = y') by nia.
  subst; lia.
Qed.

Section Sorter.
Variable T : Tables.
Variables k m : Z.
Hypothesis Hk : 1 <= k.
Hypothesis Hm : 1 <= m.

Lemma swap_columns_spec x b M :
  0 <= x < k -> 0 <= b < k -> Z.of_nat (length M) = k * m ->
  let M' := swap_columns k m x b M in
  length M' = length M
  /\ (forall j, 0 <= j < k -> get M' j = get M j)
  /\ (forall y j, 1 <= y < m -> 0 <= j < k ->
        get M' (y * k + j) = get M (y * k + transp x b j)).
Proof.
  intros Hx Hb Hlen M'; subst M'; unfold swap_columns.
  assert (G : length (for_range 1 m
                (fun y M0 => set (set M0 (y * k + x) (get M0 (y * k + b)))
                               (y * k + b) (get M0 (y * k + x))) M) = length M
            /\ forall y j, 0 <= y < m -> 0 <= j < k ->
               get (for_range 1 m
                      (fun y M0 => set (set M0 (y * k + x) (get M0 (y * k + b)))
                                     (y * k + b) (get M0 (y * k + x))) M)
                   (y * k + j)
               = if (1 <=? y) && (y <? m) then get M (y * k + transp x b j)
                 else get M (y * k + j)).
  { apply (for_range_inv
             (fun r M1 =>
                length M1 = length M
                /\ forall y j, 0 <= y < m -> 0 <= j < k ->
                   get M1 (y * k + j)
                   = if (1 <=? y) && (y <? r) then get M (y * k + transp x b j)
                     else get M (y * k + j))); [lia| |].
    - split; [reflexivity|].
      intros y j Hy Hj.
      destruct (Z.leb_spec 1 y); destruct (Z.ltb_spec y 1); cbn [andb]; auto; lia.
    - intros r M1 Hr [HL HM].
      assert (Hin : forall j, 0 <= j < k ->
                0 <= r * k + j < Z.of_nat (length M1)) by (intros; rewrite HL; nia).
      split; [now rewrite !length_set|].
      intros y j Hy Hj.
      assert (0 <= y * k + j) by nia.
      rewrite get_set by (rewrite ?length_set; auto).
      rewrite get_set by auto.
      pose proof (HM r x ltac:(lia) Hx) as Ex.
      pose proof (HM r b ltac:(lia) Hb) as Eb.
      pose proof (HM y j Hy Hj) as Ey.
      replace ((1 <=? r) && (r <? r)) with false in Ex, Eb
        by (destruct (Z.leb_spec 1 r); destruct (Z.ltb_spec r r); cbn; auto; lia).
      destruct (Z.eqb_spec (y * k + j) (r * k + b)) as [E|NE].
      + apply cell_index_inj in E; auto; destruct E as [-> ->].
        replace ((1 <=? r) && (r <? r + 1)) with true
          by (destruct (Z.leb_spec 1 r); destruct (Z.ltb_spec r (r + 1)); cbn; auto; lia).
        rewrite Ex; f_equal; f_equal.
        unfold transp; destruct (Z.eqb_spec b x); [lia|].
        now rewrite Z.eqb_refl.
      + destruct (Z.eqb_spec (y * k + j) (r * k + x)) as [E|NE'].
        * apply cell_index_inj in E; auto; destruct E as [-> ->].
          replace ((1 <=? r) && (r <? r + 1)) with true
            by (destruct (Z.leb_spec 1 r); destruct (Z.ltb_spec r (r + 1)); cbn; auto; lia).
          rewrite Eb; f_equal; f_equal.
          unfold transp; now rewrite Z.eqb_refl.
        * rewrite Ey.
          destruct (Z.eq_dec y r) as [->|Hyr].
          -- replace ((1 <=? r) && (r <? r)) with false
               by (destruct (Z.leb_spec 1 r); destruct (Z.ltb_spec r r); cbn; auto; lia).
             replace ((1 <=? r) && (r <? r + 1)) with true
               by (destruct (Z.leb_spec 1 r); destruct (Z.ltb_spec r (r + 1)); cbn; auto; lia).
             f_equal; f_equal; unfold transp.
             destruct (Z.eqb_spec j x); [subst; lia|].
             destruct (Z.eqb_spec j b); [subst; lia|reflexivity].
          -- replace (y <? r + 1) with (y <? r); [reflexivity|].
             destruct (Z.ltb_spec y r); destruct (Z.ltb_spec y (r + 1)); auto; lia. }
  destruct G as [GL GM].
  split; [exact GL|split].
  - intros j Hj.
    pose proof (GM 0 j ltac:(lia) Hj) as E.
    rewrite Z.mul_0_l, Z.add_0_l in E; exact E.
  - intros y j Hy Hj.
    rewrite (GM y j ltac:(lia) Hj).
    destruct (Z.leb_spec 1 y); destruct (Z.ltb_spec y m); cbn [andb]; auto; lia.
Qed.

Lemma column_ones_ext M M' x x' :
  (forall y, 0 <= y < m -> get M (y * k + x) = get M' (y * k + x')) ->
  column_ones T k m M x = column_ones T k m M' x'.
Proof.
  intros H; unfold column_ones.
  apply for_range_ext; intros y s Hy; now rewrite H.
Qed.

Lemma injective_range_perm (f : Z -> Z) :
  (forall j, 0 <= j < k -> 0 <= f j < k) ->
  (forall i j, 0 <= i < k -> 0 <= j < k -> f i = f j -> i = j) ->
  Permutation (map f (zrange 0 k)) (zrange 0 k).
Proof.
  intros Hr Hinj.
  apply NoDup_Permutation_bis.
  - apply Finite.Injective_map_NoDup_in; [|apply NoDup_zrange].
    intros i j Hi Hj; apply in_zrange in Hi, Hj; now apply Hinj.
  - now rewrite length_map.
  - intros v Hv; apply in_map_iff in Hv; destruct Hv as (j & <- & Hj).
    apply in_zrange in Hj; apply in_zrange; now apply Hr.
Qed.

(** The state of the sort after the columns before [x] are placed. *)
Definition sort_inv (M0 : list Z) (x : Z) (s : list Z * list Z) : Prop :=
  let '(counts, M) := s in
  Z.of_nat (length counts) = k
  /\ length M = length M0
  /\ (forall j, 0 <= j < k -> get M j = get M0 j)
  /\ (exists f : Z -> Z,
        (forall j, 0 <= j < k -> 0 <= f j < k)
        /\ (forall i j, 0 <= i < k -> 0 <= j < k -> f i = f j -> i = j)
        /\ (forall y j, 1 <= y < m -> 0 <= j < k ->
              get M (y * k + j) = get M0 (y * k + f j))
        /\ (forall j, 0 <= j < k ->
              get counts j = column_ones T k m M0 (f j)))
  /\ (forall i j, 0 <= i < x -> i <= j < k -> get counts i <= get counts j).

Lemma sort_columns_step_inv M0 x s :
  Z.of_nat (length M0) = k * m ->
  0 <= x < k -> sort_inv M0 x s -> sort_inv M0 (x + 1) (sort_columns_step k m x s).
Proof.
  intros HL0 Hx; destruct s as [counts M]; unfold sort_inv, sort_columns_step.
  intros (Hc & HL & Hrow0 & (f & Hfr & Hfi & HfM & Hfc) & Hsorted).
  pose proof (find_smallest_spec counts x k ltac:(lia)) as Hfs.
  destruct (find_smallest counts x k) as [sm b]; cbn [fst snd] in Hfs.
  destruct Hfs as (Hb & Hsm & Hmin & _).
  assert (Hbk : 0 <= b < k) by lia.
  destruct (swap_columns_spec x b M Hx Hbk ltac:(rewrite HL; exact HL0))
    as (SL & S0 & SM).
  assert (Ecounts : forall j, 0 <= j < k ->
            get (set (set counts b (get counts x)) x sm) j
            = get counts (transp x b j)).
  { intros j Hj.
    rewrite get_set by (rewrite ?length_set; lia).
    rewrite get_set by lia.
    unfold transp.
    destruct (Z.eqb_spec j x) as [->|]; [exact Hsm|].
    destruct (Z.eqb_spec j b) as [->|]; reflexivity. }
  split; [now rewrite !length_set|].
  split; [now rewrite SL|].
  split; [intros j Hj; rewrite S0 by auto; now apply Hrow0|].
  split.
  - exists (fun j => f (transp x b j)).
    split; [intros j Hj; apply Hfr, transp_range; auto|].
    split.
    { intros i j Hi Hj E.
      apply Hfi in E; try (apply transp_range; auto).
      rewrite <- (transp_involutive x b i), E.
      apply transp_involutive. }
    split.
    + intros y j Hy Hj.
      rewrite SM by auto.
      apply HfM; auto; apply transp_range; auto.
    + intros j Hj.
      rewrite Ecounts by auto.
      apply Hfc, transp_range; auto.
  - intros i j Hi Hj.
    rewrite !Ecounts by lia.
    destruct (Z.eq_dec i x) as [->|Hix].
    + replace (transp x b x) with b by (unfold transp; now rewrite Z.eqb_refl).
      rewrite <- Hsm; apply Hmin.
      unfold transp.
      destruct (Z.eqb_spec j x); [lia|]; destruct (Z.eqb_spec j b); lia.
    + replace (transp x b i) with i.
      * apply Hsorted; [lia|].
        unfold transp.
        destruct (Z.eqb_spec j x); [lia|]; destruct (Z.eqb_spec j b); lia.
      * unfold transp.
        destruct (Z.eqb_spec i x); [lia|]; destruct (Z.eqb_spec i b); lia.
Qed.

Lemma SortColumns_inv M0 :
  Z.of_nat (length M0) = k * m ->
  sort_inv M0 k
    (for_range 0 k (sort_columns_step k m)
       (map (column_ones T k m M0) (zrange 0 k), M0)).
Proof.
  intros HL0.
  apply (for_range_inv (sort_inv M0)); [lia| |].
  - unfold sort_inv.
    split; [rewrite length_map, length_zrange; lia|].
    split; [reflexivity|].
    split; [reflexivity|].
    split; [|intros; lia].
    exists (fun j => j).
    split; [auto|]; split; [auto|]; split; [auto|].
    intros j Hj; now rewrite get_map_zrange.
  - intros i s Hi; now apply sort_columns_step_inv.
Qed.
End Sorter.

(** C9: for a matrix of [m >= 1] rows and [k >= 1] columns whose row 0 is
    all ones, after [SortColumns] the per-column weight totals are
    non-decreasing from left to right, the columns restricted to rows
    1..m-1 are a permutation of those of the input, and the cells of row 0
    are unchanged. *)
Theorem SortColumns_sorted_permutation (T : Tables) k m M :
  1 <= k -> 1 <= m -> Z.of_nat (length M) = k * m ->
  (forall x, 0 <= x < k -> get M x = 1) ->
  let M' := SortColumns T k m M in
  (forall x x', 0 <= x <= x' /\ x' < k ->
     column_ones T k m M' x <= column_ones T k m M' x')
  /\ Permutation (columns k m M') (columns k m M)
  /\ (forall x, 0 <= x < k -> get M' x = get M x).
Proof.
  intros Hk Hm HL Hrow M'; subst M'; unfold SortColumns.
  pose proof (SortColumns_inv T k m Hk Hm M HL) as I.
  destruct (for_range 0 k (sort_columns_step k m)
              (map (column_ones T k m M) (zrange 0 k), M)) as [counts M'].
  cbn [snd]; unfold sort_inv in I.
  destruct I as (Hc & HL' & Hrow0 & (f & Hfr & Hfi & HfM & Hfc) & Hsorted).
  assert (Ecol : forall j, 0 <= j < k ->
            column_ones T k m M' j = get counts j).
  { intros j Hj; rewrite Hfc by auto.
    apply column_ones_ext; intros y Hy.
    destruct (Z.eq_dec y 0) as [->|].
    - rewrite !Z.mul_0_l, !Z.add_0_l, Hrow0, !Hrow; auto.
    - apply HfM; auto; lia. }
  split; [|split].
  - intros x x' Hx; rewrite !Ecol by lia.
    apply Hsorted; lia.
  - unfold columns.
    replace (map (column_cells k m M') (zrange 0 k))
      with (map (column_cells k m M) (map f (zrange 0 k))).
    + apply Permutation_map, injective_range_perm; auto.
    + rewrite map_map; apply map_ext_in; intros j Hj; apply in_zrange in Hj.
      unfold column_cells; apply map_ext_in; intros y Hy; apply in_zrange in Hy.
      symmetry; apply HfM; auto.
  - exact Hrow0.
Qed.

Lemma SortColumns_sorted_permutation_witness :
  let T := InitTables FAVORITE_POLY in
  let M := [1; 1; 1; 1; 7; 3; 1; 2] in
  let M' := SortColumns T 4 2 M in
  (forall x x', 0 <= x <= x' /\ x' < 4 ->
     column_ones T 4 2 M' x <= column_ones T 4 2 M' x')
  /\ Permutation (columns 4 2 M') (columns 4 2 M)
  /\ (forall x, 0 <= x < 4 -> get M' x = get M x).
Proof.
  intros T M.
  apply (SortColumns_sorted_permutation T 4 2 M); try lia; try reflexivity.
  intros x Hx.
  assert (E : x = 0 \/ x = 1 \/ x = 2 \/ x = 3) by lia.
  destruct E as [-> | [-> | [-> | ->]]]; reflexivity.
Defined.

(** ** CauchyMatrixBuilder *)

Section Builder.
Variable T : Tables.
Variables k m : Z.
Variables X Y : list Z.
Hypothesis Hk : 0 <= k.

(** The raw cell of row [y], column [x], and the index it reads from the
    inverse table. *)
Definition raw_index (y x : Z) : Z := Z.lxor (get X x) (get Y y).

Definition raw_cell (y x : Z) : Z :=
  mul T (get (GF256_INV_TABLE T) (raw_index y x)) (Z.lxor (get Y 0) (get X x)).

Lemma cauchy_row0_spec M :
  k <= Z.of_nat (length M) ->
  let M' := cauchy_row0 k M in
  length M' = length M
  /\ (forall j, 0 <= j < k -> get M' j = 1)
  /\ (forall j, k <= j -> get M' j = get M j).
Proof.
  intros HL M'; subst M'; unfold cauchy_row0.
  apply (for_range_inv
           (fun x M1 =>
              length M1 = length M
              /\ (forall j, 0 <= j < x -> get M1 j = 1)
              /\ (forall j, x <= j -> get M1 j = get M j))); [lia| |].
  - repeat split; auto; intros; lia.
  - intros x M1 Hx (HL1 & H1 & H2).
    split; [now rewrite length_set|].
    split; intros j Hj; rewrite get_set by lia.
    + destruct (Z.eqb_spec j x); auto; apply H1; lia.
    + destruct (Z.eqb_spec j x); [lia|]; apply H2; lia.
Qed.

Lemma cauchy_raw_row_spec y M dv :
  0 <= y -> (y + 1) * k <= Z.of_nat (length M) ->
  let r := cauchy_raw_row T k X Y y (M, dv) in
  length (fst r) = length M
  /\ (forall x, 0 <= x < k -> get (fst r) (y * k + x) = raw_cell y x)
  /\ (forall j, 0 <= j -> ~ (y * k <= j < y * k + k) -> get (fst r) j = get M j)
  /\ (forall P : Z -> Prop,
        Forall P dv -> (forall x, 0 <= x < k -> P (raw_index y x)) ->
        Forall P (snd r)).
Proof.
  intros Hy HL r; subst r; unfold cauchy_raw_row.
  apply (for_range_inv
           (fun x (s : list Z * list Z) =>
              length (fst s) = length M
              /\ (forall x', 0 <= x' < x -> get (fst s) (y * k + x') = raw_cell y x')
              /\ (forall j, 0 <= j -> ~ (y * k <= j < y * k + x) ->
                    get (fst s) j = get M j)
              /\ (forall P : Z -> Prop,
                    Forall P dv -> (forall x, 0 <= x < k -> P (raw_index y x)) ->
                    Forall P (snd s)))); [lia| |].
  - cbn [fst snd]; repeat split; auto; intros; lia.
  - intros x [M1 dv1] Hx (HL1 & H1 & H2 & H3); cbn [fst snd] in *.
    assert (Hin : 0 <= y * k + x < Z.of_nat (length M1)) by (rewrite HL1; nia).
    split; [now rewrite length_set|].
    split; [|split].
    + intros x' Hx'; rewrite get_set by (auto; nia).
      destruct (Z.eqb_spec (y * k + x') (y * k + x)) as [E|NE].
      * replace x' with x by lia; reflexivity.
      * apply H1; lia.
    + intros j Hj Hout; rewrite get_set by auto.
      destruct (Z.eqb_spec j (y * k + x)); [lia|].
      apply H2; auto; lia.
    + intros P HP Hall; constructor; [apply Hall; lia|now apply H3].
Qed.

Lemma cauchy_raw_spec M :
  1 <= m -> Z.of_nat (length M) = k * m ->
  let r := cauchy_raw T k m M X Y in
  length (fst r) = length M
  /\ (forall x, 0 <= x < k -> get (fst r) x = 1)
  /\ (forall y x, 1 <= y < m -> 0 <= x < k -> get (fst r) (y * k + x) = raw_cell y x)
  /\ (forall P : Z -> Prop,
        (forall y x, 1 <= y < m -> 0 <= x < k -> P (raw_index y x)) ->
        Forall P (snd r)).
Proof.
  intros Hm HL r; subst r; unfold cauchy_raw.
  destruct (cauchy_row0_spec M ltac:(nia)) as (L0 & R0 & _).
  apply (for_range_inv
           (fun y (s : list Z * list Z) =>
              length (fst s) = length M
              /\ (forall x, 0 <= x < k -> get (fst s) x = 1)
              /\ (forall y' x, 1 <= y' < y -> 0 <= x < k ->
                    get (fst s) (y' * k + x) = raw_cell y' x)
              /\ (forall P : Z -> Prop,
                    (forall y x, 1 <= y < m -> 0 <= x < k -> P (raw_index y x)) ->
                    Forall P (snd s)))); [lia| |].
  - cbn [fst snd]; repeat split; auto; intros; lia.
  - intros y [M1 dv1] Hy (HL1 & H0 & H1 & H2); cbn [fst snd] in *.
    destruct (cauchy_raw_row_spec y M1 dv1 ltac:(lia) ltac:(rewrite HL1; nia))
      as (L' & C' & F' & D').
    split; [congruence|].
    split; [|split].
    + intros x Hx; rewrite F' by nia; auto.
    + intros y' x Hy' Hx.
      destruct (Z.eq_dec y' y) as [->|Hne]; [now apply C'|].
      rewrite F' by nia; apply H1; lia.
    + intros P HP; apply D'; [now apply H2|].
      intros x Hx; apply HP; lia.
Qed.
End Builder.

(** *** Pivoting one row *)

Section Pivot.
Variable T : Tables.
Variable k : Z.
Hypothesis Hk : 0 <= k.
Hypothesis ONES_byte : forall c, 0 <= get (CAUCHY_ONES T) c <= 255.

(** The cells at offsets [base .. base+k-1], and their weight after
    division by [XC]. *)
Definition cells_at (M : list Z) (base : Z) : list Z :=
  map (fun z => get M (base + z)) (zrange 0 k).

Definition scaled (XC : Z) (r : list Z) : list Z :=
  map (fun c => div T c XC) r.

Lemma row_weight_snoc r c :
  row_weight T (r ++ [c]) = row_weight T r + get (CAUCHY_ONES T) c.
Proof.
  induction r as [|h t IH]; cbn [row_weight app fold_right] in *; [lia|].
  unfold row_weight in IH; rewrite IH; lia.
Qed.

Lemma row_weight_bounds r :
  0 <= row_weight T r <= 255 * Z.of_nat (length r).
Proof.
  induction r as [|h t IH]; cbn [row_weight length fold_right]; [lia|].
  unfold row_weight in IH.
  pose proof (ONES_byte h); lia.
Qed.

Lemma length_cells_at M base : Z.of_nat (length (cells_at M base)) = k.
Proof.
  unfold cells_at; rewrite length_map, length_zrange; lia.
Qed.

Lemma cells_at_ext M M' base :
  (forall z, 0 <= z < k -> get M (base + z) = get M' (base + z)) ->
  cells_at M base = cells_at M' base.
Proof.
  intros H; unfold cells_at; apply map_ext_in.
  intros z Hz; apply in_zrange in Hz; now apply H.
Qed.

Lemma pivot_count_spec base XC M dv :
  let r := pivot_count T k base XC M dv in
  fst r = row_weight T (scaled XC (cells_at M base))
  /\ (forall P : Z -> Prop, Forall P dv -> P XC -> Forall P (snd r)).
Proof.
  intros r; subst r; unfold pivot_count, scaled, cells_at.
  apply (for_range_inv
           (fun z (s : Z * list Z) =>
              fst s = row_weight T
                        (map (fun c => div T c XC)
                             (map (fun z => get M (base + z)) (zrange 0 z)))
              /\ (forall P : Z -> Prop, Forall P dv -> P XC -> Forall P (snd s))));
    [lia| |].
  - cbn [fst snd]; split; auto.
  - intros z [count dv1] Hz [Hc Hd]; cbn [fst snd] in *.
    split.
    + rewrite zrange_snoc, !map_app by lia.
      cbn [map]; rewrite row_weight_snoc, <- Hc; reflexivity.
    + intros P HP HXC; constructor; auto.
Qed.

(** Weight of the row at [base] if divided by its cell [x]. *)
Definition pivot_weight (M : list Z) (base x : Z) : Z :=
  row_weight T (scaled (get M (base + x)) (cells_at M base)).

Lemma pivot_weight_bound M base x : 0 <= pivot_weight M base x <= 255 * k.
Proof.
  unfold pivot_weight, scaled.
  pose proof (row_weight_bounds
                (map (fun c => div T c (get M (base + x))) (cells_at M base))) as B.
  rewrite length_map, length_cells_at in B; exact B.
Qed.

Lemma pivot_select_spec base M dv :
  1 <= k -> 255 * k < INT_MAX ->
  let r := pivot_select T k base M dv in
  0 <= snd (fst r) < k
  /\ (forall x, 0 <= x < k ->
        pivot_weight M base (snd (fst r)) <= pivot_weight M base x)
  /\ (forall P : Z -> Prop,
        Forall P dv -> (forall x, 0 <= x < k -> P (get M (base + x))) ->
        Forall P (snd r)).
Proof.
  intros Hk1 Hmax r; subst r; unfold pivot_select.
  assert (G :
    let r := for_range 0 k
      (fun x '(best, best_x, dv0) =>
         let XC := get M (base + x) in
         let '(count, dv1) := pivot_count T k base XC M dv0 in
         if count <? best then (count, x, dv1) else (best, best_x, dv1))
      (INT_MAX, 0, dv) in
    ((k = 0 /\ fst (fst r) = INT_MAX /\ snd (fst r) = 0)
     \/ (0 <= snd (fst r) < k
         /\ fst (fst r) = pivot_weight M base (snd (fst r))
         /\ forall x, 0 <= x < k -> fst (fst r) <= pivot_weight M base x))
    /\ (forall P : Z -> Prop,
          Forall P dv -> (forall x, 0 <= x < k -> P (get M (base + x))) ->
          Forall P (snd r))).
  { apply (for_range_inv
             (fun x (s : Z * Z * list Z) =>
                ((x = 0 /\ fst (fst s) = INT_MAX /\ snd (fst s) = 0)
                 \/ (0 <= snd (fst s) < x
                     /\ fst (fst s) = pivot_weight M base (snd (fst s))
                     /\ forall x', 0 <= x' < x ->
                          fst (fst s) <= pivot_weight M base x'))
                /\ (forall P : Z -> Prop,
                      Forall P dv ->
                      (forall x, 0 <= x < k -> P (get M (base + x))) ->
                      Forall P (snd s)))); [lia| |].
    - cbn [fst snd]; split; auto.
    - intros x [[best best_x] dv0] Hx [Hb Hd]; cbn [fst snd] in *.
      destruct (pivot_count_spec base (get M (base + x)) M dv0) as [Ec Ed].
      destruct (pivot_count T k base (get M (base + x)) M dv0) as [count dv1].
      cbn [fst snd] in *.
      fold (pivot_weight M base x) in Ec.
      pose proof (pivot_weight_bound M base x) as Bx.
      assert (Hd' : forall P : Z -> Prop,
                Forall P dv -> (forall x, 0 <= x < k -> P (get M (base + x))) ->
                Forall P dv1).
      { intros P HP Hall; apply Ed; [now apply Hd|apply Hall; lia]. }
      destruct (Z.ltb_spec count best) as [Hlt|Hge]; cbn [fst snd].
      + split; [right|exact Hd'].
        split; [lia|]; split; [exact Ec|].
        intros x' Hx'.
        destruct (Z.eq_dec x' x) as [->|]; [lia|].
        destruct Hb as [(-> & _ & _)|(_ & _ & Hmin)]; [lia|].
        specialize (Hmin x' ltac:(lia)); lia.
      + split; [right|exact Hd'].
        destruct Hb as [(-> & -> & _)|(Hr & Hbest & Hmin)]; [lia|].
        split; [lia|]; split; [exact Hbest|].
        intros x' Hx'.
        destruct (Z.eq_dec x' x) as [->|]; [lia|].
        apply Hmin; lia. }
  cbv zeta in G; destruct G as [[(-> & _)|(Hr & Hbest & Hmin)] Hd]; [lia|].
  split; [exact Hr|]; split; [|exact Hd].
  intros x Hx; rewrite <- Hbest; now apply Hmin.
Qed.

Lemma pivot_rewrite_spec base XC M ones dv :
  0 <= base -> base + k <= Z.of_nat (length M) ->
  let r := pivot_rewrite T k base XC (M, ones, dv) in
  length (fst (fst r)) = length M
  /\ (forall z, 0 <= z < k ->
        get (fst (fst r)) (base + z) = div T (get M (base + z)) XC)
  /\ (forall j, 0 <= j -> ~ (base <= j < base + k) ->
        get (fst (fst r)) j = get M j)
  /\ snd (fst r) = ones + row_weight T (scaled XC (cells_at M base))
  /\ (forall P : Z -> Prop, Forall P dv -> P XC -> Forall P (snd r)).
Proof.
  intros Hb HL r; subst r; unfold pivot_rewrite, scaled, cells_at.
  apply (for_range_inv
           (fun z (s : list Z * Z * list Z) =>
              length (fst (fst s)) = length M
              /\ (forall z', 0 <= z' < z ->
                    get (fst (fst s)) (base + z') = div T (get M (base + z')) XC)
              /\ (forall j, 0 <= j -> ~ (base <= j < base + z) ->
                    get (fst (fst s)) j = get M j)
              /\ snd (fst s)
                 = ones + row_weight T
                            (map (fun c => div T c XC)
                                 (map (fun z => get M (base + z)) (zrange 0 z)))
              /\ (forall P : Z -> Prop, Forall P dv -> P XC -> Forall P (snd s))));
    [lia| |].
  - cbn [fst snd]; repeat split; auto; try (intros; lia).
    rewrite zrange_empty by lia; cbn [map row_weight fold_right]; lia.
  - intros z [[M1 ones1] dv1] Hz (HL1 & H1 & H2 & H3 & H4); cbn [fst snd] in *.
    assert (Hin : 0 <= base + z < Z.of_nat (length M1)) by lia.
    assert (Ez : get M1 (base + z) = get M (base + z)) by (apply H2; lia).
    split; [now rewrite length_set|].
    split; [|split; [|split]].
    + intros z' Hz'; rewrite get_set by (auto; lia).
      destruct (Z.eqb_spec (base + z') (base + z)) as [E|NE].
      * replace z' with z by lia; now rewrite Ez.
      * apply H1; lia.
    + intros j Hj Hout; rewrite get_set by auto.
      destruct (Z.eqb_spec j (base + z)); [lia|].
      apply H2; auto; lia.
    + rewrite zrange_snoc, !map_app by lia.
      cbn [map]; rewrite row_weight_snoc, H3, Ez; lia.
    + intros P HP HXC; constructor; auto.
Qed.
End Pivot.

Lemma lxor_byte a b : is_byte a -> is_byte b -> is_byte (Z.lxor a b).
Proof.
  unfold is_byte; intros Ha Hb.
  assert (H0 : 0 <= Z.lxor a b) by (apply Z.lxor_nonneg; lia).
  split; [exact H0|].
  destruct (Z.eq_dec (Z.lxor a b) 0) as [->|Hnz]; [lia|].
  change 256 with (2 ^ 8); apply Z.log2_lt_pow2; [lia|].
  pose proof (Z.log2_lxor a b ltac:(lia) ltac:(lia)) as L.
  assert (La : Z.log2 a < 8).
  { destruct (Z.eq_dec a 0) as [->|]; [cbn; lia|].
    apply Z.log2_lt_pow2; [lia|change (2 ^ 8) with 256; lia]. }
  assert (Lb : Z.log2 b < 8).
  { destruct (Z.eq_dec b 0) as [->|]; [cbn; lia|].
    apply Z.log2_lt_pow2; [lia|change (2 ^ 8) with 256; lia]. }
  lia.
Qed.

Lemma lxor_distinct_bytes a b :
  is_byte a -> is_byte b -> a <> b -> 1 <= Z.lxor a b <= 255.
Proof.
  intros Ha Hb Hne.
  pose proof (lxor_byte a b Ha Hb) as [H0 H1].
  assert (Z.lxor a b <> 0) by (intros E; apply Z.lxor_eq in E; auto).
  lia.
Qed.

(** *** The pivoting loop over the rows *)

Section PivotRows.
Variable T : Tables.
Variables k m : Z.
Hypothesis Hk : 1 <= k.
Hypothesis Hkmax : 255 * k < INT_MAX.
Hypothesis Hm : 1 <= m.
Hypothesis ONES_byte : forall c, 0 <= get (CAUCHY_ONES T) c <= 255.

(** [R] is the raw matrix the loop starts from. *)
Variable R : list Z.
Hypothesis HR : Z.of_nat (length R) = k * m.

Definition pivoted_inv (ones0 : Z) (dv0 : list Z) (y : Z)
    (s : list Z * Z * list Z) : Prop :=
  let '(M, ones, dv) := s in
  length M = length R
  /\ (forall x, 0 <= x < k -> get M x = get R x)
  /\ (forall y' x, y <= y' < m -> 0 <= x < k ->
        get M (y' * k + x) = get R (y' * k + x))
  /\ (forall y', 1 <= y' < y ->
        exists bx, 0 <= bx < k
          /\ (forall x, 0 <= x < k ->
                pivot_weight T k R (y' * k) bx <= pivot_weight T k R (y' * k) x)
          /\ (forall z, 0 <= z < k ->
                get M (y' * k + z)
                = div T (get R (y' * k + z)) (get R (y' * k + bx))))
  /\ (forall P : Z -> Prop,
        Forall P dv0 ->
        (forall y' x, 1 <= y' < m -> 0 <= x < k -> P (get R (y' * k + x))) ->
        Forall P dv).

Lemma cauchy_pivot_row_inv ones0 dv0 y s :
  1 <= y < m ->
  pivoted_inv ones0 dv0 y s ->
  pivoted_inv ones0 dv0 (y + 1) (cauchy_pivot_row T k y s).
Proof.
  intros Hy; destruct s as [[M ones] dv]; unfold pivoted_inv, cauchy_pivot_row.
  intros (HL & H0 & Hraw & Hdone & Hlog).
  assert (Ecell : forall x, 0 <= x < k -> get M (y * k + x) = get R (y * k + x))
    by (intros; apply Hraw; lia).
  assert (Ecells : cells_at k M (y * k) = cells_at k R (y * k))
    by (apply cells_at_ext; auto).
  assert (Ew : forall x, 0 <= x < k ->
            pivot_weight T k M (y * k) x = pivot_weight T k R (y * k) x).
  { intros x Hx; unfold pivot_weight; now rewrite Ecells, Ecell. }
  destruct (pivot_select_spec T k ltac:(lia) ONES_byte (y * k) M dv Hk Hkmax)
    as (Hbx & Hmin & Hd).
  destruct (pivot_select T k (y * k) M dv) as [[best best_x] dv1].
  cbn [fst snd] in *.
  destruct (pivot_rewrite_spec T k ltac:(lia) (y * k)
              (get M (y * k + best_x)) M ones dv1
              ltac:(nia) ltac:(rewrite HL; nia))
    as (L' & C' & F' & _ & D').
  destruct (pivot_rewrite T k (y * k) (get M (y * k + best_x)) (M, ones, dv1))
    as [[M' ones'] dv'].
  cbn [fst snd] in *.
  split; [congruence|].
  split; [intros x Hx; rewrite F' by nia; auto|].
  split; [intros y' x Hy' Hx; rewrite F' by nia; apply Hraw; lia|].
  split.
  - intros y' Hy'.
    destruct (Z.eq_dec y' y) as [->|Hne].
    + exists best_x; split; [exact Hbx|]; split.
      * intros x Hx; rewrite <- !Ew by auto; now apply Hmin.
      * intros z Hz; rewrite C', !Ecell by auto; reflexivity.
    + destruct (Hdone y' ltac:(lia)) as (bx & Hb & Hw & Hc).
      exists bx; split; [exact Hb|]; split; [exact Hw|].
      intros z Hz; rewrite F' by nia; now apply Hc.
  - intros P HP Hall.
    apply D'.
    + apply Hd; [now apply Hlog|].
      intros x Hx; rewrite Ecell by auto; apply Hall; lia.
    + rewrite Ecell by auto; apply Hall; lia.
Qed.

Lemma pivot_rows_inv ones0 dv0 :
  pivoted_inv ones0 dv0 m (for_range 1 m (cauchy_pivot_row T k) (R, ones0, dv0)).
Proof.
  apply (for_range_inv (pivoted_inv ones0 dv0)); [lia| |].
  - unfold pivoted_inv; repeat split; auto; intros; lia.
  - intros y s Hy; now apply cauchy_pivot_row_inv.
Qed.
End PivotRows.

(** *** Facts about the tables of a catalogue polynomial *)

Lemma for_range_preserve {St} (P : St -> Prop) lo hi (body : Z -> St -> St) s :
  P s ->
  (forall i s, lo <= i < hi -> P s -> P (body i s)) ->
  P (for_range lo hi body s).
Proof.
  intros H0 Hstep.
  destruct (Z.le_gt_cases lo hi) as [Hle|Hgt].
  - apply (for_range_inv (fun _ => P)); auto.
  - now rewrite for_range_empty by lia.
Qed.

Lemma CAUCHY_ONES_byte ii c : 0 <= get (CAUCHY_ONES (InitTables ii)) c <= 255.
Proof.
  rewrite InitTables_ONES; unfold GenerateCauchyOnes, get.
  set (f := fun x => u8 (cauchy_ones (GF256_MUL_TABLE (InitTables ii)) x)).
  destruct (Nat.lt_ge_cases (Z.to_nat c) (length (zrange 0 256))) as [Hlt|Hge].
  - rewrite (nth_indep _ 0 (f 0)) by now rewrite length_map.
    rewrite map_nth; unfold f, u8.
    pose proof (Z.mod_pos_bound
                  (cauchy_ones (GF256_MUL_TABLE (InitTables ii))
                     (nth (Z.to_nat c) (zrange 0 256) 0)) 256 ltac:(lia)).
    lia.
  - rewrite nth_overflow by now rewrite length_map.
    lia.
Qed.

Section CatalogueTables.
Variable ii : Z.
Hypothesis Hii : 0 <= ii < 16.
Let T := InitTables ii.

Lemma div_one_r c : is_byte c -> div T c 1 = c.
Proof.
  unfold is_byte; intros Hc.
  destruct (Z.eq_dec c 0) as [->|Hnz].
  { apply div_zero_l; auto; unfold is_byte; lia. }
  destruct (div_nonzero_eq ii Hii c 1 ltac:(lia) ltac:(lia)) as [E _].
  pose proof (explog_facts_catalogue ii Hii) as F.
  unfold T; rewrite E, (ef_log_1 _ _ F).
  replace (get (fst (explog ii)) c + (255 - 255)) with (get (fst (explog ii)) c)
    by lia.
  apply (ef_log _ _ F c); lia.
Qed.

Lemma inv_nonzero v :
  1 <= v <= 255 -> 1 <= get (GF256_INV_TABLE T) v <= 255.
Proof.
  intros Hv; unfold T.
  rewrite InitTables_INV; unfold InitInvTable.
  rewrite get_map_zrange by lia.
  apply div_nonzero; auto; lia.
Qed.

Variables X Y : list Z.
Variables k m : Z.
Hypothesis HX : forall x, 0 <= x < k -> is_byte (get X x).
Hypothesis HY : forall y, 0 <= y < m -> is_byte (get Y y).
Hypothesis Hm : 1 <= m.

Lemma raw_cell_byte y x :
  1 <= y < m -> 0 <= x < k -> is_byte (raw_cell T X Y y x).
Proof.
  intros Hy Hx; unfold raw_cell, raw_index.
  pose proof (HX x Hx) as Bx.
  pose proof (HY y ltac:(lia)) as By.
  pose proof (HY 0 ltac:(lia)) as B0.
  apply mul_byte; auto; [|now apply lxor_byte].
  destruct (Z.eq_dec (get X x) (get Y y)) as [E|NE].
  - rewrite E, Z.lxor_nilpotent.
    unfold T; rewrite InitTables_INV; unfold InitInvTable.
    rewrite get_map_zrange by lia.
    fold (div (InitTables ii) 1 0).
    rewrite div_entry_eq by (unfold is_byte; lia).
    unfold div_entry, is_byte; rewrite orb_true_r; lia.
  - pose proof (inv_nonzero _ (lxor_distinct_bytes _ _ Bx By NE)).
    unfold is_byte; lia.
Qed.

Hypothesis Hdisjoint :
  forall x y, 0 <= x < k -> 0 <= y < m -> get X x <> get Y y.

Lemma raw_index_nonzero y x :
  1 <= y < m -> 0 <= x < k -> 1 <= raw_index X Y y x <= 255.
Proof.
  intros Hy Hx; unfold raw_index.
  apply lxor_distinct_bytes; auto; [apply HY; lia|apply Hdisjoint; lia].
Qed.

Lemma raw_cell_nonzero y x :
  1 <= y < m -> 0 <= x < k -> 1 <= raw_cell T X Y y x <= 255.
Proof.
  intros Hy Hx; unfold raw_cell.
  apply mul_nonzero; auto.
  - apply inv_nonzero; now apply raw_index_nonzero.
  - apply lxor_distinct_bytes; auto; [apply HY; lia|].
    intros E; apply (Hdisjoint x 0); auto; lia.
Qed.
End CatalogueTables.

(** *** The matrix [GenerateCauchyMatrix] returns *)

Lemma matrix_row_cells k M y : matrix_row k M y = cells_at k M (y * k).
Proof. reflexivity. Qed.

Lemma GenerateCauchyMatrix_pivoted T k m M X Y :
  1 <= k -> 255 * k < INT_MAX -> 1 <= m ->
  (forall c, 0 <= get (CAUCHY_ONES T) c <= 255) ->
  Z.of_nat (length M) = k * m ->
  pivoted_inv T k m (fst (cauchy_raw T k m M X Y))
    (get (CAUCHY_ONES T) 1 * k) (snd (cauchy_raw T k m M X Y)) m
    (GenerateCauchyMatrix T k m M X Y).
Proof.
  intros Hk Hkmax Hm Hones HL; unfold GenerateCauchyMatrix.
  destruct (cauchy_raw_spec T k m X Y ltac:(lia) M Hm HL) as (RL & _).
  destruct (cauchy_raw T k m M X Y) as [R dv]; cbn [fst snd] in *.
  apply pivot_rows_inv; auto; congruence.
Qed.

(** C4, as the code has it: row [y >= 1] of the returned matrix is the raw
    row divided by one of its own cells, chosen so that the resulting
    bit-weight is the least among the divisions by a cell of that row.  It
    is therefore at most the weight of the raw row divided by any of its
    cells, and at most the weight of the raw row itself whenever the raw
    row holds a cell equal to 1. *)
Theorem pivoted_row_weight_minimal ii k m M X Y y :
  0 <= ii < 16 -> 1 <= k <= 256 -> 1 <= m ->
  Z.of_nat (length M) = k * m ->
  (forall x, 0 <= x < k -> is_byte (get X x)) ->
  (forall y, 0 <= y < m -> is_byte (get Y y)) ->
  1 <= y < m ->
  let T := InitTables ii in
  let raw := fst (cauchy_raw T k m M X Y) in
  let out := fst (fst (GenerateCauchyMatrix T k m M X Y)) in
  (exists bx, 0 <= bx < k
     /\ matrix_row k out y = scaled T (get raw (y * k + bx)) (matrix_row k raw y))
  /\ (forall x, 0 <= x < k ->
        row_weight T (matrix_row k out y)
        <= row_weight T (scaled T (get raw (y * k + x)) (matrix_row k raw y)))
  /\ ((exists x, 0 <= x < k /\ get raw (y * k + x) = 1) ->
        row_weight T (matrix_row k out y) <= row_weight T (matrix_row k raw y)).
Proof.
  intros Hii Hk Hm HL HX HY Hy T raw out.
  assert (Hkmax : 255 * k < INT_MAX) by (unfold INT_MAX; lia).
  pose proof (GenerateCauchyMatrix_pivoted T k m M X Y ltac:(lia) Hkmax Hm
                (CAUCHY_ONES_byte ii) HL) as I.
  destruct (cauchy_raw_spec T k m X Y ltac:(lia) M Hm HL) as (RL & _ & Rcell & _).
  fold raw in I, RL, Rcell.
  subst out.
  destruct (GenerateCauchyMatrix T k m M X Y) as [[out ones] dv].
  cbn [fst snd]; unfold pivoted_inv in I.
  destruct I as (_ & _ & _ & Hdone & _).
  destruct (Hdone y Hy) as (bx & Hbx & Hw & Hc).
  assert (Erow : matrix_row k out y
                 = scaled T (get raw (y * k + bx)) (matrix_row k raw y)).
  { unfold scaled, matrix_row; rewrite map_map.
    apply map_ext_in; intros z Hz; apply in_zrange in Hz; now apply Hc. }
  assert (Hmin : forall x, 0 <= x < k ->
            row_weight T (matrix_row k out y)
            <= row_weight T (scaled T (get raw (y * k + x)) (matrix_row k raw y))).
  { intros x Hx; rewrite Erow; apply (Hw x Hx). }
  split; [exists bx; auto|]; split; [exact Hmin|].
  intros (x & Hx & E1).
  specialize (Hmin x Hx); rewrite E1 in Hmin.
  replace (scaled T 1 (matrix_row k raw y)) with (matrix_row k raw y) in Hmin;
    [exact Hmin|].
  unfold scaled, matrix_row; rewrite map_map.
  apply map_ext_in; intros z Hz; apply in_zrange in Hz.
  rewrite Rcell by auto.
  symmetry; apply div_one_r; auto.
  apply raw_cell_byte with (k := k) (m := m); auto.
Qed.

Lemma pivoted_row_weight_minimal_witness :
  let T := InitTables FAVORITE_POLY in
  let M := [0; 0; 0; 0] in
  let X := [5; 232] in
  let Y := [0; 1] in
  let raw := fst (cauchy_raw T 2 2 M X Y) in
  let out := fst (fst (GenerateCauchyMatrix T 2 2 M X Y)) in
  (exists bx, 0 <= bx < 2
     /\ matrix_row 2 out 1 = scaled T (get raw (1 * 2 + bx)) (matrix_row 2 raw 1))
  /\ (forall x, 0 <= x < 2 ->
        row_weight T (matrix_row 2 out 1)
        <= row_weight T (scaled T (get raw (1 * 2 + x)) (matrix_row 2 raw 1)))
  /\ ((exists x, 0 <= x < 2 /\ get raw (1 * 2 + x) = 1) ->
        row_weight T (matrix_row 2 out 1) <= row_weight T (matrix_row 2 raw 1)).
Proof.
  intros T M X Y; subst M X Y.
  apply (pivoted_row_weight_minimal FAVORITE_POLY 2 2 [0; 0; 0; 0] [5; 232] [0; 1] 1);
    unfold FAVORITE_POLY; try lia; try reflexivity.
  - intros x Hx.
    assert (E : x = 0 \/ x = 1) by lia.
    destruct E as [-> | ->]; unfold is_byte; eval_get; lia.
  - intros y Hy.
    assert (E : y = 0 \/ y = 1) by lia.
    destruct E as [-> | ->]; unfold is_byte; eval_get; lia.
Defined.

(** C4, refuted as stated: with the default polynomial, X = (5, 232) and
    Y = (0, 1), the raw row 1 is (163, 36) of weight 43, and the row the
    selected pivot rewrites is (1, 173) of weight 51. *)
Lemma pivoted_row_heavier_than_raw :
  let T := InitTables FAVORITE_POLY in
  let M := [0; 0; 0; 0] in
  let X := [5; 232] in
  let Y := [0; 1] in
  let raw := fst (cauchy_raw T 2 2 M X Y) in
  let out := fst (fst (GenerateCauchyMatrix T 2 2 M X Y)) in
  NoDup (X ++ Y)
  /\ matrix_row 2 raw 1 = [163; 36]
  /\ matrix_row 2 out 1 = [1; 173]
  /\ row_weight T (matrix_row 2 raw 1) = 43
  /\ row_weight T (matrix_row 2 out 1) = 51
  /\ ~ (row_weight T (matrix_row 2 out 1) <= row_weight T (matrix_row 2 raw 1)).
Proof.
  cbv zeta.
  assert (E : (matrix_row 2 (fst (cauchy_raw (InitTables FAVORITE_POLY) 2 2
                                    [0; 0; 0; 0] [5; 232] [0; 1])) 1,
               matrix_row 2 (fst (fst (GenerateCauchyMatrix (InitTables FAVORITE_POLY)
                                    2 2 [0; 0; 0; 0] [5; 232] [0; 1]))) 1,
               row_weight (InitTables FAVORITE_POLY) [163; 36],
               row_weight (InitTables FAVORITE_POLY) [1; 173])
              = ([163; 36], [1; 173], 43, 51)) by (vm_compute; reflexivity).
  pose proof (f_equal (fun q => fst (fst (fst q))) E) as E1.
  pose proof (f_equal (fun q => snd (fst (fst q))) E) as E2.
  pose proof (f_equal (fun q => snd (fst q)) E) as E3.
  pose proof (f_equal snd E) as E4.
  cbn [fst snd] in E1, E2, E3, E4; clear E.
  rewrite E1, E2, E3, E4.
  split; [|repeat split; lia].
  repeat constructor; cbn; intuition lia.
Qed.

(** C6: with the tables of a catalogue polynomial, [k, m >= 1], byte
    vectors X and Y that share no value, every index read from
    [GF256_INV_TABLE] while the cells are built is a nonzero
    [X[x] ^ Y[y]], and every divisor passed to [GF256Divide] while the rows
    are pivoted is nonzero: division by zero is never reached. *)
Theorem GenerateCauchyMatrix_divisors_nonzero ii k m M X Y :
  0 <= ii < 16 -> 1 <= k <= 256 -> 1 <= m ->
  Z.of_nat (length M) = k * m ->
  (forall x, 0 <= x < k -> is_byte (get X x)) ->
  (forall y, 0 <= y < m -> is_byte (get Y y)) ->
  (forall x y, 0 <= x < k -> 0 <= y < m -> get X x <> get Y y) ->
  let T := InitTables ii in
  (forall y x, 1 <= y < m -> 0 <= x < k -> Z.lxor (get X x) (get Y y) <> 0)
  /\ (forall y x, 1 <= y < m -> 0 <= x < k ->
        get (fst (cauchy_raw T k m M X Y)) (y * k + x) <> 0)
  /\ Forall (fun d => d <> 0) (snd (GenerateCauchyMatrix T k m M X Y)).
Proof.
  intros Hii Hk Hm HL HX HY Hdis T.
  assert (Hkmax : 255 * k < INT_MAX) by (unfold INT_MAX; lia).
  pose proof (GenerateCauchyMatrix_pivoted T k m M X Y ltac:(lia) Hkmax Hm
                (CAUCHY_ONES_byte ii) HL) as I.
  destruct (cauchy_raw_spec T k m X Y ltac:(lia) M Hm HL)
    as (RL & _ & Rcell & Rlog).
  assert (Hidx : forall y x, 1 <= y < m -> 0 <= x < k ->
            raw_index X Y y x <> 0).
  { intros y x Hy Hx.
    assert (1 <= raw_index X Y y x <= 255)
      by (eapply raw_index_nonzero; eauto).
    lia. }
  assert (Hcell : forall y x, 1 <= y < m -> 0 <= x < k ->
            get (fst (cauchy_raw T k m M X Y)) (y * k + x) <> 0).
  { intros y x Hy Hx; rewrite Rcell by auto.
    assert (1 <= raw_cell (InitTables ii) X Y y x <= 255)
      by (eapply raw_cell_nonzero; eauto).
    fold T in H; lia. }
  split; [exact Hidx|]; split; [exact Hcell|].
  destruct (GenerateCauchyMatrix T k m M X Y) as [[out ones] dv].
  cbn [fst snd]; unfold pivoted_inv in I.
  destruct I as (_ & _ & _ & _ & Hlog).
  apply Hlog; [|exact Hcell].
  apply Rlog; exact Hidx.
Qed.

Lemma GenerateCauchyMatrix_divisors_nonzero_witness :
  let T := InitTables FAVORITE_POLY in
  let M := [0; 0; 0; 0] in
  let X := [5; 232] in
  let Y := [0; 1] in
  (forall y x, 1 <= y < 2 -> 0 <= x < 2 -> Z.lxor (get X x) (get Y y) <> 0)
  /\ (forall y x, 1 <= y < 2 -> 0 <= x < 2 ->
        get (fst (cauchy_raw T 2 2 M X Y)) (y * 2 + x) <> 0)
  /\ Forall (fun d => d <> 0) (snd (GenerateCauchyMatrix T 2 2 M X Y)).
Proof.
  intros T M X Y; subst M X Y.
  apply (GenerateCauchyMatrix_divisors_nonzero FAVORITE_POLY 2 2
           [0; 0; 0; 0] [5; 232] [0; 1]);
    unfold FAVORITE_POLY; try lia; try reflexivity.
  - intros x Hx.
    assert (E : x = 0 \/ x = 1) by lia.
    destruct E as [-> | ->]; unfold is_byte; eval_get; lia.
  - intros y Hy.
    assert (E : y = 0 \/ y = 1) by lia.
    destruct E as [-> | ->]; unfold is_byte; eval_get; lia.
  - intros x y Hx Hy.
    assert (Ex : x = 0 \/ x = 1) by lia.
    assert (Ey : y = 0 \/ y = 1) by lia.
    destruct Ex as [-> | ->]; destruct Ey as [-> | ->]; eval_get; lia.
Defined.

(** ** The deck shuffle *)

Lemma upd_app_l n v (l1 l2 : list Z) :
  (n < length l1)%nat -> upd n v (l1 ++ l2) = upd n v l1 ++ l2.
Proof.
  revert n; induction l1 as [|h t IH]; intros [|n] H; simpl in *; try lia; auto.
  f_equal; apply IH; lia.
Qed.

Lemma firstn_upd_lt n j v (l : list Z) :
  (n < j)%nat -> firstn j (upd n v l) = upd n v (firstn j l).
Proof.
  revert n j; induction l as [|h t IH]; intros [|n] [|j] H; simpl; try lia; auto.
  f_equal; apply IH; lia.
Qed.

Lemma firstn_upd_last n v (l : list Z) :
  (n < length l)%nat -> firstn (S n) (upd n v l) = firstn n l ++ [v].
Proof.
  revert n; induction l as [|h t IH]; intros [|n] H; simpl in *; try lia; auto.
  f_equal; apply IH; lia.
Qed.

Lemma nth_firstn_lt n j (l : list Z) d :
  (n < j)%nat -> nth n (firstn j l) d = nth n l d.
Proof.
  revert n j; induction l as [|h t IH]; intros [|n] [|j] H; simpl; try lia; auto.
  apply IH; lia.
Qed.

(** Overwriting a cell and appending its old content permutes the list
    with the new value appended. *)
Lemma upd_swap_out n w (l : list Z) d :
  (n < length l)%nat -> Permutation (upd n w l ++ [nth n l d]) (l ++ [w]).
Proof.
  revert n; induction l as [|h t IH]; intros [|n] H; simpl in *; try lia.
  - transitivity (w :: h :: t).
    + apply perm_skip, Permutation_sym, Permutation_cons_append.
    + transitivity (h :: w :: t); [apply perm_swap|].
      apply perm_skip, Permutation_cons_append.
  - apply perm_skip, IH; lia.
Qed.

Section ShuffleProofs.
Variable prng : Type.
Variable Next : prng -> Z * prng.

(** The first [ii] cards are the values 0..ii-1 in some order. *)
Definition deck_inv (ii : Z) (deck : list Z) : Prop :=
  length deck = 256%nat
  /\ Permutation (firstn (Z.to_nat ii) deck) (zrange 0 ii).

Lemma deal_inv deck ii r :
  1 <= ii <= 255 -> 0 <= r ->
  deck_inv ii deck -> deck_inv (ii + 1) (deal deck ii r).
Proof.
  intros Hii Hr [HL HP]; unfold deal, deck_inv.
  pose proof (Z.mod_pos_bound r ii ltac:(lia)) as Hjj.
  set (jj := r mod ii) in *.
  rewrite u8_small by lia.
  split; [now rewrite !length_set|].
  unfold set.
  destruct (Z.ltb_spec jj 0); [lia|]; destruct (Z.ltb_spec ii 0); [lia|].
  replace (Z.to_nat (ii + 1)) with (S (Z.to_nat ii)) by lia.
  rewrite firstn_upd_lt by lia.
  rewrite firstn_upd_last by lia.
  rewrite upd_app_l by (rewrite length_firstn; lia).
  unfold get.
  rewrite <- (nth_firstn_lt (Z.to_nat jj) (Z.to_nat ii) deck 0) by lia.
  rewrite upd_swap_out by (rewrite length_firstn; lia).
  rewrite zrange_snoc by lia.
  now apply Permutation_app_tail.
Qed.

Lemma u8_nonneg x : 0 <= u8 x.
Proof. unfold u8; pose proof (Z.mod_pos_bound x 256 ltac:(lia)); lia. Qed.

Lemma u32_small x : 0 <= x < 4294967296 -> u32 x = x.
Proof. intros; unfold u32; apply Z.mod_small; lia. Qed.

Lemma ShuffleDeck8_loop_inv ii p deck :
  1 <= ii <= 256 -> deck_inv ii deck ->
  deck_inv 256 (fst (ShuffleDeck8_loop prng Next ii p deck)).
Proof.
  funelim (ShuffleDeck8_loop prng Next ii p deck); intros Hii Hinv.
  - (* the last word *)
    clear Heq Heqcall.
    rewrite (u32_small (256 - ii)) in * by lia.
    cbn [fst].
    destruct (Z.eqb_spec (256 - ii) 3) as [E3|N3].
    { unfold case_3, case_2, case_1.
      rewrite !(u32_small (_ + 1)) by lia.
      replace 256 with (ii + 1 + 1 + 1) at 1 by lia.
      repeat (apply deal_inv; [lia|apply u8_nonneg|]); exact Hinv. }
    destruct (Z.eqb_spec (256 - ii) 2) as [E2|N2].
    { unfold case_2, case_1.
      rewrite !(u32_small (_ + 1)) by lia.
      replace 256 with (ii + 1 + 1) at 1 by lia.
      repeat (apply deal_inv; [lia|apply u8_nonneg|]); exact Hinv. }
    destruct (Z.eqb_spec (256 - ii) 1) as [E1|N1].
    { unfold case_1.
      replace 256 with (ii + 1) at 1 by lia.
      apply deal_inv; [lia|apply u8_nonneg|]; exact Hinv. }
    replace 256 with ii by lia; exact Hinv.
  - (* four draws and another turn *)
    clear Heq Heqcall.
    rewrite (u32_small (256 - ii)) in * by lia.
    rewrite (u32_small (ii + 4)) in * by lia.
    match goal with
    | IH : _ -> _ -> deck_inv 256 _ |- _ => apply IH; [lia|]
    end.
    unfold case_default.
    rewrite !(u32_small (_ + 1)) by lia.
    replace (ii + 4) with (ii + 1 + 1 + 1 + 1) by lia.
    repeat (apply deal_inv; [lia|apply u8_nonneg|]); exact Hinv.
Qed.

Lemma deck_inv_start deck :
  length deck = 256%nat -> deck_inv 1 (set deck 0 0).
Proof.
  intros HL; split; [now rewrite length_set|].
  destruct deck as [|h t]; [discriminate HL|].
  reflexivity.
Qed.
End ShuffleProofs.

(** C7: whatever words the generator yields, [ShuffleDeck8] leaves in the
    256-byte deck a permutation of the values 0..255; hence, for
    [k + m <= 256], the first [k] entries, taken as X, and the next [m],
    taken as Y, hold pairwise distinct values. *)
Theorem ShuffleDeck8_permutation (prng : Type) (Next : prng -> Z * prng)
    (p : prng) (deck : list Z) :
  length deck = 256%nat ->
  let XY := fst (ShuffleDeck8 prng Next p deck) in
  Permutation XY (zrange 0 256)
  /\ (forall k m, 0 <= k -> 0 <= m -> k + m <= 256 ->
        NoDup (firstn (Z.to_nat k) XY
               ++ firstn (Z.to_nat m) (skipn (Z.to_nat k) XY))).
Proof.
  intros HL XY.
  assert (I : deck_inv 256 XY).
  { apply ShuffleDeck8_loop_inv; [lia|now apply deck_inv_start]. }
  destruct I as [HL' HP].
  rewrite firstn_all2 in HP by (rewrite HL'; lia).
  split; [exact HP|].
  intros k m Hk Hm Hkm.
  assert (ND : NoDup XY)
    by (apply (Permutation_NoDup (Permutation_sym HP)), NoDup_zrange).
  rewrite <- (firstn_skipn (Z.to_nat k) XY) in ND.
  rewrite <- (firstn_skipn (Z.to_nat m) (skipn (Z.to_nat k) XY)) in ND.
  rewrite app_assoc in ND.
  exact (NoDup_app_remove_r _ _ ND).
Qed.

Lemma ShuffleDeck8_permutation_witness :
  let Next := fun p : Z => (p, (p * 1103515245 + 12345) mod 4294967296) in
  let XY := fst (ShuffleDeck8 Z Next 1 (repeat 0 256)) in
  Permutation XY (zrange 0 256)
  /\ (forall k m, 0 <= k -> 0 <= m -> k + m <= 256 ->
        NoDup (firstn (Z.to_nat k) XY
               ++ firstn (Z.to_nat m) (skipn (Z.to_nat k) XY))).
Proof.
  intros Next.
  apply (ShuffleDeck8_permutation Z Next 1 (repeat 0 256)).
  reflexivity.
Defined.

(** ** The random search *)

Section Scores.
Variable T : Tables.
Hypothesis ONES_byte : forall c, 0 <= get (CAUCHY_ONES T) c <= 255.

Lemma pivot_rewrite_ones_le k base XC s :
  snd (fst s) <= snd (fst (pivot_rewrite T k base XC s)).
Proof.
  unfold pivot_rewrite.
  apply (for_range_preserve
           (fun r : list Z * Z * list Z => snd (fst s) <= snd (fst r))); [lia|].
  intros z [[M ones] dv] _ H; cbn [fst snd] in *.
  pose proof (ONES_byte (div T (get M (base + z)) XC)); lia.
Qed.

Lemma cauchy_pivot_row_ones_le k y s :
  snd (fst s) <= snd (fst (cauchy_pivot_row T k y s)).
Proof.
  destruct s as [[M ones] dv]; unfold cauchy_pivot_row.
  destruct (pivot_select T k (y * k) M dv) as [[best best_x] dv1].
  apply (pivot_rewrite_ones_le k (y * k) (get M (y * k + best_x)) (M, ones, dv1)).
Qed.

Lemma GenerateCauchyMatrix_ones_nonneg k m M X Y :
  0 <= k -> 0 <= snd (fst (GenerateCauchyMatrix T k m M X Y)).
Proof.
  intros Hk; unfold GenerateCauchyMatrix.
  destruct (cauchy_raw T k m M X Y) as [R dv].
  apply (for_range_preserve
           (fun r : list Z * Z * list Z => 0 <= snd (fst r))).
  - cbn [fst snd]; pose proof (ONES_byte 1); nia.
  - intros y s _ H.
    pose proof (cauchy_pivot_row_ones_le k y s); lia.
Qed.

Variable prng : Type.
Variable Next : prng -> Z * prng.

Lemma Explore_iter_least k m s :
  ex_least prng (Explore_iter prng Next T k m s)
  = if iteration_ones prng Next T k m s <? ex_least prng s
    then iteration_ones prng Next T k m s
    else ex_least prng s.
Proof.
  unfold Explore_iter, iteration_ones.
  destruct (ShuffleDeck8 prng Next (ex_prng prng s) (ex_XY prng s)) as [XY p].
  cbn [fst snd].
  destruct (GenerateCauchyMatrix T k m (ex_matrix prng s) XY
              (skipn (Z.to_nat k) XY)) as [[matrix ones] dv].
  cbn [fst snd].
  destruct (ones <? ex_least prng s); reflexivity.
Qed.

Lemma Explore_loop_succ k m n p XY matrix best :
  0 <= n ->
  Explore_loop prng Next T k m (n + 1) p XY matrix best
  = Explore_iter prng Next T k m (Explore_loop prng Next T k m n p XY matrix best).
Proof.
  intros Hn; unfold Explore_loop; now rewrite for_range_snoc.
Qed.

Lemma Explore_loop_least_nonneg k m n p XY matrix best :
  0 <= k ->
  0 <= ex_least prng (Explore_loop prng Next T k m n p XY matrix best).
Proof.
  intros Hk; unfold Explore_loop.
  apply (for_range_preserve (fun s => 0 <= ex_least prng s)).
  - cbn; unfold INT_MAX; lia.
  - intros i s _ H; rewrite Explore_iter_least.
    pose proof (GenerateCauchyMatrix_ones_nonneg k m (ex_matrix prng s)
                  (fst (ShuffleDeck8 prng Next (ex_prng prng s) (ex_XY prng s)))
                  (skipn (Z.to_nat k)
                     (fst (ShuffleDeck8 prng Next (ex_prng prng s) (ex_XY prng s))))
                  Hk) as Hs.
    fold (iteration_ones prng Next T k m s) in Hs.
    destruct (iteration_ones prng Next T k m s <? ex_least prng s); lia.
Qed.
End Scores.

(** C8: in the search loop of [Explore], the best score [least] after one
    more turn is at most what it was; it changes only when the matrix of
    that turn scores strictly less, and then it is that score; every score
    is non-negative, and so is [least] at every turn. *)
Theorem Explore_least_monotone (prng : Type) (Next : prng -> Z * prng)
    ii k m n p XY matrix best :
  0 <= k -> 0 <= n ->
  let T := InitTables ii in
  let s := Explore_loop prng Next T k m n p XY matrix best in
  let s' := Explore_loop prng Next T k m (n + 1) p XY matrix best in
  let ones := iteration_ones prng Next T k m s in
  ex_least prng s' <= ex_least prng s
  /\ (ex_least prng s' <> ex_least prng s ->
        ones < ex_least prng s /\ ex_least prng s' = ones)
  /\ 0 <= ones
  /\ 0 <= ex_least prng s.
Proof.
  intros Hk Hn T s s' ones; subst s' ones.
  rewrite (Explore_loop_succ T prng Next k m n p XY matrix best Hn).
  fold s; rewrite Explore_iter_least.
  pose proof (Explore_loop_least_nonneg T (CAUCHY_ONES_byte ii) prng Next
                k m n p XY matrix best Hk) as Hl.
  fold s in Hl.
  assert (Ho : 0 <= iteration_ones prng Next T k m s)
    by (apply GenerateCauchyMatrix_ones_nonneg; [apply CAUCHY_ONES_byte|exact Hk]).
  clearbody s.
  destruct (Z.ltb_spec (iteration_ones prng Next T k m s) (ex_least prng s));
    repeat split; auto; try lia.
Qed.

Lemma Explore_least_monotone_witness :
  let Next := fun p : Z => (p, (p * 1103515245 + 12345) mod 4294967296) in
  let T := InitTables FAVORITE_POLY in
  let s := Explore_loop Z Next T 29 3 1 1 (repeat 0 256)
             (repeat 0 87) (repeat 0 87) in
  let s' := Explore_loop Z Next T 29 3 (1 + 1) 1 (repeat 0 256)
              (repeat 0 87) (repeat 0 87) in
  let ones := iteration_ones Z Next T 29 3 s in
  ex_least Z s' <= ex_least Z s
  /\ (ex_least Z s' <> ex_least Z s ->
        ones < ex_least Z s /\ ex_least Z s' = ones)
  /\ 0 <= ones
  /\ 0 <= ex_least Z s.
Proof.
  intros Next.
  apply (Explore_least_monotone Z Next FAVORITE_POLY 29 3 1 1 (repeat 0 256)
           (repeat 0 87) (repeat 0 87)); lia.
Defined.

(** ** The greedy solver, row phase *)

Section GreedyRows.
Variable T : Tables.
Variable MW : list Z.
Variables A F : Z.

(** The state [SolveBestMatrix] enters the loop over rows with. *)
Definition solver_init (m : Z) (X Y matrix : list Z) : solver :=
  {| seen := set (set (repeat 0 256) A 1) F 1;
     sol_X := set X 0 A;
     sol_Y := set Y 0 F;
     sol_matrix := for_range 0 (256 - m) (fun x M => set M x 1) matrix |}.

(** The state when the loop over rows reaches row [y]. *)
Definition rows_before (m y : Z) (X Y matrix : list Z) : solver :=
  for_range 1 y (solve_row T MW A F (256 - m)) (solver_init m X Y matrix).

Lemma SolveBestMatrix_rows_eq m X Y matrix :
  SolveBestMatrix_rows T MW A F m X Y matrix = rows_before m m X Y matrix.
Proof. reflexivity. Qed.

Lemma rows_before_succ m y X Y matrix :
  1 <= y ->
  rows_before m (y + 1) X Y matrix
  = solve_row T MW A F (256 - m) y (rows_before m y X Y matrix).
Proof.
  intros Hy; unfold rows_before; now rewrite for_range_snoc.
Qed.

(** The rows found from a set of seen values, with [n] rows to go: how many
    rows succeed before a scan is exhausted, and the set at that point. *)
Fixpoint rows_run (n : nat) (sn : list Z) : nat * list Z :=
  match n with
  | O => (O, sn)
  | S n' =>
      match scan_row T MW A (Z.lxor A F) sn (zrange 1 256) with
      | None => (O, sn)
      | Some (_, G) =>
          let '(c, f) := rows_run n' (set sn G 1) in (S c, f)
      end
  end.

Lemma rows_run_spec k n : forall lo s c f,
  rows_run n (seen s) = (c, f) ->
  seen (for_range lo (lo + Z.of_nat c) (solve_row T MW A F k) s) = f
  /\ (forall j, 0 <= j < Z.of_nat c ->
        scan_row T MW A (Z.lxor A F)
          (seen (for_range lo (lo + j) (solve_row T MW A F k) s))
          (zrange 1 256) <> None)
  /\ ((c < n)%nat -> scan_row T MW A (Z.lxor A F) f (zrange 1 256) = None).
Proof.
  induction n as [|n IH]; intros lo s c f E; cbn [rows_run] in E.
  - injection E as <- <-.
    rewrite Z.add_0_r, for_range_empty by lia.
    repeat split; auto; intros; lia.
  - destruct (scan_row T MW A (Z.lxor A F) (seen s) (zrange 1 256))
      as [[a G]|] eqn:Es.
    + destruct (rows_run n (set (seen s) G 1)) as [c' f'] eqn:Er.
      injection E as <- <-.
      assert (Estep : solve_row T MW A F k lo s
                      = {| seen := set (seen s) G 1;
                           sol_X := sol_X s;
                           sol_Y := set (sol_Y s) lo G;
                           sol_matrix := set (sol_matrix s) (lo * k) a |})
        by (unfold solve_row; now rewrite Es).
      destruct (IH (lo + 1) (solve_row T MW A F k lo s) c' f') as (I1 & I2 & I3);
        [rewrite Estep; exact Er|].
      split; [|split].
      * rewrite for_range_cons by lia.
        replace (lo + Z.of_nat (S c')) with (lo + 1 + Z.of_nat c') by lia.
        exact I1.
      * intros j Hj.
        destruct (Z.eq_dec j 0) as [->|Hnz].
        -- rewrite Z.add_0_r, for_range_empty by lia.
           rewrite Es; discriminate.
        -- rewrite for_range_cons by lia.
           replace (lo + j) with (lo + 1 + (j - 1)) by lia.
           apply I2; lia.
      * intros Hc; apply I3; lia.
    + injection E as <- <-.
      rewrite Z.add_0_r, for_range_empty by lia.
      repeat split; auto; intros; lia.
Qed.
End GreedyRows.

(** The run of the row phase with the tables and the seed of [main]: 254
    rows find a value, after which every field value is seen. *)
Lemma main_rows_run :
  rows_run main_tables main_minweight seed_A seed_F 255
    (set (set (repeat 0 256) seed_A 1) seed_F 1)
  = (254%nat, repeat 1 256).
Proof. vm_compute. reflexivity. Qed.

(** * Further properties of the code *)

(** ** The field the tables realise *)

(** The representative in 1..255 of an exponent: logs are kept in 1..255,
    with 255 for the value 1. *)
Definition log_norm (s : Z) : Z := (s - 1) mod 255 + 1.

Section FieldAlgebra.
Variable ii : Z.
Hypothesis Hii : 0 <= ii < 16.

Let LOG := fst (explog ii).
Let EXP := snd (explog ii).
Let T := InitTables ii.

Local Lemma ef : explog_facts LOG EXP.
Proof. exact (explog_facts_catalogue ii Hii). Qed.

Lemma log_range x : 1 <= x <= 255 -> 1 <= get LOG x <= 255.
Proof. intros Hx; apply (ef_log _ _ ef x Hx). Qed.

Lemma log_inj x y :
  1 <= x <= 255 -> 1 <= y <= 255 -> get LOG x = get LOG y -> x = y.
Proof.
  intros Hx Hy E.
  destruct (ef_log _ _ ef x Hx) as [_ Ex].
  destruct (ef_log _ _ ef y Hy) as [_ Ey].
  now rewrite <- Ex, <- Ey, E.
Qed.

Lemma mul_log x y :
  1 <= x <= 255 -> 1 <= y <= 255 ->
  get LOG (mul T x y) = log_norm (get LOG x + get LOG y).
Proof.
  intros Hx Hy.
  destruct (mul_nonzero_eq ii Hii x y Hx Hy) as [E R].
  unfold T; rewrite E.
  apply (ef_exp _ _ ef); lia.
Qed.

Lemma div_log x y :
  1 <= x <= 255 -> 1 <= y <= 255 ->
  get LOG (div T x y) = log_norm (get LOG x + (255 - get LOG y)).
Proof.
  intros Hx Hy.
  destruct (div_nonzero_eq ii Hii x y Hx Hy) as [E R].
  unfold T; rewrite E.
  apply (ef_exp _ _ ef); lia.
Qed.

Lemma inv_eq v : is_byte v -> get (GF256_INV_TABLE T) v = div T 1 v.
Proof.
  unfold is_byte; intros Hv; unfold T.
  rewrite InitTables_INV; unfold InitInvTable.
  now rewrite get_map_zrange by lia.
Qed.

(** Two nonzero values with the same normalised log are equal. *)
Lemma eq_by_log x y :
  1 <= x <= 255 -> 1 <= y <= 255 ->
  get LOG x = get LOG y -> x = y.
Proof. apply log_inj. Qed.

Lemma mul_assoc_nonzero a b c :
  1 <= a <= 255 -> 1 <= b <= 255 -> 1 <= c <= 255 ->
  mul T (mul T a b) c = mul T a (mul T b c).
Proof.
  intros Ha Hb Hc.
  pose proof (mul_nonzero ii Hii a b Ha Hb) as Hab.
  pose proof (mul_nonzero ii Hii b c Hb Hc) as Hbc.
  fold T in Hab, Hbc.
  apply log_inj.
  - apply (mul_nonzero ii Hii); auto.
  - apply (mul_nonzero ii Hii); auto.
  - rewrite !mul_log by auto.
    pose proof (log_range a Ha); pose proof (log_range b Hb);
      pose proof (log_range c Hc).
    unfold log_norm.
    generalize dependent (get LOG a); generalize dependent (get LOG b);
      generalize dependent (get LOG c).
    clear; intros; Z.div_mod_to_equations; lia.
Qed.

Lemma mul_assoc a b c :
  is_byte a -> is_byte b -> is_byte c ->
  mul T (mul T a b) c = mul T a (mul T b c).
Proof.
  unfold is_byte; intros Ha Hb Hc.
  destruct (Z.eq_dec a 0) as [->|Na].
  { unfold T; rewrite !mul_zero_l; auto; unfold is_byte; try lia.
    apply mul_byte; auto; unfold is_byte; lia. }
  destruct (Z.eq_dec b 0) as [->|Nb].
  { unfold T; rewrite mul_zero_r, !mul_zero_l, mul_zero_r;
      auto; unfold is_byte; lia. }
  destruct (Z.eq_dec c 0) as [->|Nc].
  { unfold T; rewrite !mul_zero_r; auto; unfold is_byte; try lia.
    apply mul_byte; auto; unfold is_byte; lia. }
  apply mul_assoc_nonzero; lia.
Qed.

Lemma div_self x : 1 <= x <= 255 -> div T x x = 1.
Proof.
  intros Hx.
  destruct (div_nonzero_eq ii Hii x x Hx Hx) as [E _].
  unfold T; rewrite E.
  replace (get (fst (explog ii)) x + (255 - get (fst (explog ii)) x)) with 255
    by lia.
  fold EXP.
  rewrite (exp_period _ _ _ ef) by lia.
  change ((255 - 1) mod 255 + 1) with 255.
  destruct (ef_log _ _ ef 1 ltac:(lia)) as [_ E1].
  rewrite (ef_log_1 _ _ ef) in E1; exact E1.
Qed.

Lemma mul_inv_r x : 1 <= x <= 255 -> mul T x (get (GF256_INV_TABLE T) x) = 1.
Proof.
  intros Hx.
  rewrite inv_eq by (unfold is_byte; lia).
  pose proof (div_nonzero ii Hii 1 x ltac:(lia) Hx) as Hd; fold T in Hd.
  apply log_inj; [apply (mul_nonzero ii Hii); auto|lia|].
  rewrite mul_log, div_log by (auto; lia).
  rewrite (ef_log_1 _ _ ef).
  pose proof (log_range x Hx).
  unfold log_norm.
  generalize dependent (get LOG x).
  clear; intros; Z.div_mod_to_equations; lia.
Qed.

Lemma inv_involutive x :
  1 <= x <= 255 ->
  get (GF256_INV_TABLE T) (get (GF256_INV_TABLE T) x) = x.
Proof.
  intros Hx.
  pose proof (inv_nonzero ii Hii x Hx) as Hi; fold T in Hi.
  rewrite (inv_eq (get (GF256_INV_TABLE T) x)) by (unfold is_byte; lia).
  rewrite (inv_eq x) in * by (unfold is_byte; lia).
  apply log_inj; [apply (div_nonzero ii Hii); auto; lia|auto|].
  rewrite !div_log by (auto; lia).
  rewrite (ef_log_1 _ _ ef).
  pose proof (log_range x Hx).
  unfold log_norm.
  generalize dependent (get LOG x).
  clear; intros; Z.div_mod_to_equations; lia.
Qed.

Lemma div_as_mul_inv x y :
  is_byte x -> 1 <= y <= 255 ->
  div T x y = mul T x (get (GF256_INV_TABLE T) y).
Proof.
  unfold is_byte; intros Hx Hy.
  pose proof (inv_nonzero ii Hii y Hy) as Hi; fold T in Hi.
  destruct (Z.eq_dec x 0) as [->|Nx].
  { unfold T in *; rewrite div_zero_l, mul_zero_l; auto; unfold is_byte; lia. }
  rewrite inv_eq in * by (unfold is_byte; lia).
  apply log_inj.
  - apply (div_nonzero ii Hii); auto; lia.
  - apply (mul_nonzero ii Hii); auto; lia.
  - rewrite mul_log, !div_log by (auto; lia).
    rewrite (ef_log_1 _ _ ef).
    pose proof (log_range x ltac:(lia)); pose proof (log_range y Hy).
    unfold log_norm.
    generalize dependent (get LOG x); generalize dependent (get LOG y).
    clear; intros; Z.div_mod_to_equations; lia.
Qed.

Lemma mul_div x y :
  is_byte x -> 1 <= y <= 255 -> mul T (div T x y) y = x.
Proof.
  unfold is_byte; intros Hx Hy.
  destruct (Z.eq_dec x 0) as [->|Nx].
  { unfold T; rewrite div_zero_l, mul_zero_l; auto; unfold is_byte; lia. }
  pose proof (div_nonzero ii Hii x y ltac:(lia) Hy) as Hd; fold T in Hd.
  apply log_inj; [apply (mul_nonzero ii Hii); auto|lia|].
  rewrite mul_log, div_log by (auto; lia).
  pose proof (log_range x ltac:(lia)); pose proof (log_range y Hy).
  unfold log_norm.
  generalize dependent (get LOG x); generalize dependent (get LOG y).
  clear; intros; Z.div_mod_to_equations; lia.
Qed.

Lemma div_zero_r x : is_byte x -> div T x 0 = 0.
Proof.
  intros Hx; unfold T; rewrite div_entry_eq by (auto; unfold is_byte; lia).
  unfold div_entry; now rewrite orb_true_r.
Qed.
End FieldAlgebra.

(** *** Doubling and the distributive law *)

(** The low byte of [2 * x], and doubling in the field with [c] the low
    byte of the reduction polynomial. *)
Definition low_double (x : Z) : Z := (2 * x) mod 256.

Definition field_double (c x : Z) : Z :=
  Z.lxor (low_double x) (if 128 <=? x then c else 0).

Lemma xor_double_check :
  all_in 0 256 (fun x => all_in 0 256 (fun y =>
    (low_double (Z.lxor x y) =? Z.lxor (low_double x) (low_double y))
    && Bool.eqb (128 <=? Z.lxor x y) (xorb (128 <=? x) (128 <=? y)))) = true.
Proof. vm_compute. reflexivity. Qed.

Lemma field_double_linear c x y :
  is_byte x -> is_byte y ->
  field_double c (Z.lxor x y)
  = Z.lxor (field_double c x) (field_double c y).
Proof.
  unfold is_byte; intros Hx Hy.
  pose proof (all_in_spec _ _ _ xor_double_check x Hx) as C; cbv beta in C.
  pose proof (all_in_spec _ _ _ C y Hy) as D; cbv beta in D.
  apply andb_true_iff in D; destruct D as [D1 D2].
  apply Z.eqb_eq in D1; apply Bool.eqb_prop in D2.
  unfold field_double; rewrite D1, D2.
  destruct (128 <=? x), (128 <=? y); cbn [xorb];
    apply Z.bits_inj'; intros n Hn; rewrite ?Z.lxor_spec, ?Z.bits_0;
    destruct (Z.testbit (low_double x) n), (Z.testbit (low_double y) n),
             (Z.testbit c n); reflexivity.
Qed.

(** Facts about one log / antilog pair, decided by evaluation: the
    antilog table is zero from index 511 on, antilog[1] is 2, and the
    multiplication table doubles as [field_double] does. *)
Definition explog_check2_with (LOG EXP : list Z) : bool :=
  all_in 511 1025 (fun s => get EXP s =? 0)
  && (get EXP 1 =? 2)
  && all_in 0 256 (fun x =>
       mul_entry LOG EXP x 2 =? field_double (mul_entry LOG EXP 128 2) x).

Lemma explog_check2_all :
  all_in 0 16
    (fun ii => explog_check2_with (fst (explog ii)) (snd (explog ii))) = true.
Proof. vm_compute. reflexivity. Qed.

Lemma explog_check2_spec LOG EXP :
  explog_check2_with LOG EXP = true ->
  (forall s, 511 <= s <= 1024 -> get EXP s = 0)
  /\ get EXP 1 = 2
  /\ (forall x, is_byte x ->
        mul_entry LOG EXP x 2 = field_double (mul_entry LOG EXP 128 2) x).
Proof.
  unfold explog_check2_with; rewrite !andb_true_iff.
  intros [[C1 C2] C3]; split; [|split].
  - intros s Hs; apply Z.eqb_eq, (all_in_spec _ _ _ C1 s); lia.
  - now apply Z.eqb_eq.
  - intros x Hx; apply Z.eqb_eq, (all_in_spec _ _ _ C3 x Hx).
Qed.

Section Distributive.
Variable ii : Z.
Hypothesis Hii : 0 <= ii < 16.

Let LOG := fst (explog ii).
Let EXP := snd (explog ii).
Let T := InitTables ii.

Local Lemma ef2 :
  (forall s, 511 <= s <= 1024 -> get EXP s = 0)
  /\ get EXP 1 = 2
  /\ (forall x, is_byte x ->
        mul_entry LOG EXP x 2 = field_double (mul_entry LOG EXP 128 2) x).
Proof.
  apply explog_check2_spec.
  exact (all_in_spec _ _ _ explog_check2_all ii Hii).
Qed.

Lemma mul_two_linear x y :
  is_byte x -> is_byte y ->
  mul T (Z.lxor x y) 2 = Z.lxor (mul T x 2) (mul T y 2).
Proof.
  intros Hx Hy; unfold T.
  destruct ef2 as (_ & _ & D).
  rewrite !mul_entry_eq by (auto using lxor_byte; unfold is_byte; lia).
  fold LOG EXP.
  rewrite (D (Z.lxor x y)), (D x), (D y) by auto using lxor_byte.
  now apply field_double_linear.
Qed.

Lemma log_two : get LOG 2 = 1.
Proof.
  destruct ef2 as (_ & E1 & _).
  pose proof (explog_facts_catalogue ii Hii) as F; fold LOG EXP in F.
  destruct (ef_exp _ _ F 1 ltac:(lia)) as [L _].
  rewrite E1 in L; exact L.
Qed.

Lemma exp_succ e :
  0 <= e < 254 -> get EXP (e + 1) = mul T (get EXP e) 2.
Proof.
  intros He.
  pose proof (explog_facts_catalogue ii Hii) as F; fold LOG EXP in F.
  destruct ef2 as (_ & E1 & _).
  destruct (Z.eq_dec e 0) as [->|Ne].
  - rewrite (ef_exp_0 _ _ F); cbn [Z.add]; rewrite E1.
    unfold T; rewrite mul_comm by (auto; unfold is_byte; lia).
    symmetry; apply mul_one_r; auto; unfold is_byte; lia.
  - destruct (ef_exp _ _ F e ltac:(lia)) as [Le Re].
    destruct (ef_exp _ _ F (e + 1) ltac:(lia)) as [Ls Rs].
    apply (log_inj ii Hii); auto.
    + apply (mul_nonzero ii Hii); auto; lia.
    + fold LOG T; rewrite (mul_log ii Hii) by (auto; lia).
      fold LOG EXP; rewrite Ls, Le, log_two.
      unfold log_norm; clear - He Ne.
      Z.div_mod_to_equations; lia.
Qed.

Lemma mul_distr_exp (n : nat) : forall a b,
  Z.of_nat n <= 254 -> is_byte a -> is_byte b ->
  mul T (Z.lxor a b) (get EXP (Z.of_nat n))
  = Z.lxor (mul T a (get EXP (Z.of_nat n))) (mul T b (get EXP (Z.of_nat n))).
Proof.
  pose proof (explog_facts_catalogue ii Hii) as F; fold LOG EXP in F.
  induction n as [|n IH]; intros a b Hn Ha Hb.
  - cbn [Z.of_nat]; rewrite (ef_exp_0 _ _ F).
    unfold T; rewrite !mul_one_r; auto using lxor_byte.
  - replace (Z.of_nat (S n)) with (Z.of_nat n + 1) by lia.
    rewrite exp_succ by lia.
    assert (He : is_byte (get EXP (Z.of_nat n))).
    { destruct (Z.eq_dec (Z.of_nat n) 0) as [->|].
      - rewrite (ef_exp_0 _ _ F); unfold is_byte; lia.
      - destruct (ef_exp _ _ F (Z.of_nat n) ltac:(lia)); unfold is_byte; lia. }
    assert (H2 : is_byte 2) by (unfold is_byte; lia).
    rewrite <- !(mul_assoc ii Hii) by auto using lxor_byte.
    fold T; rewrite IH by (auto; lia).
    apply mul_two_linear; apply mul_byte; auto.
Qed.

Lemma mul_distr_l a b c :
  is_byte a -> is_byte b -> is_byte c ->
  mul T (Z.lxor a b) c = Z.lxor (mul T a c) (mul T b c).
Proof.
  intros Ha Hb Hc.
  pose proof (explog_facts_catalogue ii Hii) as F; fold LOG EXP in F.
  destruct (Z.eq_dec c 0) as [->|Nc].
  { unfold T; rewrite !mul_zero_r; auto using lxor_byte. }
  assert (Hc' : 1 <= c <= 255) by (unfold is_byte in Hc; lia).
  destruct (ef_log _ _ F c Hc') as [Lc Ec].
  destruct (Z.eq_dec (get LOG c) 255) as [E255|N255].
  - assert (c = 1).
    { apply (log_inj ii Hii); auto; [lia|].
      fold LOG; rewrite E255; symmetry; apply (ef_log_1 _ _ F). }
    subst c; unfold T; rewrite !mul_one_r; auto using lxor_byte.
  - rewrite <- Ec.
    replace (get LOG c) with (Z.of_nat (Z.to_nat (get LOG c))) by lia.
    apply mul_distr_exp; auto; lia.
Qed.
End Distributive.

(** *** Statements *)

(** X1: with the tables of a catalogue polynomial, [GF256Multiply] is
    associative on bytes. *)
Theorem GF256Multiply_associative ii a b c :
  0 <= ii < 16 -> is_byte a -> is_byte b -> is_byte c ->
  let T := InitTables ii in
  mul T (mul T a b) c = mul T a (mul T b c).
Proof.
  intros Hii Ha Hb Hc T; now apply mul_assoc.
Qed.

Lemma GF256Multiply_associative_witness :
  let T := InitTables FAVORITE_POLY in
  mul T (mul T 3 7) 200 = mul T 3 (mul T 7 200).
Proof.
  apply (GF256Multiply_associative FAVORITE_POLY 3 7 200);
    unfold FAVORITE_POLY, is_byte; lia.
Defined.

(** X2: with the tables of a catalogue polynomial, [GF256Multiply]
    distributes over XOR, the addition of the field, in either argument. *)
Theorem GF256Multiply_distributes_over_xor ii a b c :
  0 <= ii < 16 -> is_byte a -> is_byte b -> is_byte c ->
  let T := InitTables ii in
  mul T (Z.lxor a b) c = Z.lxor (mul T a c) (mul T b c)
  /\ mul T c (Z.lxor a b) = Z.lxor (mul T c a) (mul T c b).
Proof.
  intros Hii Ha Hb Hc T.
  assert (E : mul T (Z.lxor a b) c = Z.lxor (mul T a c) (mul T b c))
    by now apply mul_distr_l.
  split; [exact E|].
  unfold T in *.
  rewrite (mul_comm ii Hii c (Z.lxor a b)), (mul_comm ii Hii c a),
    (mul_comm ii Hii c b); auto using lxor_byte.
Qed.

Lemma GF256Multiply_distributes_over_xor_witness :
  let T := InitTables FAVORITE_POLY in
  mul T (Z.lxor 3 7) 200 = Z.lxor (mul T 3 200) (mul T 7 200)
  /\ mul T 200 (Z.lxor 3 7) = Z.lxor (mul T 200 3) (mul T 200 7).
Proof.
  apply (GF256Multiply_distributes_over_xor FAVORITE_POLY 3 7 200);
    unfold FAVORITE_POLY, is_byte; lia.
Defined.

(** X3: the inverse table.  For a nonzero byte [x], [GF256_INV_TABLE[x]] is
    nonzero, [x * inv[x] = 1], and [inv[inv[x]] = x]; division is
    multiplication by the inverse, and multiplying a quotient by the
    divisor gives back the dividend. *)
Theorem InitInvTable_inverse ii x y :
  0 <= ii < 16 -> 1 <= x <= 255 -> is_byte y ->
  let T := InitTables ii in
  let inv := get (GF256_INV_TABLE T) in
  1 <= inv x <= 255
  /\ mul T x (inv x) = 1
  /\ inv (inv x) = x
  /\ div T y x = mul T y (inv x)
  /\ mul T (div T y x) x = y.
Proof.
  intros Hii Hx Hy T inv; subst inv T.
  split; [now apply inv_nonzero|].
  split; [now apply mul_inv_r|].
  split; [now apply inv_involutive|].
  split; [now apply div_as_mul_inv|now apply mul_div].
Qed.

Lemma InitInvTable_inverse_witness :
  let T := InitTables FAVORITE_POLY in
  let inv := get (GF256_INV_TABLE T) in
  1 <= inv 2 <= 255
  /\ mul T 2 (inv 2) = 1
  /\ inv (inv 2) = 2
  /\ div T 9 2 = mul T 9 (inv 2)
  /\ mul T (div T 9 2) 2 = 9.
Proof.
  apply (InitInvTable_inverse FAVORITE_POLY 2 9);
    unfold FAVORITE_POLY, is_byte; lia.
Defined.

(** X4: a zero divisor is not trapped.  [GF256Divide(x, 0)] is 0 for every
    byte [x], and so is the entry [GF256_INV_TABLE[0]] that [InitInvTable]
    computes as [GF256Divide(1, 0)]; this holds whatever log and antilog
    tables the division table was built from. *)
Theorem GF256Divide_by_zero_is_zero LOG EXP x :
  is_byte x ->
  let DIV := snd (InitMulDivTables LOG EXP) in
  GF256Divide DIV x 0 = 0 /\ get (InitInvTable DIV) 0 = 0.
Proof.
  intros Hx DIV; subst DIV.
  assert (E : forall v, is_byte v ->
            GF256Divide (snd (InitMulDivTables LOG EXP)) v 0 = 0).
  { intros v Hv; rewrite GF256Divide_entry by (auto; unfold is_byte; lia).
    unfold div_entry; now rewrite orb_true_r. }
  split; [now apply E|].
  unfold InitInvTable; rewrite get_map_zrange by lia.
  apply E; unfold is_byte; lia.
Qed.

Lemma GF256Divide_by_zero_is_zero_witness :
  let DIV := snd (InitMulDivTables LOG_TABLE_0 EXP_TABLE_0) in
  GF256Divide DIV 200 0 = 0 /\ get (InitInvTable DIV) 0 = 0.
Proof.
  apply (GF256Divide_by_zero_is_zero LOG_TABLE_0 EXP_TABLE_0 200).
  unfold is_byte; lia.
Defined.

(** X5: the log sentinel and the zero padding of the antilog table.  With
    the tables of a catalogue polynomial, [log[0]] is 512, the antilog
    entries 511..1024 are 0, and for all bytes [x] and [y], zero or not, the
    product in the multiplication table is [antilog[log[x] + log[y]]]. *)
Theorem multiply_is_antilog_of_log_sum ii x y :
  0 <= ii < 16 -> is_byte x -> is_byte y ->
  let T := InitTables ii in
  let LOG := GF256_LOG_TABLE T in
  let EXP := GF256_EXP_TABLE T in
  get LOG 0 = 512
  /\ (forall s, 511 <= s <= 1024 -> get EXP s = 0)
  /\ mul T x y = get EXP (get LOG x + get LOG y).
Proof.
  intros Hii Hx Hy T LOG EXP; subst LOG EXP T.
  rewrite InitTables_LOG, InitTables_EXP.
  pose proof (explog_facts_catalogue ii Hii) as F.
  pose proof (explog_check2_spec _ _
                (all_in_spec _ _ _ explog_check2_all ii Hii)) as (Z0 & _ & _).
  split; [exact (ef_log_0 _ _ F)|]; split; [exact Z0|].
  unfold is_byte in *.
  destruct (Z.eq_dec x 0) as [->|Nx]; [|destruct (Z.eq_dec y 0) as [->|Ny]].
  - rewrite mul_zero_l by (auto; unfold is_byte; lia).
    rewrite (ef_log_0 _ _ F).
    destruct (Z.eq_dec y 0) as [->|Ny].
    + rewrite (ef_log_0 _ _ F); symmetry; apply Z0; lia.
    + destruct (ef_log _ _ F y ltac:(lia)) as [Ly _].
      symmetry; apply Z0; lia.
  - rewrite mul_zero_r by (auto; unfold is_byte; lia).
    rewrite (ef_log_0 _ _ F).
    destruct (ef_log _ _ F x ltac:(lia)) as [Lx _].
    symmetry; apply Z0; lia.
  - destruct (mul_nonzero_eq ii Hii x y ltac:(lia) ltac:(lia)) as [E _].
    exact E.
Qed.

Lemma multiply_is_antilog_of_log_sum_witness :
  let T := InitTables FAVORITE_POLY in
  let LOG := GF256_LOG_TABLE T in
  let EXP := GF256_EXP_TABLE T in
  get LOG 0 = 512
  /\ (forall s, 511 <= s <= 1024 -> get EXP s = 0)
  /\ mul T 0 0 = get EXP (get LOG 0 + get LOG 0).
Proof.
  apply (multiply_is_antilog_of_log_sum FAVORITE_POLY 0 0);
    unfold FAVORITE_POLY, is_byte; lia.
Defined.

(** ** The score of a matrix *)

Section MatrixScore.
Variable T : Tables.
Variable k : Z.
Hypothesis Hk : 0 <= k.

(** The cells of row [y] in its first [subk] columns. *)
Definition row_prefix (subk : Z) (M : list Z) (y : Z) : list Z :=
  map (fun x => get M (y * k + x)) (zrange 0 subk).

(** The sum of [g] over [lo .. hi-1], as a loop accumulates it. *)
Definition sum_range (lo hi : Z) (g : Z -> Z) : Z :=
  for_range lo hi (fun y acc => acc + g y) 0.

Lemma sum_range_acc lo hi g a :
  for_range lo hi (fun y acc => acc + g y) a = a + sum_range lo hi g.
Proof.
  unfold sum_range.
  destruct (Z.le_gt_cases lo hi) as [Hle|Hgt].
  - apply (for_range_inv
             (fun i r => r = a + for_range lo i (fun y acc => acc + g y) 0));
      auto.
    + rewrite for_range_empty by lia; lia.
    + intros i r Hi ->; rewrite for_range_snoc by lia; lia.
  - rewrite !for_range_empty by lia; lia.
Qed.

Lemma sum_range_snoc lo hi g :
  lo <= hi -> sum_range lo (hi + 1) g = sum_range lo hi g + g hi.
Proof.
  intros H; unfold sum_range; now rewrite for_range_snoc.
Qed.

Lemma sum_range_cons lo hi g :
  lo < hi -> sum_range lo hi g = g lo + sum_range (lo + 1) hi g.
Proof.
  intros H; unfold sum_range at 1.
  rewrite for_range_cons by lia.
  now rewrite sum_range_acc.
Qed.

Lemma sum_range_ext lo hi g g' :
  (forall y, lo <= y < hi -> g y = g' y) ->
  sum_range lo hi g = sum_range lo hi g'.
Proof.
  intros H; unfold sum_range.
  apply for_range_ext; intros y acc Hy; now rewrite H.
Qed.

Lemma count_row_loop subk M y acc :
  0 <= subk ->
  for_range 0 subk
    (fun x ones => ones + get (CAUCHY_ONES T) (get M (y * k + x))) acc
  = acc + row_weight T (row_prefix subk M y).
Proof.
  intros Hs; unfold row_prefix.
  apply (for_range_inv
           (fun x r =>
              r = acc + row_weight T
                          (map (fun x => get M (y * k + x)) (zrange 0 x)))); auto.
  - rewrite zrange_empty by lia; cbn [map row_weight fold_right]; lia.
  - intros x r Hx ->.
    rewrite zrange_snoc, map_app by lia; cbn [map].
    rewrite row_weight_snoc; lia.
Qed.

Lemma CountMatrixOnes_sum subk m M :
  0 <= subk ->
  CountMatrixOnes T k subk m M
  = sum_range 0 m (fun y => row_weight T (row_prefix subk M y)).
Proof.
  intros Hs; unfold CountMatrixOnes, sum_range.
  apply for_range_ext; intros y acc Hy.
  now apply count_row_loop.
Qed.

Lemma row_weight_ones (l : list Z) :
  (forall c, In c l -> c = 1) ->
  row_weight T l = get (CAUCHY_ONES T) 1 * Z.of_nat (length l).
Proof.
  induction l as [|h t IH]; intros H; cbn [row_weight fold_right length].
  - lia.
  - rewrite (H h (or_introl eq_refl)).
    unfold row_weight in IH; rewrite IH by (intros; apply H; now right).
    lia.
Qed.

Variable m : Z.
Hypothesis Hm : 1 <= m.
Variable R : list Z.
Hypothesis HR : Z.of_nat (length R) = k * m.

(** The count of ones kept by the pivoting loop when it reaches row [y]. *)
Definition score_inv (ones0 : Z) (y : Z) (s : list Z * Z * list Z) : Prop :=
  let '(M, ones, _) := s in
  length M = length R
  /\ (forall x, 0 <= x < k -> get M x = get R x)
  /\ ones = ones0 + sum_range 1 y (fun y' => row_weight T (row_prefix k M y')).

Lemma cauchy_pivot_row_score ones0 y s :
  1 <= y < m ->
  score_inv ones0 y s -> score_inv ones0 (y + 1) (cauchy_pivot_row T k y s).
Proof.
  intros Hy; destruct s as [[M ones] dv]; unfold score_inv, cauchy_pivot_row.
  intros (HL & H0 & Hones).
  destruct (pivot_select T k (y * k) M dv) as [[best best_x] dv1].
  destruct (pivot_rewrite_spec T k Hk (y * k)
              (get M (y * k + best_x)) M ones dv1
              ltac:(nia) ltac:(rewrite HL; nia))
    as (L' & C' & F' & O' & _).
  destruct (pivot_rewrite T k (y * k) (get M (y * k + best_x)) (M, ones, dv1))
    as [[M' ones'] dv'].
  cbn [fst snd] in *.
  split; [congruence|].
  split; [intros x Hx; rewrite F' by nia; auto|].
  rewrite sum_range_snoc by lia.
  rewrite O', Hones.
  assert (E1 : sum_range 1 y (fun y' => row_weight T (row_prefix k M' y'))
               = sum_range 1 y (fun y' => row_weight T (row_prefix k M y'))).
  { apply sum_range_ext; intros y' Hy'; f_equal.
    unfold row_prefix; apply map_ext_in; intros x Hx; apply in_zrange in Hx.
    apply F'; nia. }
  assert (E2 : row_prefix k M' y
               = scaled T (get M (y * k + best_x)) (cells_at k M (y * k))).
  { unfold row_prefix, scaled, cells_at; rewrite map_map.
    apply map_ext_in; intros x Hx; apply in_zrange in Hx; now apply C'. }
  rewrite E1, E2; lia.
Qed.
End MatrixScore.

Lemma GenerateCauchyMatrix_score_inv T k m M X Y :
  0 <= k -> 1 <= m -> Z.of_nat (length M) = k * m ->
  score_inv T k (fst (cauchy_raw T k m M X Y)) (get (CAUCHY_ONES T) 1 * k) m
    (GenerateCauchyMatrix T k m M X Y).
Proof.
  intros Hk Hm HL; unfold GenerateCauchyMatrix.
  destruct (cauchy_raw_spec T k m X Y Hk M Hm HL) as (RL & R0 & _).
  destruct (cauchy_raw T k m M X Y) as [R dv]; cbn [fst snd] in *.
  apply (for_range_inv (score_inv T k R (get (CAUCHY_ONES T) 1 * k)));
    [lia| |].
  - unfold score_inv; repeat split; auto.
    unfold sum_range; rewrite for_range_empty by lia; lia.
  - intros y s Hy; apply cauchy_pivot_row_score with (m := m); auto.
    congruence.
Qed.

Lemma score_inv_total T k m R out ones dv :
  0 <= k -> 1 <= m ->
  (forall x, 0 <= x < k -> get R x = 1) ->
  score_inv T k R (get (CAUCHY_ONES T) 1 * k) m (out, ones, dv) ->
  ones = CountMatrixOnes T k k m out /\ length out = length R.
Proof.
  intros Hk Hm R0 (L & O0 & O).
  split; [|exact L].
  rewrite CountMatrixOnes_sum by lia.
  rewrite (sum_range_cons 0 m) by lia.
  change (0 + 1) with 1; rewrite O.
  assert (E0 : row_weight T (row_prefix k k out 0)
               = get (CAUCHY_ONES T) 1 * k).
  { rewrite row_weight_ones.
    - unfold row_prefix; rewrite length_map, length_zrange; f_equal; lia.
    - intros c Hc; unfold row_prefix in Hc.
      apply in_map_iff in Hc; destruct Hc as (x & <- & Hx).
      apply in_zrange in Hx.
      rewrite Z.mul_0_l, Z.add_0_l, O0 by lia; now apply R0. }
  rewrite E0; reflexivity.
Qed.

(** X6: the count [GenerateCauchyMatrix] returns is the bit-weight of the
    matrix it has written: it equals [CountMatrixOnes(k, k, m, matrix)] on
    the output, for any tables and any vectors X and Y. *)
Theorem GenerateCauchyMatrix_returns_matrix_weight T k m M X Y :
  0 <= k -> 1 <= m -> Z.of_nat (length M) = k * m ->
  let out := fst (fst (GenerateCauchyMatrix T k m M X Y)) in
  let ones := snd (fst (GenerateCauchyMatrix T k m M X Y)) in
  ones = CountMatrixOnes T k k m out /\ length out = length M.
Proof.
  intros Hk Hm HL.
  pose proof (GenerateCauchyMatrix_score_inv T k m M X Y Hk Hm HL) as I.
  destruct (cauchy_raw_spec T k m X Y Hk M Hm HL) as (RL & R0 & _).
  destruct (GenerateCauchyMatrix T k m M X Y) as [[out ones] dv].
  cbn [fst snd].
  destruct (score_inv_total T k m _ out ones dv Hk Hm R0 I) as [E L].
  split; [exact E|congruence].
Qed.

Lemma GenerateCauchyMatrix_returns_matrix_weight_witness :
  let T := InitTables FAVORITE_POLY in
  let out := fst (fst (GenerateCauchyMatrix T 2 2 [0; 0; 0; 0] [5; 232] [0; 1])) in
  let ones := snd (fst (GenerateCauchyMatrix T 2 2 [0; 0; 0; 0] [5; 232] [0; 1])) in
  ones = CountMatrixOnes T 2 2 2 out /\ length out = length [0; 0; 0; 0].
Proof.
  apply (GenerateCauchyMatrix_returns_matrix_weight
           (InitTables FAVORITE_POLY) 2 2 [0; 0; 0; 0] [5; 232] [0; 1]);
    try lia; reflexivity.
Defined.

(** X7: the shape of the matrix [GenerateCauchyMatrix] writes.  With the
    tables of a catalogue polynomial and byte vectors X and Y that share no
    value, row 0 is all ones, every cell of a row [y >= 1] is a nonzero
    byte, and each such row holds a 1, in the column of its pivot. *)
Theorem GenerateCauchyMatrix_rows_normalised ii k m M X Y :
  0 <= ii < 16 -> 1 <= k <= 256 -> 1 <= m ->
  Z.of_nat (length M) = k * m ->
  (forall x, 0 <= x < k -> is_byte (get X x)) ->
  (forall y, 0 <= y < m -> is_byte (get Y y)) ->
  (forall x y, 0 <= x < k -> 0 <= y < m -> get X x <> get Y y) ->
  let out := fst (fst (GenerateCauchyMatrix (InitTables ii) k m M X Y)) in
  (forall x, 0 <= x < k -> get out x = 1)
  /\ (forall y x, 1 <= y < m -> 0 <= x < k -> 1 <= get out (y * k + x) <= 255)
  /\ (forall y, 1 <= y < m -> exists x, 0 <= x < k /\ get out (y * k + x) = 1).
Proof.
  intros Hii Hk Hm HL HX HY Hdis out; subst out.
  set (T := InitTables ii).
  assert (Hkmax : 255 * k < INT_MAX) by (unfold INT_MAX; lia).
  pose proof (GenerateCauchyMatrix_pivoted T k m M X Y ltac:(lia) Hkmax Hm
                (CAUCHY_ONES_byte ii) HL) as I.
  destruct (cauchy_raw_spec T k m X Y ltac:(lia) M Hm HL)
    as (RL & R0 & Rcell & _).
  assert (Hcell : forall y x, 1 <= y < m -> 0 <= x < k ->
            1 <= get (fst (cauchy_raw T k m M X Y)) (y * k + x) <= 255).
  { intros y x Hy Hx; rewrite Rcell by auto.
    eapply raw_cell_nonzero; eauto. }
  destruct (GenerateCauchyMatrix T k m M X Y) as [[out ones] dv].
  cbn [fst snd]; unfold pivoted_inv in I.
  destruct I as (_ & O0 & _ & Hdone & _).
  split; [intros x Hx; rewrite O0 by auto; now apply R0|]; split.
  - intros y x Hy Hx.
    destruct (Hdone y Hy) as (bx & Hbx & _ & Hc).
    rewrite Hc by auto.
    apply (div_nonzero ii Hii); auto.
  - intros y Hy.
    destruct (Hdone y Hy) as (bx & Hbx & _ & Hc).
    exists bx; split; [exact Hbx|].
    rewrite Hc by auto.
    apply (div_self ii Hii); auto.
Qed.

Lemma GenerateCauchyMatrix_rows_normalised_witness :
  let out := fst (fst (GenerateCauchyMatrix (InitTables FAVORITE_POLY) 2 2
                         [0; 0; 0; 0] [5; 232] [0; 1])) in
  (forall x, 0 <= x < 2 -> get out x = 1)
  /\ (forall y x, 1 <= y < 2 -> 0 <= x < 2 -> 1 <= get out (y * 2 + x) <= 255)
  /\ (forall y, 1 <= y < 2 -> exists x, 0 <= x < 2 /\ get out (y * 2 + x) = 1).
Proof.
  apply (GenerateCauchyMatrix_rows_normalised FAVORITE_POLY 2 2
           [0; 0; 0; 0] [5; 232] [0; 1]);
    unfold FAVORITE_POLY; try lia; try reflexivity.
  - intros x Hx.
    assert (E : x = 0 \/ x = 1) by lia.
    destruct E as [-> | ->]; unfold is_byte; eval_get; lia.
  - intros y Hy.
    assert (E : y = 0 \/ y = 1) by lia.
    destruct E as [-> | ->]; unfold is_byte; eval_get; lia.
  - intros x y Hx Hy.
    assert (Ex : x = 0 \/ x = 1) by lia.
    assert (Ey : y = 0 \/ y = 1) by lia.
    destruct Ex as [-> | ->]; destruct Ey as [-> | ->]; eval_get; lia.
Defined.

(** ** The min-weight order *)

Lemma map_get_zrange (l : list Z) :
  map (get l) (zrange 0 (Z.of_nat (length l))) = l.
Proof.
  apply nth_ext with (d := 0) (d' := 0).
  - rewrite length_map, length_zrange; lia.
  - intros n Hn; rewrite length_map, length_zrange in Hn.
    rewrite (nth_indep _ 0 (get l 0)) by (rewrite length_map, length_zrange; lia).
    rewrite (map_nth (get l)), nth_zrange by lia.
    unfold get; f_equal; lia.
Qed.

Section MinWeightOrder.
Variable ONES : list Z.
Variable elements0 : list Z.
Hypothesis Hlen : length elements0 = 256%nat.

(** The state of [SortMinWeightElements] once the entries before [x] are
    placed: [f] maps each position to where its entry started. *)
Definition minweight_inv (x : Z) (s : list Z * list Z) : Prop :=
  let '(counts, elements) := s in
  length counts = 256%nat
  /\ length elements = 256%nat
  /\ (exists f : Z -> Z,
        (forall j, 0 <= j < 256 -> 0 <= f j < 256)
        /\ (forall i j, 0 <= i < 256 -> 0 <= j < 256 -> f i = f j -> i = j)
        /\ (forall j, 0 <= j < 256 -> get elements j = get elements0 (f j))
        /\ (forall j, 0 <= j < 256 -> get counts j = get ONES (f j)))
  /\ (forall i j, 0 <= i < x -> i <= j < 256 -> get counts i <= get counts j).

Lemma SortMinWeightElements_inv :
  minweight_inv 256
    (for_range 0 256
       (fun x '(counts, elements) =>
          let '(smallest, best_x) := find_smallest counts x 256 in
          let counts := set counts best_x (get counts x) in
          let counts := set counts x smallest in
          let temp := get elements best_x in
          let elements := set elements best_x (get elements x) in
          let elements := set elements x temp in
          (counts, elements))
       (map (fun x => get ONES x) (zrange 0 256), elements0)).
Proof.
  apply (for_range_inv minweight_inv); [lia| |].
  - unfold minweight_inv.
    split; [rewrite length_map, length_zrange; lia|].
    split; [exact Hlen|].
    split; [|intros; lia].
    exists (fun j => j).
    split; [auto|]; split; [auto|]; split; [auto|].
    intros j Hj; now rewrite get_map_zrange.
  - intros x [counts elements] Hx; unfold minweight_inv.
    intros (Hc & He & (f & Hfr & Hfi & Hfe & Hfc) & Hsorted).
    pose proof (find_smallest_spec counts x 256 ltac:(lia)) as Hfs.
    destruct (find_smallest counts x 256) as [sm b]; cbn [fst snd] in Hfs.
    destruct Hfs as (Hb & Hsm & Hmin & _).
    assert (Ecounts : forall j, 0 <= j < 256 ->
              get (set (set counts b (get counts x)) x sm) j
              = get counts (transp x b j)).
    { intros j Hj.
      rewrite get_set by (rewrite ?length_set; lia).
      rewrite get_set by lia.
      unfold transp.
      destruct (Z.eqb_spec j x) as [->|]; [exact Hsm|].
      destruct (Z.eqb_spec j b) as [->|]; reflexivity. }
    assert (Eelems : forall j, 0 <= j < 256 ->
              get (set (set elements b (get elements x)) x (get elements b)) j
              = get elements (transp x b j)).
    { intros j Hj.
      rewrite get_set by (rewrite ?length_set; lia).
      rewrite get_set by lia.
      unfold transp.
      destruct (Z.eqb_spec j x) as [->|]; [reflexivity|].
      destruct (Z.eqb_spec j b) as [->|]; reflexivity. }
    split; [now rewrite !length_set|].
    split; [now rewrite !length_set|].
    split.
    + exists (fun j => f (transp x b j)).
      split; [intros j Hj; apply Hfr, transp_range; auto; lia|].
      split.
      { intros i j Hi Hj E.
        apply Hfi in E; try (apply transp_range; auto; lia).
        rewrite <- (transp_involutive x b i), E.
        apply transp_involutive. }
      split.
      * intros j Hj; rewrite Eelems by auto.
        apply Hfe, transp_range; auto; lia.
      * intros j Hj; rewrite Ecounts by auto.
        apply Hfc, transp_range; auto; lia.
    + intros i j Hi Hj.
      rewrite !Ecounts by lia.
      destruct (Z.eq_dec i x) as [->|Hix].
      * replace (transp x b x) with b by (unfold transp; now rewrite Z.eqb_refl).
        rewrite <- Hsm; apply Hmin.
        unfold transp.
        destruct (Z.eqb_spec j x); [lia|]; destruct (Z.eqb_spec j b); lia.
      * replace (transp x b i) with i.
        -- apply Hsorted; [lia|].
           unfold transp.
           destruct (Z.eqb_spec j x); [lia|]; destruct (Z.eqb_spec j b); lia.
        -- unfold transp.
           destruct (Z.eqb_spec i x); [lia|]; destruct (Z.eqb_spec i b); lia.
Qed.
End MinWeightOrder.

(** X8: [SortMinWeightElements] permutes the 256 elements it is given, for
    any weight table; started on the identity table, as [main] does, it
    leaves a permutation of 0..255 whose weights [CAUCHY_ONES[.]] are
    non-decreasing along the table. *)
Theorem SortMinWeightElements_sorts ONES elements :
  length elements = 256%nat ->
  Permutation (SortMinWeightElements ONES elements) elements
  /\ (let MW := SortMinWeightElements ONES (zrange 0 256) in
      Permutation MW (zrange 0 256)
      /\ forall i j, 0 <= i <= j /\ j < 256 ->
           get ONES (get MW i) <= get ONES (get MW j)).
Proof.
  intros Hlen.
  assert (P : forall e0, length e0 = 256%nat ->
            Permutation (SortMinWeightElements ONES e0) e0
            /\ forall i j, 0 <= i <= j /\ j < 256 ->
                 (forall v, 0 <= v < 256 -> get e0 v = v) ->
                 get ONES (get (SortMinWeightElements ONES e0) i)
                 <= get ONES (get (SortMinWeightElements ONES e0) j)).
  { intros e0 He0; unfold SortMinWeightElements.
    pose proof (SortMinWeightElements_inv ONES e0 He0) as I.
    match type of I with
    | minweight_inv _ _ _ ?s => destruct s as [counts out]
    end.
    cbn [snd]; unfold minweight_inv in I.
    destruct I as (Hc & Ho & (f & Hfr & Hfi & Hfe & Hfc) & Hsorted).
    split.
    - assert (Ee : map (get e0) (zrange 0 256) = e0).
      { pose proof (map_get_zrange e0) as E; now rewrite He0 in E. }
      assert (Eo : map (get e0) (map f (zrange 0 256)) = out).
      { pose proof (map_get_zrange out) as E; rewrite Ho in E.
        rewrite <- E, map_map.
        apply map_ext_in; intros j Hj; apply in_zrange in Hj.
        symmetry; now apply Hfe. }
      rewrite <- Eo.
      apply Permutation_trans with (map (get e0) (zrange 0 256));
        [|now rewrite Ee].
      apply Permutation_map, injective_range_perm; auto.
    - intros i j Hij Hid.
      rewrite !Hfe, !Hid by (try apply Hfr; lia).
      rewrite <- !Hfc by lia.
      apply Hsorted; lia. }
  split; [now apply P|].
  assert (Hz : length (zrange 0 256) = 256%nat) by now rewrite length_zrange.
  destruct (P (zrange 0 256) Hz) as [P1 P2].
  intros MW; split; [exact P1|].
  intros i j Hij; apply P2; auto.
  intros v Hv.
  unfold get; replace (Z.to_nat v) with (Z.to_nat (v - 0)) by lia.
  rewrite <- (map_id (zrange 0 256)).
  now rewrite nth_map_zrange.
Qed.

Lemma SortMinWeightElements_sorts_witness :
  let ONES := CAUCHY_ONES (InitTables FAVORITE_POLY) in
  Permutation (SortMinWeightElements ONES (repeat 7 256)) (repeat 7 256)
  /\ (let MW := SortMinWeightElements ONES (zrange 0 256) in
      Permutation MW (zrange 0 256)
      /\ forall i j, 0 <= i <= j /\ j < 256 ->
           get ONES (get MW i) <= get ONES (get MW j)).
Proof.
  intros ONES.
  apply (SortMinWeightElements_sorts ONES (repeat 7 256)).
  reflexivity.
Defined.

(** ** The shuffle and its buffer *)

Section ShuffleBuffer.
Variable prng : Type.
Variable Next : prng -> Z * prng.

(** The first [ii] cards after a deal are a function of the first [ii]
    cards before it. *)
Lemma firstn_deal deck ii r :
  length deck = 256%nat -> 1 <= ii <= 255 -> 0 <= r ->
  firstn (S (Z.to_nat ii)) (deal deck ii r)
  = upd (Z.to_nat (r mod ii)) ii (firstn (Z.to_nat ii) deck)
    ++ [nth (Z.to_nat (r mod ii)) (firstn (Z.to_nat ii) deck) 0].
Proof.
  intros HL Hii Hr; unfold deal.
  pose proof (Z.mod_pos_bound r ii ltac:(lia)) as Hjj.
  set (jj := r mod ii) in *.
  rewrite u8_small by lia.
  unfold set.
  destruct (Z.ltb_spec jj 0); [lia|]; destruct (Z.ltb_spec ii 0); [lia|].
  rewrite firstn_upd_lt by lia.
  rewrite firstn_upd_last by lia.
  rewrite upd_app_l by (rewrite length_firstn; lia).
  unfold get.
  now rewrite <- (nth_firstn_lt (Z.to_nat jj) (Z.to_nat ii) deck 0) by lia.
Qed.

(** Two decks with the same first [ii] cards. *)
Definition decks_agree (ii : Z) (d1 d2 : list Z) : Prop :=
  length d1 = 256%nat /\ length d2 = 256%nat
  /\ firstn (Z.to_nat ii) d1 = firstn (Z.to_nat ii) d2.

Lemma deal_agree d1 d2 ii r :
  1 <= ii <= 255 -> 0 <= r ->
  decks_agree ii d1 d2 -> decks_agree (ii + 1) (deal d1 ii r) (deal d2 ii r).
Proof.
  intros Hii Hr (L1 & L2 & E).
  split; [unfold deal; now rewrite !length_set|].
  split; [unfold deal; now rewrite !length_set|].
  replace (Z.to_nat (ii + 1)) with (S (Z.to_nat ii)) by lia.
  now rewrite !firstn_deal, E by auto.
Qed.

Lemma decks_agree_all d1 d2 : decks_agree 256 d1 d2 -> d1 = d2.
Proof.
  intros (L1 & L2 & E).
  rewrite !firstn_all2 in E by lia; exact E.
Qed.

Lemma ShuffleDeck8_loop_buffer ii p d1 : forall d2,
  1 <= ii <= 256 -> decks_agree ii d1 d2 ->
  ShuffleDeck8_loop prng Next ii p d1 = ShuffleDeck8_loop prng Next ii p d2.
Proof.
  funelim (ShuffleDeck8_loop prng Next ii p d1); intros d2 Hii Hag.
  - (* the last word *)
    rewrite (ShuffleDeck8_loop_equation_1 prng Next ii p d2), Heq.
    cbn [ShuffleDeck8_loop_unfold_clause_1]; cbv zeta.
    clear Heq Heqcall.
    rewrite (u32_small (256 - ii)) in * by lia.
    f_equal.
    destruct (Z.eqb_spec (256 - ii) 3) as [E3|N3].
    { unfold case_3, case_2, case_1.
      rewrite !(u32_small (_ + 1)) by lia.
      apply decks_agree_all.
      replace 256 with (ii + 1 + 1 + 1) by lia.
      repeat (apply deal_agree; [lia|apply u8_nonneg|]); exact Hag. }
    destruct (Z.eqb_spec (256 - ii) 2) as [E2|N2].
    { unfold case_2, case_1.
      rewrite !(u32_small (_ + 1)) by lia.
      apply decks_agree_all.
      replace 256 with (ii + 1 + 1) by lia.
      repeat (apply deal_agree; [lia|apply u8_nonneg|]); exact Hag. }
    destruct (Z.eqb_spec (256 - ii) 1) as [E1|N1].
    { unfold case_1.
      apply decks_agree_all.
      replace 256 with (ii + 1) by lia.
      apply deal_agree; [lia|apply u8_nonneg|]; exact Hag. }
    apply decks_agree_all.
    replace 256 with ii by lia; exact Hag.
  - (* four draws and another turn *)
    rewrite (ShuffleDeck8_loop_equation_1 prng Next ii p d2), Heq.
    cbn [ShuffleDeck8_loop_unfold_clause_1]; cbv zeta.
    clear Heq Heqcall.
    rewrite (u32_small (256 - ii)) in * by lia.
    rewrite (u32_small (ii + 4)) in * by lia.
    match goal with
    | IH : forall d2, _ -> _ -> _ = _ |- _ => apply IH; [lia|]
    end.
    unfold case_default.
    rewrite !(u32_small (_ + 1)) by lia.
    replace (ii + 4) with (ii + 1 + 1 + 1 + 1) by lia.
    repeat (apply deal_agree; [lia|apply u8_nonneg|]); exact Hag.
Qed.

Lemma ShuffleDeck8_loop_words ii p deck :
  1 <= ii <= 256 ->
  snd (ShuffleDeck8_loop prng Next ii p deck)
  = Nat.iter (Z.to_nat ((256 - ii) / 4) + 1) (fun q => snd (Next q)) p.
Proof.
  funelim (ShuffleDeck8_loop prng Next ii p deck); intros Hii.
  - clear Heq Heqcall.
    rewrite (u32_small (256 - ii)) in * by lia.
    replace ((256 - ii) / 4) with 0 by (Z.div_mod_to_equations; lia).
    reflexivity.
  - clear Heq Heqcall.
    rewrite (u32_small (256 - ii)) in * by lia.
    rewrite (u32_small (ii + 4)) in * by lia.
    match goal with
    | IH : _ -> snd _ = _ |- _ => rewrite IH by lia
    end.
    replace (Z.to_nat ((256 - ii) / 4) + 1)%nat
      with (S (Z.to_nat ((256 - (ii + 4)) / 4) + 1))
      by (Z.div_mod_to_equations; lia).
    now rewrite Nat.iter_succ_r.
Qed.
End ShuffleBuffer.

(** X9: [ShuffleDeck8] never lets the previous contents of the deck through:
    started on any two 256-byte buffers with the same generator state, it
    leaves the same deck and the same generator state. *)
Theorem ShuffleDeck8_ignores_buffer (prng : Type) (Next : prng -> Z * prng)
    (p : prng) (deck1 deck2 : list Z) :
  length deck1 = 256%nat -> length deck2 = 256%nat ->
  ShuffleDeck8 prng Next p deck1 = ShuffleDeck8 prng Next p deck2.
Proof.
  intros L1 L2; unfold ShuffleDeck8.
  apply ShuffleDeck8_loop_buffer; [lia|].
  split; [now rewrite length_set|]; split; [now rewrite length_set|].
  destruct deck1 as [|h1 t1]; [discriminate L1|].
  destruct deck2 as [|h2 t2]; [discriminate L2|].
  reflexivity.
Qed.

Lemma ShuffleDeck8_ignores_buffer_witness :
  let Next := fun p : Z => (p, (p * 1103515245 + 12345) mod 4294967296) in
  ShuffleDeck8 Z Next 1 (repeat 0 256) = ShuffleDeck8 Z Next 1 (repeat 7 256).
Proof.
  intros Next.
  apply (ShuffleDeck8_ignores_buffer Z Next 1 (repeat 0 256) (repeat 7 256));
    reflexivity.
Defined.

(** X10: one call of [ShuffleDeck8] draws exactly 64 words from the
    generator, whatever they are and whatever the deck holds. *)
Theorem ShuffleDeck8_draws_64_words (prng : Type) (Next : prng -> Z * prng)
    (p : prng) (deck : list Z) :
  snd (ShuffleDeck8 prng Next p deck) = Nat.iter 64 (fun q => snd (Next q)) p.
Proof.
  unfold ShuffleDeck8.
  rewrite ShuffleDeck8_loop_words by lia.
  reflexivity.
Qed.

(** ** The best matrix of the search *)

Section BestMatrix.
Variable T : Tables.
Variable prng : Type.
Variable Next : prng -> Z * prng.
Variables k m : Z.
Hypothesis Hk : 0 <= k.
Hypothesis Hm : 1 <= m.

Lemma memcpy_all (dst src : list Z) :
  Z.of_nat (length dst) = k * m -> Z.of_nat (length src) = k * m ->
  memcpy dst src (k * m) = src.
Proof.
  intros Hd Hs; unfold memcpy.
  rewrite firstn_all2, skipn_all2 by lia.
  apply app_nil_r.
Qed.

(** What the search keeps: both buffers have [k * m] cells, and either
    nothing was found yet or [best] weighs [least]. *)
Definition best_inv (best0 : list Z) (s : explore prng) : Prop :=
  Z.of_nat (length (ex_matrix prng s)) = k * m
  /\ Z.of_nat (length (ex_best prng s)) = k * m
  /\ ((ex_least prng s = INT_MAX /\ ex_best prng s = best0)
      \/ ex_least prng s = CountMatrixOnes T k k m (ex_best prng s)).

Lemma Explore_iter_best best0 s :
  best_inv best0 s -> best_inv best0 (Explore_iter prng Next T k m s).
Proof.
  intros (LM & LB & HB); unfold Explore_iter.
  destruct (ShuffleDeck8 prng Next (ex_prng prng s) (ex_XY prng s)) as [XY p].
  pose proof (GenerateCauchyMatrix_score_inv T k m (ex_matrix prng s) XY
                (skipn (Z.to_nat k) XY) Hk Hm LM) as I.
  destruct (cauchy_raw_spec T k m XY (skipn (Z.to_nat k) XY) Hk
              (ex_matrix prng s) Hm LM) as (RL & R0 & _).
  destruct (GenerateCauchyMatrix T k m (ex_matrix prng s) XY
              (skipn (Z.to_nat k) XY)) as [[out ones] dv].
  destruct (score_inv_total T k m _ out ones dv Hk Hm R0 I) as [E L].
  assert (Lout : Z.of_nat (length out) = k * m) by congruence.
  destruct (ones <? ex_least prng s); unfold best_inv; cbn.
  - rewrite memcpy_all by auto.
    split; [exact Lout|]; split; [exact Lout|]; right; exact E.
  - split; [exact Lout|]; split; [exact LB|exact HB].
Qed.
End BestMatrix.

(** X11: at every turn of the search loop of [Explore], either no matrix
    has been kept yet ([least] is still [INT_MAX] and [best] is untouched)
    or [least] is exactly the bit-weight [CountMatrixOnes(k, k, m, best)] of
    the matrix kept in [best]. *)
Theorem Explore_best_has_least_weight (prng : Type) (Next : prng -> Z * prng)
    T k m n p XY matrix best :
  0 <= k -> 1 <= m ->
  Z.of_nat (length matrix) = k * m -> Z.of_nat (length best) = k * m ->
  let s := Explore_loop prng Next T k m n p XY matrix best in
  (ex_least prng s = INT_MAX /\ ex_best prng s = best)
  \/ ex_least prng s = CountMatrixOnes T k k m (ex_best prng s).
Proof.
  intros Hk Hm LM LB s; subst s; unfold Explore_loop.
  assert (I : best_inv T prng k m best
                (for_range 0 n (fun _ => Explore_iter prng Next T k m)
                   {| ex_prng := p; ex_XY := XY; ex_matrix := matrix;
                      ex_best := best; ex_least := INT_MAX |})).
  { apply for_range_preserve.
    - unfold best_inv; cbn; auto.
    - intros i s _ Hs; now apply Explore_iter_best. }
  destruct I as (_ & _ & HB); exact HB.
Qed.

Lemma Explore_best_has_least_weight_witness :
  let Next := fun p : Z => (p, (p * 1103515245 + 12345) mod 4294967296) in
  let T := InitTables FAVORITE_POLY in
  let s := Explore_loop Z Next T 29 3 5 1 (repeat 0 256)
             (repeat 0 87) (repeat 0 87) in
  (ex_least Z s = INT_MAX /\ ex_best Z s = repeat 0 87)
  \/ ex_least Z s = CountMatrixOnes T 29 29 3 (ex_best Z s).
Proof.
  intros Next T.
  apply (Explore_best_has_least_weight Z Next T 29 3 5 1 (repeat 0 256)
           (repeat 0 87) (repeat 0 87)); try lia; reflexivity.
Defined.

(** ** The greedy solver and the Cauchy relation *)

Lemma scan_row_some T MW A AF sn cands a G :
  scan_row T MW A AF sn cands = Some (a, G) ->
  exists c, In c cands
    /\ a = get MW c
    /\ G = div T (Z.lxor AF (mul T a A)) a
    /\ get sn G = 0.
Proof.
  induction cands as [|c rest IH]; cbn [scan_row]; [discriminate|].
  destruct (Z.eqb_spec
              (get sn (div T (Z.lxor AF (mul T (get MW c) A)) (get MW c))) 0)
    as [E|NE].
  - intros H; injection H as <- <-.
    exists c; repeat split; auto; now left.
  - intros H; destruct (IH H) as (c' & Hin & Hr).
    exists c'; split; [now right|exact Hr].
Qed.

(** The candidates of the scan are nonzero bytes. *)
Lemma minweight_candidates ii c :
  0 <= ii < 16 -> 1 <= c <= 255 ->
  1 <= get (MINWEIGHT_TABLE (InitTables ii)) c <= 255.
Proof.
  intros Hii Hc; unfold MINWEIGHT_TABLE.
  pose proof (all_in_spec _ _ _ weights_check_all ii Hii) as C.
  cbv beta in C; apply weights_check_spec in C.
  rewrite <- (CAUCHY_ONES_entry ii Hii) in C.
  destruct C as (_ & _ & _ & P).
  assert (Hin : In (get (SortMinWeightElements (CAUCHY_ONES (InitTables ii))
                           (zrange 0 256)) c)
                  (zrange 1 256)).
  { apply (Permutation_in _ P), in_map, in_zrange; lia. }
  apply in_zrange in Hin; lia.
Qed.

Section GreedyCauchy.
Variable ii : Z.
Hypothesis Hii : 0 <= ii < 16.
Let T := InitTables ii.
Let MW := MINWEIGHT_TABLE T.
Variables A F : Z.
Hypothesis HA : is_byte A.
Hypothesis HF : is_byte F.
Hypothesis HAF : A <> F.

Lemma div_byte x y : is_byte x -> is_byte y -> is_byte (div T x y).
Proof.
  unfold is_byte; intros Hx Hy.
  destruct (Z.eq_dec y 0) as [->|Ny].
  { unfold T; rewrite div_zero_r; auto; unfold is_byte; lia. }
  destruct (Z.eq_dec x 0) as [->|Nx].
  { unfold T; rewrite div_zero_l; auto; unfold is_byte; lia. }
  pose proof (div_nonzero ii Hii x y ltac:(lia) ltac:(lia)) as H.
  fold T in H; lia.
Qed.

(** The value the solver derives for a candidate [a], and what it means:
    [a * (A + G) = A + F]. *)
Lemma greedy_candidate a :
  1 <= a <= 255 ->
  let G := div T (Z.lxor (Z.lxor A F) (mul T a A)) a in
  is_byte G
  /\ mul T a (Z.lxor A G) = Z.lxor A F
  /\ G <> A
  /\ a = div T (Z.lxor A F) (Z.lxor G A).
Proof.
  intros Ha G.
  assert (Ba : is_byte a) by (unfold is_byte; lia).
  assert (BaA : is_byte (mul T a A)) by (apply mul_byte; auto).
  assert (Bu : is_byte (Z.lxor (Z.lxor A F) (mul T a A)))
    by auto using lxor_byte.
  assert (BG : is_byte G) by (apply div_byte; auto).
  assert (EaG : mul T a G = Z.lxor (Z.lxor A F) (mul T a A)).
  { unfold T; rewrite mul_comm by auto.
    apply (mul_div ii Hii); auto. }
  assert (Erel : mul T a (Z.lxor A G) = Z.lxor A F).
  { unfold T; rewrite mul_comm by auto using lxor_byte.
    rewrite (mul_distr_l ii Hii) by auto.
    rewrite (mul_comm ii Hii A a), (mul_comm ii Hii G a) by auto.
    fold T; rewrite EaG.
    apply Z.bits_inj'; intros n Hn; rewrite !Z.lxor_spec.
    destruct (Z.testbit (mul T a A) n), (Z.testbit A n), (Z.testbit F n);
      reflexivity. }
  assert (Hnz : Z.lxor A F <> 0) by (intros E; apply Z.lxor_eq in E; auto).
  assert (HGA : G <> A).
  { intros E; rewrite E, Z.lxor_nilpotent in Erel.
    unfold T in Erel; rewrite mul_zero_r in Erel by auto.
    congruence. }
  split; [exact BG|]; split; [exact Erel|]; split; [exact HGA|].
  rewrite <- Erel, (Z.lxor_comm G A).
  symmetry; apply (div_mul ii Hii); auto.
  apply lxor_distinct_bytes; auto.
Qed.

Variable m : Z.
Hypothesis Hm : 1 <= m <= 255.
Variables X Y matrix : list Z.
Hypothesis HLX : length X = 256%nat.
Hypothesis HLY : length Y = 256%nat.
Hypothesis HLM : Z.of_nat (length matrix) = (256 - m) * m.

(** What holds when the loop reaches row [y] with every earlier row found. *)
Definition rows_ok (y : Z) (s : solver) : Prop :=
  length (seen s) = 256%nat
  /\ length (sol_Y s) = 256%nat
  /\ length (sol_matrix s) = length matrix
  /\ get (seen s) A = 1 /\ get (seen s) F = 1
  /\ get (sol_X s) 0 = A /\ get (sol_Y s) 0 = F
  /\ (forall y', 1 <= y' < y ->
        is_byte (get (sol_Y s) y')
        /\ get (seen s) (get (sol_Y s) y') = 1
        /\ get (sol_Y s) y' <> A
        /\ get (sol_Y s) y' <> F
        /\ 1 <= get (sol_matrix s) (y' * (256 - m)) <= 255
        /\ get (sol_matrix s) (y' * (256 - m))
           = div T (Z.lxor A F) (Z.lxor (get (sol_Y s) y') A))
  /\ (forall y1 y2, 1 <= y1 < y2 -> y2 < y ->
        get (sol_Y s) y1 <> get (sol_Y s) y2).

Lemma rows_ok_init : rows_ok 1 (solver_init A F m X Y matrix).
Proof.
  unfold is_byte in *.
  unfold rows_ok, solver_init; cbn [seen sol_X sol_Y sol_matrix].
  split; [now rewrite !length_set, repeat_length|].
  split; [now rewrite length_set|].
  split.
  { apply (for_range_preserve (fun M => length M = length matrix)); auto.
    intros i M _ H; now rewrite length_set. }
  split.
  { rewrite get_set_ne by lia.
    apply get_set_eq; rewrite repeat_length; lia. }
  split; [apply get_set_eq; rewrite length_set, repeat_length; lia|].
  split; [apply get_set_eq; lia|].
  split; [apply get_set_eq; lia|].
  split; intros; lia.
Qed.

Lemma solve_row_ok y s :
  1 <= y < m ->
  scan_row T MW A (Z.lxor A F) (seen s) (zrange 1 256) <> None ->
  rows_ok y s -> rows_ok (y + 1) (solve_row T MW A F (256 - m) y s).
Proof.
  intros Hy Hfound (LS & LY & LM & SA & SF & X0 & Y0 & Hrows & Hdist).
  unfold solve_row.
  destruct (scan_row T MW A (Z.lxor A F) (seen s) (zrange 1 256))
    as [[a G]|] eqn:Es; [clear Hfound|congruence].
  destruct (scan_row_some _ _ _ _ _ _ _ _ Es) as (c & Hc & Ea & EG & SG).
  apply in_zrange in Hc.
  assert (Ha : 1 <= a <= 255)
    by (rewrite Ea; apply minweight_candidates; auto; lia).
  destruct (greedy_candidate a Ha) as (BG & Erel & HGA & Ediv).
  rewrite <- EG in BG, Erel, HGA, Ediv.
  assert (HGF : G <> F) by (intros E; rewrite E in SG; lia).
  unfold is_byte in *.
  unfold rows_ok; cbn [seen sol_X sol_Y sol_matrix].
  split; [now rewrite length_set|].
  split; [now rewrite length_set|].
  split; [now rewrite length_set|].
  split; [rewrite get_set_ne by lia; exact SA|].
  split; [rewrite get_set_ne by lia; exact SF|].
  split; [exact X0|].
  split; [rewrite get_set_ne by lia; exact Y0|].
  split.
  - intros y' Hy'.
    destruct (Z.eq_dec y' y) as [->|Hne].
    + rewrite !get_set_eq by nia.
      repeat split; auto; lia.
    + destruct (Hrows y' ltac:(lia)) as (B' & S' & NA & NF & R' & D').
      rewrite (get_set_ne (sol_Y s)) by lia.
      rewrite (get_set_ne (sol_matrix s)) by nia.
      rewrite get_set by lia.
      destruct (Z.eqb_spec (get (sol_Y s) y') G); repeat split; auto; lia.
  - intros y1 y2 H1 H2.
    destruct (Z.eq_dec y2 y) as [->|Hne].
    + rewrite get_set_eq by lia.
      rewrite get_set_ne by lia.
      destruct (Hrows y1 ltac:(lia)) as (_ & S1 & _).
      intros E; rewrite E in S1; lia.
    + rewrite !get_set_ne by lia.
      apply Hdist; lia.
Qed.

Lemma rows_before_ok y :
  1 <= y <= m ->
  (forall y', 1 <= y' < y ->
     scan_row T MW A (Z.lxor A F)
       (seen (rows_before T MW A F m y' X Y matrix)) (zrange 1 256) <> None) ->
  rows_ok y (rows_before T MW A F m y X Y matrix).
Proof.
  intros Hy Hfound.
  assert (G : y <= y ->
              for_range 1 y (solve_row T MW A F (256 - m))
                (solver_init A F m X Y matrix)
              = rows_before T MW A F m y X Y matrix
              /\ rows_ok y (for_range 1 y (solve_row T MW A F (256 - m))
                              (solver_init A F m X Y matrix))).
  { apply (for_range_inv
             (fun i s => (i <= y -> s = rows_before T MW A F m i X Y matrix
                                    /\ rows_ok i s))); [lia| |].
    - intros _; split; [|exact rows_ok_init].
      unfold rows_before; now rewrite for_range_empty by lia.
    - intros i s Hi IH _.
      destruct (IH ltac:(lia)) as [-> Hok].
      split; [now rewrite rows_before_succ by lia|].
      apply solve_row_ok; [lia|apply Hfound; lia|exact Hok]. }
  exact (proj2 (G (Z.le_refl y))).
Qed.
End GreedyCauchy.

Lemma main_rows_found m X Y matrix y :
  1 <= y -> y <= 254 ->
  scan_row main_tables main_minweight seed_A (Z.lxor seed_A seed_F)
    (seen (rows_before main_tables main_minweight seed_A seed_F m y X Y matrix))
    (zrange 1 256) <> None.
Proof.
  intros Hy1 Hy2.
  destruct (rows_run_spec main_tables main_minweight seed_A seed_F (256 - m)
              255 1 (solver_init seed_A seed_F m X Y matrix) 254 (repeat 1 256)
              main_rows_run) as (_ & Hfound & _).
  unfold rows_before.
  replace y with (1 + (y - 1)) at 1 by lia.
  apply Hfound; lia.
Qed.

(** X12: what the row phase of [SolveBestMatrix] builds when no scan is
    exhausted.  With the tables of a catalogue polynomial, a seed of two
    distinct bytes and 1 <= m <= 255: X[0] is A and Y[0] is F; each Y[y] is
    a byte other than A; Y[0..m-1] are pairwise distinct; and the cell
    written in column 0 of row y is the nonzero value
    (X[0] + F) / (Y[y] + X[0]), the same formula the column phase uses for
    the other columns. *)
Theorem SolveBestMatrix_rows_cauchy ii A F m X Y matrix :
  0 <= ii < 16 -> is_byte A -> is_byte F -> A <> F -> 1 <= m <= 255 ->
  length X = 256%nat -> length Y = 256%nat ->
  Z.of_nat (length matrix) = (256 - m) * m ->
  let T := InitTables ii in
  let MW := MINWEIGHT_TABLE T in
  (forall y, 1 <= y < m ->
     scan_row T MW A (Z.lxor A F)
       (seen (rows_before T MW A F m y X Y matrix)) (zrange 1 256) <> None) ->
  let s := SolveBestMatrix_rows T MW A F m X Y matrix in
  get (sol_X s) 0 = A
  /\ get (sol_Y s) 0 = F
  /\ (forall y, 1 <= y < m ->
        is_byte (get (sol_Y s) y)
        /\ get (sol_Y s) y <> A
        /\ 1 <= get (sol_matrix s) (y * (256 - m)) <= 255
        /\ get (sol_matrix s) (y * (256 - m))
           = div T (Z.lxor (get (sol_X s) 0) F)
                   (Z.lxor (get (sol_Y s) y) (get (sol_X s) 0)))
  /\ (forall y1 y2, 0 <= y1 < y2 -> y2 < m ->
        get (sol_Y s) y1 <> get (sol_Y s) y2).
Proof.
  intros Hii HA HF HAF Hm LX LY LM T MW Hfound s.
  pose proof (rows_before_ok ii Hii A F HA HF HAF m Hm X Y matrix LX LY LM m
                ltac:(lia) Hfound) as I.
  unfold s; rewrite SolveBestMatrix_rows_eq.
  fold T MW in I.
  destruct I as (_ & _ & _ & _ & _ & X0 & Y0 & Hrows & Hdist).
  split; [exact X0|]; split; [exact Y0|]; split.
  - intros y Hy.
    destruct (Hrows y Hy) as (B & _ & NA & _ & R & D).
    rewrite X0; auto.
  - intros y1 y2 H1 H2.
    destruct (Z.eq_dec y1 0) as [->|N0].
    + rewrite Y0.
      destruct (Hrows y2 ltac:(lia)) as (_ & _ & _ & NF & _).
      congruence.
    + apply Hdist; lia.
Qed.

Lemma SolveBestMatrix_rows_cauchy_witness :
  let T := InitTables FAVORITE_POLY in
  let MW := MINWEIGHT_TABLE T in
  let X := repeat 0 256 in
  let Y := repeat 0 256 in
  let matrix := repeat 0 759 in
  let s := SolveBestMatrix_rows T MW seed_A seed_F 3 X Y matrix in
  get (sol_X s) 0 = seed_A
  /\ get (sol_Y s) 0 = seed_F
  /\ (forall y, 1 <= y < 3 ->
        is_byte (get (sol_Y s) y)
        /\ get (sol_Y s) y <> seed_A
        /\ 1 <= get (sol_matrix s) (y * (256 - 3)) <= 255
        /\ get (sol_matrix s) (y * (256 - 3))
           = div T (Z.lxor (get (sol_X s) 0) seed_F)
                   (Z.lxor (get (sol_Y s) y) (get (sol_X s) 0)))
  /\ (forall y1 y2, 0 <= y1 < y2 -> y2 < 3 ->
        get (sol_Y s) y1 <> get (sol_Y s) y2).
Proof.
  intros T MW X Y matrix.
  apply (SolveBestMatrix_rows_cauchy FAVORITE_POLY seed_A seed_F 3 X Y matrix);
    unfold FAVORITE_POLY, seed_A, seed_F, is_byte; try lia; try reflexivity.
  intros y Hy.
  apply (main_rows_found 3 X Y matrix y); lia.
Defined.

(** X13: with the tables and the seed (A, F) = (1, 0) that [main] fixes, no
    scan of the row phase is ever exhausted for m <= 255: every row 1..m-1
    finds a candidate whose derived value is unseen, whatever the buffers
    hold, and that value is what the row stores in Y[y]. *)
Theorem SolveBestMatrix_rows_main_never_exhausted m X Y matrix y :
  1 <= y < m -> m <= 255 -> length Y = 256%nat ->
  exists a G,
    scan_row main_tables main_minweight seed_A (Z.lxor seed_A seed_F)
      (seen (rows_before main_tables main_minweight seed_A seed_F m y
               X Y matrix))
      (zrange 1 256) = Some (a, G)
    /\ get (sol_Y (rows_before main_tables main_minweight seed_A seed_F m
                     (y + 1) X Y matrix)) y = G.
Proof.
  intros Hy Hm LY.
  pose proof (main_rows_found m X Y matrix y ltac:(lia) ltac:(lia)) as Hf.
  destruct (scan_row main_tables main_minweight seed_A (Z.lxor seed_A seed_F)
              (seen (rows_before main_tables main_minweight seed_A seed_F m y
                       X Y matrix)) (zrange 1 256))
    as [[a G]|] eqn:Es; [|congruence].
  exists a, G; split; [reflexivity|].
  rewrite rows_before_succ by lia.
  unfold solve_row; rewrite Es; cbn [sol_Y].
  apply get_set_eq.
  assert (L : length (sol_Y (rows_before main_tables main_minweight seed_A
                               seed_F m y X Y matrix)) = 256%nat).
  { unfold rows_before.
    apply (for_range_preserve (fun s => length (sol_Y s) = 256%nat)).
    - unfold solver_init; cbn [sol_Y]; now rewrite length_set.
    - intros i s _ H; unfold solve_row.
      destruct (scan_row main_tables main_minweight seed_A
                  (Z.lxor seed_A seed_F) (seen s) (zrange 1 256)) as [[? ?]|];
        cbn [sol_Y]; [now rewrite length_set|exact H]. }
  rewrite L; lia.
Qed.

Lemma SolveBestMatrix_rows_main_never_exhausted_witness :
  exists a G,
    scan_row main_tables main_minweight seed_A (Z.lxor seed_A seed_F)
      (seen (rows_before main_tables main_minweight seed_A seed_F 4 2
               (repeat 0 256) (repeat 0 256) (repeat 0 1008)))
      (zrange 1 256) = Some (a, G)
    /\ get (sol_Y (rows_before main_tables main_minweight seed_A seed_F 4
                     (2 + 1) (repeat 0 256) (repeat 0 256) (repeat 0 1008)))
           2 = G.
Proof.
  apply (SolveBestMatrix_rows_main_never_exhausted 4 (repeat 0 256)
           (repeat 0 256) (repeat 0 1008) 2); [lia | lia | reflexivity].
Defined.

(** ** The greedy solver, column phase *)

Section ColumnChoice.
Variable T : Tables.
Hypothesis ONES_byte : forall c, 0 <= get (CAUCHY_ONES T) c <= 255.
Variables F m : Z.
Variables sn Y : list Z.
Hypothesis Hm : 1 <= m <= 256.

Lemma candidate_ones_bounds B :
  0 <= candidate_ones T F m Y B <= 255 * (m - 1).
Proof.
  unfold candidate_ones.
  assert (G : 0 <= for_range 1 m
                (fun y ones =>
                   let b := div T (u8 (Z.lxor B F)) (u8 (Z.lxor (get Y y) B)) in
                   ones + get (CAUCHY_ONES T) b) 0 <= 255 * (m - 1)).
  { apply (for_range_inv (fun y ones => 0 <= ones <= 255 * (y - 1)));
      [lia|lia|].
    intros y ones Hy H; cbv zeta.
    pose proof (ONES_byte (div T (u8 (Z.lxor B F)) (u8 (Z.lxor (get Y y) B)))).
    lia. }
  exact G.
Qed.

(** What the loop over [B] returns: nothing unseen and the initial pair, or
    the first unseen option of least weight. *)
Lemma select_column_spec :
  let r := select_column T F m sn Y in
  ((forall B, 0 <= B < 256 -> get sn B <> 0) /\ r = (INT_MAX, 0))
  \/ (0 <= snd r < 256
      /\ get sn (snd r) = 0
      /\ fst r = candidate_ones T F m Y (snd r)
      /\ (forall B, 0 <= B < 256 -> get sn B = 0 ->
            fst r <= candidate_ones T F m Y B)
      /\ (forall B, 0 <= B < snd r -> get sn B = 0 ->
            fst r < candidate_ones T F m Y B)).
Proof.
  intros r; subst r; unfold select_column.
  apply (for_range_inv
           (fun n (r : Z * Z) =>
              ((forall B, 0 <= B < n -> get sn B <> 0) /\ r = (INT_MAX, 0))
              \/ (0 <= snd r < n
                  /\ get sn (snd r) = 0
                  /\ fst r = candidate_ones T F m Y (snd r)
                  /\ (forall B, 0 <= B < n -> get sn B = 0 ->
                        fst r <= candidate_ones T F m Y B)
                  /\ (forall B, 0 <= B < snd r -> get sn B = 0 ->
                        fst r < candidate_ones T F m Y B)))); [lia| |].
  - left; split; [intros; lia|reflexivity].
  - intros n [best bB] Hn IH.
    pose proof (candidate_ones_bounds n) as Hb.
    destruct (Z.eqb_spec (get sn n) 0) as [Z0|NZ].
    + cbv zeta.
      destruct (Z.ltb_spec (candidate_ones T F m Y n) best) as [Hlt|Hge].
      * right; cbn [fst snd].
        split; [lia|]; split; [exact Z0|]; split; [reflexivity|]; split.
        { intros B HB HZ.
          destruct (Z.eq_dec B n) as [->|Hne]; [lia|].
          destruct IH as [[Hall _]|(_ & _ & _ & Hmin & _)].
          - exfalso; apply (Hall B); [lia|exact HZ].
          - cbn [fst snd] in Hmin.
            specialize (Hmin B ltac:(lia) HZ); lia. }
        { intros B HB HZ.
          destruct IH as [[Hall _]|(_ & _ & _ & Hmin & _)].
          - exfalso; apply (Hall B); [lia|exact HZ].
          - cbn [fst snd] in Hmin.
            specialize (Hmin B ltac:(lia) HZ); lia. }
      * destruct IH as [[Hall E]|(R & S0 & Eb & Hmin & Hfirst)].
        { inversion E; subst best bB.
          unfold INT_MAX in Hge; lia. }
        right; cbn [fst snd] in *.
        split; [lia|]; split; [exact S0|]; split; [exact Eb|]; split.
        { intros B HB HZ.
          destruct (Z.eq_dec B n) as [->|Hne]; [lia|].
          apply Hmin; [lia|exact HZ]. }
        { exact Hfirst. }
    + destruct IH as [[Hall E]|(R & S0 & Eb & Hmin & Hfirst)].
      * left; split; [|exact E].
        intros B HB.
        destruct (Z.eq_dec B n) as [->|Hne]; [exact NZ|apply Hall; lia].
      * right; cbn [fst snd] in *.
        split; [lia|]; split; [exact S0|]; split; [exact Eb|]; split.
        { intros B HB HZ.
          destruct (Z.eq_dec B n) as [->|Hne]; [congruence|].
          apply Hmin; [lia|exact HZ]. }
        { exact Hfirst. }
Qed.
End ColumnChoice.

Lemma fill_column_spec T F k m x B Y M :
  0 <= x < k -> 1 <= m -> Z.of_nat (length M) = k * m ->
  let M' := fill_column T F k m x B Y M in
  length M' = length M
  /\ (forall y, 1 <= y < m ->
        get M' (y * k + x)
        = div T (u8 (Z.lxor B F)) (u8 (Z.lxor (get Y y) B)))
  /\ (forall j, 0 <= j -> (forall y, 1 <= y < m -> j <> y * k + x) ->
        get M' j = get M j).
Proof.
  intros Hx Hm HL M'; subst M'; unfold fill_column.
  assert (G : m <= m ->
    let M' := for_range 1 m
                (fun y M0 =>
                   let b := div T (u8 (Z.lxor B F)) (u8 (Z.lxor (get Y y) B)) in
                   set M0 (y * k + x) b) M in
    length M' = length M
    /\ (forall y, 1 <= y < m ->
          get M' (y * k + x)
          = div T (u8 (Z.lxor B F)) (u8 (Z.lxor (get Y y) B)))
    /\ (forall j, 0 <= j -> (forall y, 1 <= y < m -> j <> y * k + x) ->
          get M' j = get M j)).
  { apply (for_range_inv
             (fun n M' =>
                n <= m ->
                length M' = length M
                /\ (forall y, 1 <= y < n ->
                      get M' (y * k + x)
                      = div T (u8 (Z.lxor B F)) (u8 (Z.lxor (get Y y) B)))
                /\ (forall j, 0 <= j ->
                      (forall y, 1 <= y < n -> j <> y * k + x) ->
                      get M' j = get M j))); [lia| |].
    - intros _; split; [reflexivity|]; split; [intros; lia|reflexivity].
    - intros n M0 Hn IH _.
      destruct (IH ltac:(lia)) as (L0 & Hw & Hk).
      cbv zeta; split; [now rewrite length_set|]; split.
      + intros y Hy.
        destruct (Z.eq_dec y n) as [->|Hne].
        * apply get_set_eq; nia.
        * rewrite get_set_ne by nia.
          apply Hw; lia.
      + intros j Hj Hfree.
        rewrite get_set_ne by (specialize (Hfree n ltac:(lia)); lia).
        apply Hk; [exact Hj|].
        intros y Hy; apply Hfree; lia. }
  exact (G (Z.le_refl m)).
Qed.

Section GreedyColumns.
Variable ii : Z.
Hypothesis Hii : 0 <= ii < 16.
Let T := InitTables ii.
Let MW := MINWEIGHT_TABLE T.
Variables A F : Z.
Hypothesis HA : is_byte A.
Hypothesis HF : is_byte F.
Hypothesis HAF : A <> F.
Variable m : Z.
Hypothesis Hm : 1 <= m <= 255.
Let k := 256 - m.
Variables X Y matrix : list Z.
Hypothesis HLX : length X = 256%nat.
Hypothesis HLY : length Y = 256%nat.
Hypothesis HLM : Z.of_nat (length matrix) = (256 - m) * m.

(** What the row phase keeps whether or not a scan is exhausted: the sizes,
    the row of ones, and that only the seed and the stored values are
    marked as seen. *)
Definition rows_seen (y : Z) (s : solver) : Prop :=
  length (seen s) = 256%nat
  /\ length (sol_X s) = 256%nat
  /\ length (sol_Y s) = 256%nat
  /\ Z.of_nat (length (sol_matrix s)) = k * m
  /\ (forall x, 0 <= x < k -> get (sol_matrix s) x = 1)
  /\ (forall v, 0 <= v -> get (seen s) v <> 0 ->
        v = A \/ v = F \/ exists y', 1 <= y' < y /\ get (sol_Y s) y' = v).

Lemma rows_before_seen y :
  1 <= y <= m -> rows_seen y (rows_before T MW A F m y X Y matrix).
Proof.
  intros Hy; unfold rows_before.
  unfold is_byte in *.
  apply (for_range_inv rows_seen); [lia| |].
  - unfold rows_seen, solver_init; cbn [seen sol_X sol_Y sol_matrix].
    destruct (cauchy_row0_spec (256 - m) ltac:(lia) matrix ltac:(nia))
      as (L0 & R0 & _).
    unfold cauchy_row0 in L0, R0.
    split; [now rewrite !length_set, repeat_length|].
    split; [now rewrite length_set|].
    split; [now rewrite length_set|].
    split; [unfold k; rewrite <- HLM; f_equal; exact L0|].
    split; [intros x Hx; apply R0; exact Hx|].
    intros v Hv Hs.
    destruct (Z.eq_dec v F) as [->|NF]; [auto|].
    destruct (Z.eq_dec v A) as [->|NA]; [auto|].
    exfalso; apply Hs.
    rewrite !get_set_ne by lia.
    unfold get; apply nth_repeat.
  - intros i s Hi (LS & LX & LY & LM & R0 & Honly).
    unfold solve_row.
    destruct (scan_row T MW A (Z.lxor A F) (seen s) (zrange 1 256))
      as [[a G]|] eqn:Es.
    + unfold rows_seen; cbn [seen sol_X sol_Y sol_matrix].
      split; [now rewrite length_set|].
      split; [exact LX|].
      split; [now rewrite length_set|].
      split; [now rewrite length_set|].
      split.
      { intros x Hx; rewrite get_set_ne by (unfold k in *; nia).
        apply R0; exact Hx. }
      intros v Hv Hs.
      destruct (Z.eq_dec v G) as [->|NG].
      * right; right; exists i; split; [lia|].
        apply get_set_eq; lia.
      * rewrite get_set_ne in Hs by lia.
        destruct (Honly v Hv Hs) as [E|[E|(y' & Hy' & E)]]; auto.
        right; right; exists y'; split; [lia|].
        rewrite get_set_ne by lia; exact E.
    + unfold rows_seen.
      split; [exact LS|]; split; [exact LX|]; split; [exact LY|].
      split; [exact LM|]; split; [exact R0|].
      intros v Hv Hs.
      destruct (Honly v Hv Hs) as [E|[E|(y' & Hy' & E)]]; auto.
      right; right; exists y'; split; [lia|exact E].
Qed.

(** The state the column phase starts from, with every row found. *)
Variable s0 : solver.
Hypothesis Hrows : rows_ok ii A F m matrix m s0.
Hypothesis Hseen : rows_seen m s0.

Let Y0 := sol_Y s0.

(** What holds when the loop reaches column [x]. *)
Definition cols_ok (x : Z) (s : solver) : Prop :=
  sol_Y s = Y0
  /\ length (seen s) = 256%nat
  /\ length (sol_X s) = 256%nat
  /\ Z.of_nat (length (sol_matrix s)) = k * m
  /\ (forall v, 0 <= v -> get (seen s) v <> 0 ->
        (exists x', 0 <= x' < x /\ get (sol_X s) x' = v)
        \/ (exists y, 0 <= y < m /\ get Y0 y = v))
  /\ (forall y, 0 <= y < m ->
        is_byte (get Y0 y) /\ get (seen s) (get Y0 y) <> 0)
  /\ (forall x', 0 <= x' < x ->
        is_byte (get (sol_X s) x') /\ get (seen s) (get (sol_X s) x') <> 0)
  /\ (forall x1 x2, 0 <= x1 < x2 -> x2 < x ->
        get (sol_X s) x1 <> get (sol_X s) x2)
  /\ (forall x' y, 0 <= x' < x -> 0 <= y < m ->
        get (sol_X s) x' <> get Y0 y)
  /\ (forall j, 0 <= j < k -> get (sol_matrix s) j = 1)
  /\ (forall y x', 1 <= y < m -> 0 <= x' < x ->
        get (sol_matrix s) (y * k + x')
        = div T (Z.lxor (get (sol_X s) x') F)
                (Z.lxor (get Y0 y) (get (sol_X s) x'))
        /\ 1 <= get (sol_matrix s) (y * k + x') <= 255)
  /\ (forall x' B, 1 <= x' < x -> is_byte B ->
        (forall y, 0 <= y < m -> get Y0 y <> B) ->
        (forall x'', 0 <= x'' < x' -> get (sol_X s) x'' <> B) ->
        candidate_ones T F m Y0 (get (sol_X s) x')
        <= candidate_ones T F m Y0 B).

Lemma cols_ok_init : cols_ok 1 s0.
Proof.
  destruct Hrows as (_ & _ & _ & SA & SF & X0 & Y0F & Hr & Hd).
  destruct Hseen as (LS & LX & LY & LM & R0 & Honly).
  unfold is_byte in *.
  assert (HY : forall y, 0 <= y < m ->
                 is_byte (get Y0 y) /\ get (seen s0) (get Y0 y) <> 0
                 /\ get Y0 y <> A).
  { intros y Hy; unfold Y0.
    destruct (Z.eq_dec y 0) as [->|N0].
    - rewrite Y0F; unfold is_byte; repeat split; try lia; congruence.
    - destruct (Hr y ltac:(lia)) as (B & S1 & NA & _).
      unfold is_byte in *; repeat split; try lia; auto. }
  unfold cols_ok.
  split; [reflexivity|]; split; [exact LS|]; split; [exact LX|].
  split; [exact LM|]; split.
  { intros v Hv Hs.
    destruct (Honly v Hv Hs) as [E|[E|(y' & Hy' & E)]].
    - left; exists 0; split; [lia|congruence].
    - right; exists 0; split; [lia|unfold Y0; congruence].
    - right; exists y'; split; [lia|exact E]. }
  split; [intros y Hy; destruct (HY y Hy) as (B & S1 & _); auto|].
  split.
  { intros x' Hx'; replace x' with 0 by lia.
    rewrite X0; unfold is_byte; split; lia. }
  split; [intros; lia|].
  split.
  { intros x' y Hx' Hy; replace x' with 0 by lia.
    rewrite X0; destruct (HY y Hy) as (_ & _ & NA); congruence. }
  split; [exact R0|].
  split.
  { intros y x' Hy Hx'; replace x' with 0 by lia.
    rewrite Z.add_0_r, X0.
    destruct (Hr y Hy) as (_ & _ & _ & _ & R & D).
    fold k in R, D; fold T in D; auto. }
  intros; lia.
Qed.

Lemma solve_column_ok x s :
  1 <= x < k -> cols_ok x s -> cols_ok (x + 1) (solve_column T F k m x s).
Proof.
  intros Hx (EY & LS & LX & LM & Honly & HYs & HXs & HXd & HXY & R0 & Hc & Hg).
  unfold solve_column; rewrite EY.
  pose proof (select_column_spec T (CAUCHY_ONES_byte ii) F m (seen s) Y0
                ltac:(lia)) as Hsel.
  cbv zeta in Hsel.
  set (r := select_column T F m (seen s) Y0) in *.
  destruct Hsel as [[Hall _]|(RB & SB & EB & Hmin & _)].
  { (* some option is unseen: fewer than 256 values are marked *)
    exfalso.
    set (L := map (get (sol_X s)) (zrange 0 x) ++ map (get Y0) (zrange 0 m)).
    assert (Hincl : incl (zrange 0 256) L).
    { intros v Hv; apply in_zrange in Hv.
      unfold L; apply in_or_app.
      destruct (Honly v ltac:(lia) (Hall v Hv))
        as [(x' & Hx' & E)|(y & Hy & E)].
      - left; apply in_map_iff; exists x'; split; [exact E|].
        apply in_zrange; lia.
      - right; apply in_map_iff; exists y; split; [exact E|].
        apply in_zrange; lia. }
    pose proof (NoDup_incl_length (NoDup_zrange 0 256) Hincl) as Hlen.
    unfold L in Hlen.
    rewrite length_app, !length_map, !length_zrange in Hlen.
    unfold k in *; lia. }
  set (B := snd r) in *.
  assert (BB : is_byte B) by (unfold is_byte; lia).
  assert (NY : forall y, 0 <= y < m -> get Y0 y <> B).
  { intros y Hy E; destruct (HYs y Hy) as (_ & S1); congruence. }
  assert (NX : forall x', 0 <= x' < x -> get (sol_X s) x' <> B).
  { intros x' Hx' E; destruct (HXs x' Hx') as (_ & S1); congruence. }
  assert (Y0F : get Y0 0 = F).
  { destruct Hrows as (_ & _ & _ & _ & _ & _ & E & _); exact E. }
  assert (NF : B <> F) by (specialize (NY 0 ltac:(lia)); congruence).
  destruct (fill_column_spec T F k m x B Y0 (sol_matrix s)
              ltac:(lia) ltac:(lia) LM) as (LF & Hw & Hk).
  unfold is_byte in *.
  unfold cols_ok; cbn [seen sol_X sol_Y sol_matrix].
  split; [reflexivity|].
  split; [now rewrite length_set|].
  split; [now rewrite length_set|].
  split; [now rewrite LF|].
  split.
  { intros v Hv Hs.
    destruct (Z.eq_dec v B) as [->|NB].
    - left; exists x; split; [lia|].
      apply get_set_eq; unfold k in *; lia.
    - rewrite get_set_ne in Hs by lia.
      destruct (Honly v Hv Hs) as [(x' & Hx' & E)|Hy]; [|right; exact Hy].
      left; exists x'; split; [lia|].
      rewrite get_set_ne by lia; exact E. }
  split.
  { intros y Hy; destruct (HYs y Hy) as (By & S1).
    split; [exact By|].
    rewrite get_set_ne by (unfold is_byte in By; specialize (NY y Hy); lia).
    exact S1. }
  assert (EX : forall x', 0 <= x' < x ->
                 get (set (sol_X s) x B) x' = get (sol_X s) x').
  { intros x' Hx'; apply get_set_ne; lia. }
  assert (EXx : get (set (sol_X s) x B) x = B).
  { apply get_set_eq; unfold k in *; lia. }
  split.
  { intros x' Hx'.
    destruct (Z.eq_dec x' x) as [->|Hne].
    - rewrite EXx; split; [unfold is_byte; lia|].
      rewrite get_set_eq by lia; lia.
    - rewrite EX by lia.
      destruct (HXs x' ltac:(lia)) as (Bx & S1).
      split; [exact Bx|].
      rewrite get_set_ne
        by (unfold is_byte in Bx; specialize (NX x' ltac:(lia)); lia).
      exact S1. }
  split.
  { intros x1 x2 H1 H2.
    destruct (Z.eq_dec x2 x) as [->|Hne].
    - rewrite EXx, EX by lia; apply NX; lia.
    - rewrite !EX by lia; apply HXd; lia. }
  split.
  { intros x' y Hx' Hy.
    destruct (Z.eq_dec x' x) as [->|Hne].
    - rewrite EXx; intros E; apply (NY y Hy); congruence.
    - rewrite EX by lia; apply HXY; lia. }
  split.
  { intros j Hj; rewrite Hk; [apply R0; exact Hj|lia|].
    intros y Hy; nia. }
  split.
  { intros y x' Hy Hx'.
    destruct (Z.eq_dec x' x) as [->|Hne].
    - rewrite EXx, Hw by lia.
      destruct (HYs y ltac:(lia)) as (By & _).
      assert (B1 : 1 <= Z.lxor B F <= 255)
        by (apply lxor_distinct_bytes; unfold is_byte; auto; lia).
      assert (B2 : 1 <= Z.lxor (get Y0 y) B <= 255)
        by (apply lxor_distinct_bytes; unfold is_byte in *; auto; try lia;
            apply NY; lia).
      rewrite !u8_small by lia.
      split; [reflexivity|].
      apply (div_nonzero ii Hii); assumption.
    - rewrite EX by lia.
      rewrite Hk; [apply Hc; lia|nia|].
      intros y' Hy' E.
      destruct (cell_index_inj k y x' y' x ltac:(lia) ltac:(lia) E); lia. }
  intros x' B' Hx' BB' HB'Y HB'X.
  destruct (Z.eq_dec x' x) as [->|Hne].
  - rewrite EXx.
    assert (SB' : get (seen s) B' = 0).
    { destruct (Z.eq_dec (get (seen s) B') 0) as [E|NE]; [exact E|].
      exfalso.
      destruct (Honly B' ltac:(unfold is_byte in BB'; lia) NE)
        as [(x'' & Hx'' & E)|(y & Hy & E)].
      - apply (HB'X x'' Hx''); rewrite EX by lia; exact E.
      - apply (HB'Y y Hy); exact E. }
    rewrite <- EB.
    apply Hmin; [unfold is_byte in BB'; lia|exact SB'].
  - rewrite EX by lia.
    apply Hg; auto; [lia|].
    intros x'' Hx''; rewrite <- (EX x'') by lia.
    apply HB'X; exact Hx''.
Qed.

Lemma columns_ok : cols_ok k (SolveBestMatrix_columns T F m s0).
Proof.
  unfold SolveBestMatrix_columns; fold k.
  apply (for_range_inv cols_ok); [unfold k; lia|exact cols_ok_init|].
  intros x s Hx H; apply solve_column_ok; assumption.
Qed.
End GreedyColumns.

(** ** The row scan always finds a value *)






Lemma SolveBestMatrix_cols_ok ii A F m X Y matrix :
  0 <= ii < 16 -> is_byte A -> is_byte F -> A <> F -> 1 <= m <= 255 ->
  length X = 256%nat -> length Y = 256%nat ->
  Z.of_nat (length matrix) = (256 - m) * m ->
  let T := InitTables ii in
  let MW := MINWEIGHT_TABLE T in
  (forall y, 1 <= y < m ->
     scan_row T MW A (Z.lxor A F)
       (seen (rows_before T MW A F m y X Y matrix)) (zrange 1 256) <> None) ->
  let s0 := SolveBestMatrix_rows T MW A F m X Y matrix in
  get (sol_Y s0) 0 = F
  /\ cols_ok ii F m s0 (256 - m) (SolveBestMatrix_columns T F m s0).
Proof.
  intros Hii HA HF HAF Hm LX LY LM T MW Hfound s0.
  pose proof (rows_before_ok ii Hii A F HA HF HAF m Hm X Y matrix LX LY LM m
                ltac:(lia) Hfound) as I.
  pose proof (rows_before_seen ii A F m Hm X Y matrix LX LY LM m
                ltac:(lia)) as J.
  fold T MW in I, J.
  unfold s0; rewrite SolveBestMatrix_rows_eq.
  split.
  - destruct I as (_ & _ & _ & _ & _ & _ & E & _); exact E.
  - exact (columns_ok ii Hii A F HA HF HAF m Hm X Y matrix LX LY LM _ I J).
Qed.

(** X14: what [SolveBestMatrix] builds when no row scan is exhausted.  With
    the tables of a catalogue polynomial, a seed of two distinct bytes and
    1 <= m <= 255, after both phases X[0..k-1] followed by Y[0..m-1] lists
    every byte exactly once; row 0 of the matrix is all ones; and every
    other cell is the nonzero value (X[x] + Y[0]) / (Y[y] + X[x]), that is,
    the matrix is the Cauchy matrix of X and Y with its first row scaled to
    ones. *)
Theorem SolveBestMatrix_builds_cauchy_matrix ii A F m X Y matrix :
  0 <= ii < 16 -> is_byte A -> is_byte F -> A <> F -> 1 <= m <= 255 ->
  length X = 256%nat -> length Y = 256%nat ->
  Z.of_nat (length matrix) = (256 - m) * m ->
  let T := InitTables ii in
  let MW := MINWEIGHT_TABLE T in
  let k := 256 - m in
  (forall y, 1 <= y < m ->
     scan_row T MW A (Z.lxor A F)
       (seen (rows_before T MW A F m y X Y matrix)) (zrange 1 256) <> None) ->
  let s := SolveBestMatrix_columns T F m
             (SolveBestMatrix_rows T MW A F m X Y matrix) in
  Permutation
    (map (get (sol_X s)) (zrange 0 k) ++ map (get (sol_Y s)) (zrange 0 m))
    (zrange 0 256)
  /\ (forall x, 0 <= x < k -> get (sol_matrix s) x = 1)
  /\ (forall y x, 1 <= y < m -> 0 <= x < k ->
        get (sol_matrix s) (y * k + x)
        = div T (Z.lxor (get (sol_X s) x) (get (sol_Y s) 0))
                (Z.lxor (get (sol_Y s) y) (get (sol_X s) x))
        /\ 1 <= get (sol_matrix s) (y * k + x) <= 255).
Proof.
  intros Hii HA HF HAF Hm LX LY LM T MW k Hfound s.
  destruct (SolveBestMatrix_cols_ok ii A F m X Y matrix Hii HA HF HAF Hm
              LX LY LM Hfound) as (Y0F & I).
  fold T MW k in Y0F, I; fold s in I.
  destruct I as (EY & _ & _ & _ & _ & HYs & HXs & HXd & HXY & R0 & Hc & _).
  rewrite EY.
  set (Y0 := sol_Y (SolveBestMatrix_rows T MW A F m X Y matrix)) in *.
  assert (HYd : forall y1 y2, 0 <= y1 < m -> 0 <= y2 < m ->
                  get Y0 y1 = get Y0 y2 -> y1 = y2).
  { pose proof (rows_before_ok ii Hii A F HA HF HAF m Hm X Y matrix LX LY LM m
                  ltac:(lia) Hfound) as J.
    fold T MW in J; rewrite <- SolveBestMatrix_rows_eq in J; fold Y0 in J.
    destruct J as (_ & _ & _ & _ & _ & _ & _ & Hr & Hd).
    assert (D : forall y1 y2, 0 <= y1 < y2 -> y2 < m ->
                  get Y0 y1 <> get Y0 y2).
    { intros y1 y2 H1 H2.
      destruct (Z.eq_dec y1 0) as [->|N0].
      - rewrite Y0F.
        destruct (Hr y2 ltac:(lia)) as (_ & _ & _ & NF & _).
        intros E; apply NF; symmetry; exact E.
      - apply Hd; lia. }
    intros y1 y2 H1 H2 E.
    destruct (Z.lt_trichotomy y1 y2) as [Hlt|[Heq|Hgt]]; [|exact Heq|].
    - exfalso; apply (D y1 y2); auto; lia.
    - exfalso; apply (D y2 y1); auto; lia. }
  split; [|split; [exact R0|]].
  - apply NoDup_Permutation_bis.
    + apply NoDup_app.
      * apply Finite.Injective_map_NoDup_in; [|apply NoDup_zrange].
        intros x1 x2 H1 H2 E; apply in_zrange in H1, H2.
        destruct (Z.lt_trichotomy x1 x2) as [Hlt|[Heq|Hgt]]; [|exact Heq|].
        { exfalso; apply (HXd x1 x2); auto; lia. }
        { exfalso; apply (HXd x2 x1); auto; lia. }
      * apply Finite.Injective_map_NoDup_in; [|apply NoDup_zrange].
        intros y1 y2 H1 H2; apply in_zrange in H1, H2; now apply HYd.
      * intros v H1 H2.
        apply in_map_iff in H1; destruct H1 as (x & <- & Hx).
        apply in_map_iff in H2; destruct H2 as (y & E & Hy).
        apply in_zrange in Hx, Hy.
        apply (HXY x y Hx Hy); congruence.
    + rewrite length_app, !length_map, !length_zrange; unfold k; lia.
    + intros v Hv; apply in_zrange.
      apply in_app_or in Hv; destruct Hv as [Hv|Hv];
        apply in_map_iff in Hv; destruct Hv as (j & <- & Hj);
        apply in_zrange in Hj.
      * destruct (HXs j Hj) as (B & _); exact B.
      * destruct (HYs j Hj) as (B & _); exact B.
  - intros y x Hy Hx; rewrite Y0F; apply Hc; assumption.
Qed.

Lemma SolveBestMatrix_builds_cauchy_matrix_witness :
  let T := InitTables FAVORITE_POLY in
  let MW := MINWEIGHT_TABLE T in
  let X := repeat 0 256 in
  let Y := repeat 0 256 in
  let matrix := repeat 0 759 in
  let k := 256 - 3 in
  let s := SolveBestMatrix_columns T seed_F 3
             (SolveBestMatrix_rows T MW seed_A seed_F 3 X Y matrix) in
  Permutation
    (map (get (sol_X s)) (zrange 0 k) ++ map (get (sol_Y s)) (zrange 0 3))
    (zrange 0 256)
  /\ (forall x, 0 <= x < k -> get (sol_matrix s) x = 1)
  /\ (forall y x, 1 <= y < 3 -> 0 <= x < k ->
        get (sol_matrix s) (y * k + x)
        = div T (Z.lxor (get (sol_X s) x) (get (sol_Y s) 0))
                (Z.lxor (get (sol_Y s) y) (get (sol_X s) x))
        /\ 1 <= get (sol_matrix s) (y * k + x) <= 255).
Proof.
  intros T MW X Y matrix.
  apply (SolveBestMatrix_builds_cauchy_matrix FAVORITE_POLY seed_A seed_F 3
           X Y matrix);
    unfold FAVORITE_POLY, seed_A, seed_F, is_byte; try lia; try reflexivity.
  intros y Hy.
  apply (main_rows_found 3 X Y matrix y); lia.
Defined.

(** X15: the column phase of [SolveBestMatrix] is greedy.  Under the
    conditions of X14, the weight of column x >= 1 of the built matrix is
    the weight of its row-0 one plus the sum the option loop computed for
    X[x], and that sum is no larger than the sum of any byte B that is in
    neither Y[0..m-1] nor X[0..x-1]. *)
Theorem SolveBestMatrix_columns_greedy ii A F m X Y matrix :
  0 <= ii < 16 -> is_byte A -> is_byte F -> A <> F -> 1 <= m <= 255 ->
  length X = 256%nat -> length Y = 256%nat ->
  Z.of_nat (length matrix) = (256 - m) * m ->
  let T := InitTables ii in
  let MW := MINWEIGHT_TABLE T in
  let k := 256 - m in
  (forall y, 1 <= y < m ->
     scan_row T MW A (Z.lxor A F)
       (seen (rows_before T MW A F m y X Y matrix)) (zrange 1 256) <> None) ->
  let s := SolveBestMatrix_columns T F m
             (SolveBestMatrix_rows T MW A F m X Y matrix) in
  forall x, 1 <= x < k ->
    column_ones T k m (sol_matrix s) x
    = get (CAUCHY_ONES T) 1
      + candidate_ones T F m (sol_Y s) (get (sol_X s) x)
    /\ (forall B, is_byte B ->
          (forall y, 0 <= y < m -> get (sol_Y s) y <> B) ->
          (forall x', 0 <= x' < x -> get (sol_X s) x' <> B) ->
          candidate_ones T F m (sol_Y s) (get (sol_X s) x)
          <= candidate_ones T F m (sol_Y s) B).
Proof.
  intros Hii HA HF HAF Hm LX LY LM T MW k Hfound s x Hx.
  destruct (SolveBestMatrix_cols_ok ii A F m X Y matrix Hii HA HF HAF Hm
              LX LY LM Hfound) as (Y0F & I).
  fold T MW k in Y0F, I; fold s in I.
  destruct I as (EY & _ & _ & _ & _ & HYs & HXs & _ & HXY & R0 & Hc & Hg).
  rewrite EY.
  set (Y0 := sol_Y (SolveBestMatrix_rows T MW A F m X Y matrix)) in *.
  split.
  - unfold column_ones, candidate_ones.
    change (for_range 0 m
              (fun y ones =>
                 ones + get (CAUCHY_ONES T) (get (sol_matrix s) (y * k + x))) 0)
      with (sum_range 0 m
              (fun y => get (CAUCHY_ONES T) (get (sol_matrix s) (y * k + x)))).
    rewrite sum_range_cons by lia.
    rewrite Z.mul_0_l, Z.add_0_l, R0 by lia.
    f_equal.
    unfold sum_range; apply for_range_ext; intros y acc Hy; cbv zeta.
    destruct (Hc y x ltac:(lia) ltac:(lia)) as (E & _).
    destruct (HXs x ltac:(lia)) as (BX & _).
    destruct (HYs y ltac:(lia)) as (BY & _).
    pose proof (lxor_byte _ _ BX HF) as B1.
    pose proof (lxor_byte _ _ BY BX) as B2.
    unfold is_byte in B1, B2.
    rewrite !u8_small by lia.
    f_equal; f_equal; exact E.
  - intros B BB HBY HBX; apply Hg; assumption.
Qed.

Lemma SolveBestMatrix_columns_greedy_witness :
  let T := InitTables FAVORITE_POLY in
  let MW := MINWEIGHT_TABLE T in
  let X := repeat 0 256 in
  let Y := repeat 0 256 in
  let matrix := repeat 0 759 in
  let k := 256 - 3 in
  let s := SolveBestMatrix_columns T seed_F 3
             (SolveBestMatrix_rows T MW seed_A seed_F 3 X Y matrix) in
  column_ones T k 3 (sol_matrix s) 1
  = get (CAUCHY_ONES T) 1
    + candidate_ones T seed_F 3 (sol_Y s) (get (sol_X s) 1)
  /\ (forall B, is_byte B ->
        (forall y, 0 <= y < 3 -> get (sol_Y s) y <> B) ->
        (forall x', 0 <= x' < 1 -> get (sol_X s) x' <> B) ->
        candidate_ones T seed_F 3 (sol_Y s) (get (sol_X s) 1)
        <= candidate_ones T seed_F 3 (sol_Y s) B).
Proof.
  intros T MW X Y matrix.
  apply (SolveBestMatrix_columns_greedy FAVORITE_POLY seed_A seed_F 3
           X Y matrix);
    unfold FAVORITE_POLY, seed_A, seed_F, is_byte; try lia; try reflexivity.
  intros y Hy.
  apply (main_rows_found 3 X Y matrix y); lia.
Defined.

Lemma CountMatrixOnes_bounds T k subk m M :
  (forall c, 0 <= get (CAUCHY_ONES T) c <= 255) ->
  0 <= subk -> 0 <= m ->
  0 <= CountMatrixOnes T k subk m M <= 255 * subk * m.
Proof.
  intros HO Hs Hm; unfold CountMatrixOnes.
  apply (for_range_inv (fun y ones => 0 <= ones <= 255 * subk * y));
    [lia|lia|].
  intros y ones Hy H.
  assert (G : ones <= for_range 0 subk
                (fun x ones0 =>
                   ones0 + get (CAUCHY_ONES T) (get M (y * k + x))) ones
              <= ones + 255 * subk).
  { apply (for_range_inv (fun x r => ones <= r <= ones + 255 * x));
      [lia|lia|].
    intros x r Hx Hr.
    pose proof (HO (get M (y * k + x))); lia. }
  nia.
Qed.

(** X16: [SolveBestMatrix(m)] never discards what it built.  With the tables
    and the seed of [main] and 1 <= m <= 246 (so that the ten counted
    columns exist), the count over the first ten columns is at most
    2550 * m, hence below the initial [best_count], and [best_matrix] ends
    as a copy of the whole built matrix. *)
Theorem SolveBestMatrix_keeps_solution m X Y matrix best_matrix :
  1 <= m <= 246 ->
  length X = 256%nat -> length Y = 256%nat ->
  Z.of_nat (length matrix) = (256 - m) * m ->
  length best_matrix = length matrix ->
  let r := SolveBestMatrix main_tables main_minweight m X Y matrix
             best_matrix in
  let s := fst (fst r) in
  s = SolveBestMatrix_columns main_tables seed_F m
        (SolveBestMatrix_rows main_tables main_minweight seed_A seed_F m
           X Y matrix)
  /\ snd (fst r) = sol_matrix s
  /\ snd r = CountMatrixOnes main_tables (256 - m) 10 m (sol_matrix s)
  /\ 0 <= snd r <= 2550 * m.
Proof.
  intros Hm LX LY LM LB r s; subst s r; unfold SolveBestMatrix.
  cbv zeta.
  set (s := SolveBestMatrix_columns main_tables seed_F m
              (SolveBestMatrix_rows main_tables main_minweight seed_A seed_F m
                 X Y matrix)).
  pose proof (CountMatrixOnes_bounds main_tables (256 - m) 10 m (sol_matrix s)
                (CAUCHY_ONES_byte FAVORITE_POLY) ltac:(lia) ltac:(lia)) as Hc.
  assert (Hfound : forall y, 1 <= y < m ->
            scan_row main_tables main_minweight seed_A (Z.lxor seed_A seed_F)
              (seen (rows_before main_tables main_minweight seed_A seed_F m y
                       X Y matrix)) (zrange 1 256) <> None)
    by (intros y Hy; apply main_rows_found; lia).
  destruct (SolveBestMatrix_cols_ok FAVORITE_POLY seed_A seed_F m X Y matrix
              ltac:(unfold FAVORITE_POLY; lia)
              ltac:(unfold is_byte, seed_A; lia)
              ltac:(unfold is_byte, seed_F; lia)
              ltac:(unfold seed_A, seed_F; lia)
              ltac:(lia) LX LY LM Hfound) as (_ & I).
  destruct I as (_ & _ & _ & LS & _).
  change (Z.of_nat (length (sol_matrix s)) = (256 - m) * m) in LS.
  destruct (Z.ltb_spec (CountMatrixOnes main_tables (256 - m) 10 m
                          (sol_matrix s)) INT_MAX) as [Hlt|Hge].
  - cbn [fst snd].
    split; [reflexivity|]; split; [|split; [reflexivity|lia]].
    apply memcpy_all; [rewrite LB; exact LM|exact LS].
  - unfold INT_MAX in Hge; lia.
Qed.

Lemma SolveBestMatrix_keeps_solution_witness :
  let r := SolveBestMatrix main_tables main_minweight 2 (repeat 0 256)
             (repeat 0 256) (repeat 0 508) (repeat 0 508) in
  let s := fst (fst r) in
  s = SolveBestMatrix_columns main_tables seed_F 2
        (SolveBestMatrix_rows main_tables main_minweight seed_A seed_F 2
           (repeat 0 256) (repeat 0 256) (repeat 0 508))
  /\ snd (fst r) = sol_matrix s
  /\ snd r = CountMatrixOnes main_tables (256 - 2) 10 2 (sol_matrix s)
  /\ 0 <= snd r <= 2550 * 2.
Proof.
  apply (SolveBestMatrix_keeps_solution 2 (repeat 0 256) (repeat 0 256)
           (repeat 0 508) (repeat 0 508)); [lia| | | |]; reflexivity.
Defined.

(** ** Rebuilding the tables over earlier contents *)

(** Two loops run in step. *)
Lemma for_range_rel {S1 S2} (R : Z -> S1 -> S2 -> Prop) lo hi
    (f : Z -> S1 -> S1) (g : Z -> S2 -> S2) s1 s2 :
  lo <= hi ->
  R lo s1 s2 ->
  (forall i a b, lo <= i < hi -> R i a b -> R (i + 1) (f i a) (g i b)) ->
  R hi (for_range lo hi f s1) (for_range lo hi g s2).
Proof.
  intros Hle H0 Hstep.
  assert (G : forall n, lo + Z.of_nat n <= hi ->
              R (lo + Z.of_nat n) (for_range lo (lo + Z.of_nat n) f s1)
                (for_range lo (lo + Z.of_nat n) g s2)).
  { induction n as [|n IH]; intros Hn.
    - rewrite Z.add_0_r, !for_range_empty by lia; exact H0.
    - replace (lo + Z.of_nat (S n)) with (lo + Z.of_nat n + 1) by lia.
      rewrite !for_range_snoc by lia.
      apply Hstep; [lia|apply IH; lia]. }
  specialize (G (Z.to_nat (hi - lo))).
  replace (lo + Z.of_nat (Z.to_nat (hi - lo))) with hi in G by lia.
  apply G; lia.
Qed.

Transparent GenerateExpLogTables InitMulDivTables.

Section Rebuild.
Variable poly : Z.

(** The generation loop run on two pairs of tables: the antilog entries
    written so far agree, and so do the log entries at the values written so
    far. *)
Definition gen_rel (jj : Z) (a b : list Z * list Z) : Prop :=
  length (fst a) = 256%nat /\ length (fst b) = 256%nat
  /\ length (snd a) = 1025%nat /\ length (snd b) = 1025%nat
  /\ get (snd b) 0 = 1
  /\ (forall i, 0 <= i < jj -> get (snd a) i = get (snd b) i)
  /\ (forall v, 0 <= v ->
        v = 0 \/ (exists j, 1 <= j < jj /\ get (snd b) j = v) ->
        get (fst a) v = get (fst b) v).

Lemma exp_log_step_rel jj a b :
  1 <= jj < 255 -> gen_rel jj a b ->
  gen_rel (jj + 1) (exp_log_step poly jj a) (exp_log_step poly jj b).
Proof.
  intros Hjj; destruct a as [L1 E1], b as [L2 E2].
  unfold gen_rel, exp_log_step; cbn [fst snd].
  intros (LL1 & LL2 & LE1 & LE2 & E0 & HE & HL).
  rewrite (HE (jj - 1)) by lia.
  set (c := u8 (if 256 <=? u32 (get E2 (jj - 1) * 2)
                then Z.lxor (u32 (get E2 (jj - 1) * 2)) poly
                else u32 (get E2 (jj - 1) * 2))).
  assert (Hc : 0 <= c < 256) by (unfold c, u8; apply Z.mod_pos_bound; lia).
  rewrite !(get_set_eq _ jj c) by lia.
  split; [now rewrite length_set|].
  split; [now rewrite length_set|].
  split; [now rewrite length_set|].
  split; [now rewrite length_set|].
  split; [rewrite get_set_ne by lia; exact E0|].
  split.
  - intros i Hi.
    destruct (Z.eq_dec i jj) as [->|Hne].
    + now rewrite !get_set_eq by lia.
    + rewrite !get_set_ne by lia; apply HE; lia.
  - intros v Hv Hw.
    destruct (Z.eq_dec v c) as [->|Hne].
    + now rewrite !get_set_eq by lia.
    + rewrite !get_set_ne by lia.
      apply HL; [exact Hv|].
      destruct Hw as [->|(j & Hj & E)]; [now left|right].
      destruct (Z.eq_dec j jj) as [->|Hnj].
      * rewrite get_set_eq in E by lia; congruence.
      * rewrite get_set_ne in E by lia.
        exists j; split; [lia|exact E].
Qed.

(** The two copying loops that finish the antilog table. *)
Definition fill_rel (E0 : list Z) (jj : Z) (a b : list Z) : Prop :=
  length a = 1025%nat /\ length b = 1025%nat
  /\ (forall i, 0 <= i < jj -> get a i = get b i)
  /\ (forall i, 0 <= i <= 255 -> get b i = get E0 i).

Lemma ExpLogTablesOfPoly_rel LA EA LB EB :
  length LA = 256%nat -> length LB = 256%nat ->
  length EA = 1025%nat -> length EB = 1025%nat ->
  let a := ExpLogTablesOfPoly poly LA EA in
  let b := ExpLogTablesOfPoly poly LB EB in
  length (fst a) = 256%nat /\ length (snd a) = 1025%nat
  /\ (forall i, 0 <= i < 1020 -> get (snd a) i = get (snd b) i)
  /\ (forall v, 0 <= v ->
        v = 0 \/ (exists j, 1 <= j <= 255 /\ get (snd b) j = v) ->
        get (fst a) v = get (fst b) v).
Proof.
  intros HLA HLB HEA HEB a b; subst a b; unfold ExpLogTablesOfPoly.
  pose proof (for_range_rel gen_rel 1 255 (exp_log_step poly)
                (exp_log_step poly)
                (set LA 0 512, set EA 0 1) (set LB 0 512, set EB 0 1)
                ltac:(lia)) as G.
  destruct (for_range 1 255 (exp_log_step poly) (set LA 0 512, set EA 0 1))
    as [L1 E1].
  destruct (for_range 1 255 (exp_log_step poly) (set LB 0 512, set EB 0 1))
    as [L2 E2].
  destruct G as (LL1 & LL2 & LE1 & LE2 & E0 & HE & HL).
  { unfold gen_rel; cbn [fst snd].
    rewrite !length_set.
    repeat (split; [assumption|]).
    split; [apply get_set_eq; lia|].
    split; [intros i Hi; replace i with 0 by lia; now rewrite !get_set_eq by lia|].
    intros v Hv [->|(j & Hj & _)]; [|lia].
    now rewrite !get_set_eq by lia. }
  { intros i x y Hi; now apply exp_log_step_rel. }
  cbn [fst snd] in *.
  rewrite !(get_set_eq _ 255) by lia.
  rewrite (HE 0) by lia; rewrite E0.
  set (E1' := set E1 255 1); set (E2' := set E2 255 1).
  assert (F1 : fill_rel E2' 510
                 (for_range 256 (2 * 255)
                    (fun jj A => set A jj (get A (jj mod 255))) E1')
                 (for_range 256 (2 * 255)
                    (fun jj A => set A jj (get A (jj mod 255))) E2')).
  { apply (for_range_rel (fill_rel E2')); [lia| |].
    - unfold fill_rel, E1', E2'; rewrite !length_set.
      split; [assumption|]; split; [assumption|]; split; [|reflexivity].
      intros i Hi.
      destruct (Z.eq_dec i 255) as [->|Hne].
      + now rewrite !get_set_eq by lia.
      + rewrite !get_set_ne by lia; apply HE; lia.
    - intros jj x y Hjj (Lx & Ly & Hxy & Hy0).
      unfold fill_rel; rewrite !length_set.
      split; [assumption|]; split; [assumption|].
      assert (Hm : 0 <= jj mod 255 < 255) by (apply Z.mod_pos_bound; lia).
      split.
      + intros i Hi.
        destruct (Z.eq_dec i jj) as [->|Hne].
        * rewrite !get_set_eq by lia; apply Hxy; lia.
        * rewrite !get_set_ne by lia; apply Hxy; lia.
      + intros i Hi; rewrite get_set_ne by lia; apply Hy0; lia. }
  set (A1 := for_range 256 (2 * 255)
               (fun jj A => set A jj (get A (jj mod 255))) E1') in *.
  set (A2 := for_range 256 (2 * 255)
               (fun jj A => set A jj (get A (jj mod 255))) E2') in *.
  assert (F2 : fill_rel E2' 1020
                 (for_range (2 * 255 + 1) (4 * 255)
                    (fun jj A => set A jj 0) (set A1 (2 * 255) 1))
                 (for_range (2 * 255 + 1) (4 * 255)
                    (fun jj A => set A jj 0) (set A2 (2 * 255) 1))).
  { destruct F1 as (Lx & Ly & Hxy & Hy0).
    apply (for_range_rel (fill_rel E2')); [lia| |].
    - unfold fill_rel; rewrite !length_set.
      split; [assumption|]; split; [assumption|]; split.
      + intros i Hi.
        destruct (Z.eq_dec i 510) as [->|Hne].
        * now rewrite !get_set_eq by lia.
        * rewrite !get_set_ne by lia; apply Hxy; lia.
      + intros i Hi; rewrite get_set_ne by lia; apply Hy0; lia.
    - intros jj x y Hjj (Lx' & Ly' & Hxy' & Hy0').
      unfold fill_rel; rewrite !length_set.
      split; [assumption|]; split; [assumption|]; split.
      + intros i Hi.
        destruct (Z.eq_dec i jj) as [->|Hne].
        * now rewrite !get_set_eq by lia.
        * rewrite !get_set_ne by lia; apply Hxy'; lia.
      + intros i Hi; rewrite get_set_ne by lia; apply Hy0'; lia. }
  destruct F2 as (Lx & Ly & Hxy & Hy0).
  split; [now rewrite length_set|].
  split; [exact Lx|].
  split; [exact Hxy|].
  intros v Hv Hw.
  destruct (Z.eq_dec v 1) as [->|Hne].
  - now rewrite !get_set_eq by lia.
  - rewrite !get_set_ne by lia.
    apply HL; [exact Hv|].
    destruct Hw as [->|(j & Hj & E)]; [now left|right].
    rewrite Hy0 in E by lia.
    destruct (Z.eq_dec j 255) as [->|Hnj].
    + unfold E2' in E; rewrite get_set_eq in E by lia; congruence.
    + unfold E2' in E; rewrite get_set_ne in E by lia.
      exists j; split; [lia|exact E].
Qed.
End Rebuild.

Lemma list_eq_get (a b : list Z) :
  length a = length b ->
  (forall i, 0 <= i < Z.of_nat (length a) -> get a i = get b i) ->
  a = b.
Proof.
  intros HL H.
  apply nth_ext with (d := 0) (d' := 0); [exact HL|].
  intros n Hn.
  specialize (H (Z.of_nat n) ltac:(lia)).
  unfold get in H; now rewrite Nat2Z.id in H.
Qed.

Lemma GenerateExpLogTables_eq ii L E :
  GenerateExpLogTables ii L E
  = ExpLogTablesOfPoly (u32 (Z.lor (Z.shiftl (get GEN_POLY ii) 1) 1)) L E.
Proof. reflexivity. Qed.

Lemma ExpLogTablesOfPoly_rebuild poly L E L0 E0 :
  length L = 256%nat -> length E = 1025%nat ->
  length L0 = 256%nat -> length E0 = 1025%nat ->
  explog_facts (fst (ExpLogTablesOfPoly poly L0 E0))
               (snd (ExpLogTablesOfPoly poly L0 E0)) ->
  let a := ExpLogTablesOfPoly poly L E in
  let b := ExpLogTablesOfPoly poly L0 E0 in
  fst a = fst b
  /\ length (snd a) = 1025%nat
  /\ (forall i, 0 <= i < 1020 -> get (snd a) i = get (snd b) i).
Proof.
  intros HL HE HL0 HE0 Fc a b.
  destruct (ExpLogTablesOfPoly_rel poly L E L0 E0 HL HL0 HE HE0)
    as (LL & LE & HEq & HLq).
  fold a b in LL, LE, HEq, HLq; fold b in Fc.
  clearbody a b.
  split; [|split; [exact LE|exact HEq]].
  apply list_eq_get.
  - rewrite LL; symmetry; apply (ef_len_log _ _ Fc).
  - rewrite LL; intros v Hv.
    apply HLq; [lia|].
    destruct (Z.eq_dec v 0) as [->|N0]; [left; reflexivity|right].
    destruct (ef_log _ _ Fc v ltac:(lia)) as (R & EL).
    exists (get (fst b) v); split; [lia|exact EL].
Qed.

Opaque GenerateExpLogTables ExpLogTablesOfPoly.

(** For a catalogue polynomial the generator overwrites everything the
    later builders read. *)
Lemma GenerateExpLogTables_rebuild ii L E :
  0 <= ii < 16 -> length L = 256%nat -> length E = 1025%nat ->
  let r := GenerateExpLogTables ii L E in
  fst r = fst (explog ii)
  /\ length (snd r) = 1025%nat
  /\ (forall i, 0 <= i < 1020 -> get (snd r) i = get (snd (explog ii)) i).
Proof.
  intros Hii HL HE r; subst r.
  pose proof (explog_facts_catalogue ii Hii) as Fc.
  unfold explog in Fc |- *.
  rewrite (GenerateExpLogTables_eq ii LOG_TABLE_0 EXP_TABLE_0) in Fc.
  rewrite (GenerateExpLogTables_eq ii LOG_TABLE_0 EXP_TABLE_0).
  rewrite (GenerateExpLogTables_eq ii L E).
  apply ExpLogTablesOfPoly_rebuild;
    [exact HL|exact HE|reflexivity|reflexivity|exact Fc].
Qed.

Lemma InitMulDivTables_ext L E E' :
  (forall v, 1 <= v <= 255 -> 1 <= get L v <= 255) ->
  (forall i, 0 <= i < 1020 -> get E i = get E' i) ->
  InitMulDivTables L E = InitMulDivTables L E'.
Proof.
  intros HLr HE; unfold InitMulDivTables; cbv zeta.
  assert (Hu : forall z, 0 <= u8 z < 256)
    by (intros; unfold u8; apply Z.mod_pos_bound; lia).
  f_equal; f_equal; apply map_ext_in; intros y Hy; cbn [fst snd];
    f_equal; apply map_ext_in; intros x Hx; apply in_zrange in Hx;
    apply HE.
  - pose proof (HLr x ltac:(lia)); pose proof (Hu (get L y)); lia.
  - pose proof (HLr x ltac:(lia)); pose proof (Hu (255 - u8 (get L y))); lia.
Qed.

(** The rebuilt tables are those of a build from zeroed storage, as far as
    anything later reads them. *)
Lemma RebuildTables_spec ii T :
  0 <= ii < 16 ->
  length (GF256_LOG_TABLE T) = 256%nat ->
  length (GF256_EXP_TABLE T) = 1025%nat ->
  let T' := RebuildTables ii T in
  GF256_LOG_TABLE T' = GF256_LOG_TABLE (InitTables ii)
  /\ length (GF256_EXP_TABLE T') = 1025%nat
  /\ (forall i, 0 <= i < 1020 ->
        get (GF256_EXP_TABLE T') i = get (GF256_EXP_TABLE (InitTables ii)) i)
  /\ GF256_MUL_TABLE T' = GF256_MUL_TABLE (InitTables ii)
  /\ GF256_DIV_TABLE T' = GF256_DIV_TABLE (InitTables ii)
  /\ GF256_INV_TABLE T' = GF256_INV_TABLE (InitTables ii)
  /\ CAUCHY_ONES T' = CAUCHY_ONES (InitTables ii).
Proof.
  intros Hii HL HE T'; subst T'.
  rewrite InitTables_ONES, InitTables_INV, InitTables_DIV, InitTables_MUL,
    InitTables_LOG, InitTables_EXP.
  destruct (GenerateExpLogTables_rebuild ii _ _ Hii HL HE) as (EL & LE & EE).
  pose proof (explog_facts_catalogue ii Hii) as Fc.
  unfold RebuildTables.
  destruct (GenerateExpLogTables ii (GF256_LOG_TABLE T) (GF256_EXP_TABLE T))
    as [LOG EXP].
  cbn [fst snd] in EL, LE, EE; subst LOG.
  assert (EM : InitMulDivTables (fst (explog ii)) EXP
               = InitMulDivTables (fst (explog ii)) (snd (explog ii))).
  { apply InitMulDivTables_ext; [|exact EE].
    intros v Hv; apply (ef_log _ _ Fc v Hv). }
  rewrite EM.
  destruct (InitMulDivTables (fst (explog ii)) (snd (explog ii))) as [MUL DIV].
  cbn [GF256_LOG_TABLE GF256_EXP_TABLE GF256_MUL_TABLE GF256_DIV_TABLE
       GF256_INV_TABLE CAUCHY_ONES fst snd].
  repeat split; auto.
Qed.

Opaque InitMulDivTables.

(** ** [PrintMinWeights] *)

(** The matrix every round sorts: a row of ones over the row of all
    symbols. *)
Definition symbols_matrix : list Z := repeat 1 256 ++ zrange 0 256.

(** What a round prints when run on tables built from zeroed storage. *)
Definition minweights_report (ii : Z) : list Z * list Z :=
  let T := InitTables ii in
  let M := SortColumns T 256 2 symbols_matrix in
  (M, map (minweights_ones T 256 M) (zrange 1 33)).

Lemma length_symbols_matrix : length symbols_matrix = 512%nat.
Proof.
  unfold symbols_matrix.
  rewrite length_app, repeat_length, length_zrange; reflexivity.
Qed.

Lemma get_symbols_matrix x :
  0 <= x < 256 ->
  get symbols_matrix x = 1 /\ get symbols_matrix (256 + x) = x.
Proof.
  intros Hx; unfold get, symbols_matrix; split.
  - rewrite app_nth1 by (rewrite repeat_length; lia).
    rewrite (nth_indep _ 0 1) by (rewrite repeat_length; lia).
    apply nth_repeat.
  - rewrite app_nth2 by (rewrite repeat_length; lia).
    rewrite repeat_length.
    replace (Z.to_nat (256 + x) - 256)%nat with (Z.to_nat x) by lia.
    rewrite nth_zrange by lia; lia.
Qed.

Lemma minweights_matrix_eq matrix :
  length matrix = 512%nat -> minweights_matrix matrix = symbols_matrix.
Proof.
  intros HL; unfold minweights_matrix.
  assert (I : length (for_range 0 256
                        (fun x M => set (set M x 1) (x + 256) (u8 x)) matrix)
              = 512%nat
              /\ forall j, 0 <= j < 256 ->
                   get (for_range 0 256
                          (fun x M => set (set M x 1) (x + 256) (u8 x)) matrix) j
                   = 1
                   /\ get (for_range 0 256
                             (fun x M => set (set M x 1) (x + 256) (u8 x))
                             matrix) (j + 256) = j).
  { apply (for_range_inv
             (fun x M =>
                length M = 512%nat
                /\ forall j, 0 <= j < x ->
                     get M j = 1 /\ get M (j + 256) = j)); [lia| |].
    - split; [exact HL|intros; lia].
    - intros x M Hx (LM & H).
      split; [now rewrite !length_set|].
      intros j Hj.
      destruct (Z.eq_dec j x) as [->|Hne].
      + rewrite get_set_ne by lia.
        rewrite !get_set_eq by (rewrite ?length_set; lia).
        split; [reflexivity|apply u8_small; lia].
      + rewrite !get_set_ne by lia.
        apply H; lia. }
  destruct I as (LM & H).
  apply list_eq_get.
  - now rewrite LM, length_symbols_matrix.
  - rewrite LM; intros i Hi.
    destruct (Z.lt_ge_cases i 256) as [Hlt|Hge].
    + destruct (H i ltac:(lia)) as (-> & _).
      destruct (get_symbols_matrix i ltac:(lia)) as (-> & _); reflexivity.
    + destruct (H (i - 256) ltac:(lia)) as (_ & E).
      destruct (get_symbols_matrix (i - 256) ltac:(lia)) as (_ & E').
      replace (i - 256 + 256) with i in E by lia.
      replace (256 + (i - 256)) with i in E' by lia.
      congruence.
Qed.

Lemma SortColumns_ONES T T' k m M :
  CAUCHY_ONES T = CAUCHY_ONES T' -> SortColumns T k m M = SortColumns T' k m M.
Proof.
  intros E; unfold SortColumns, column_ones; now rewrite E.
Qed.

Lemma minweights_ones_ONES T T' k M x :
  CAUCHY_ONES T = CAUCHY_ONES T' ->
  minweights_ones T k M x = minweights_ones T' k M x.
Proof.
  intros E; unfold minweights_ones; now rewrite E.
Qed.

Lemma SortColumns_length T k m M :
  1 <= k -> 1 <= m -> Z.of_nat (length M) = k * m ->
  length (SortColumns T k m M) = length M.
Proof.
  intros Hk Hm HL; unfold SortColumns.
  pose proof (SortColumns_inv T k m Hk Hm M HL) as I.
  destruct (for_range 0 k (sort_columns_step k m)
              (map (column_ones T k m M) (zrange 0 k), M)) as [counts M'].
  cbn [snd]; unfold sort_inv in I.
  destruct I as (_ & L' & _); exact L'.
Qed.

Lemma PrintMinWeights_round_eq ii T matrix :
  0 <= ii < 16 ->
  length (GF256_LOG_TABLE T) = 256%nat ->
  length (GF256_EXP_TABLE T) = 1025%nat ->
  length matrix = 512%nat ->
  let r := PrintMinWeights_round ii (T, matrix) in
  snd r = minweights_report ii
  /\ length (GF256_LOG_TABLE (fst (fst r))) = 256%nat
  /\ length (GF256_EXP_TABLE (fst (fst r))) = 1025%nat
  /\ length (snd (fst r)) = 512%nat.
Proof.
  intros Hii HL HE HM r; subst r.
  unfold PrintMinWeights_round, minweights_report; cbv zeta.
  destruct (RebuildTables_spec ii T Hii HL HE)
    as (EL & LE & _ & _ & _ & _ & EO).
  set (T' := RebuildTables ii T) in *.
  rewrite (minweights_matrix_eq matrix HM).
  rewrite (SortColumns_ONES T' (InitTables ii)) by exact EO.
  cbn [fst snd].
  rewrite (map_ext _ _
             (fun x => minweights_ones_ONES T' (InitTables ii) 256
                         (SortColumns (InitTables ii) 256 2 symbols_matrix)
                         x EO)).
  split; [reflexivity|split; [|split; [exact LE|]]].
  - rewrite EL, InitTables_LOG.
    apply (ef_len_log _ _ (explog_facts_catalogue ii Hii)).
  - rewrite SortColumns_length by (rewrite ?length_symbols_matrix; lia).
    apply length_symbols_matrix.
Qed.

(** X17: a round of [PrintMinWeights] owes nothing to the rounds before it.
    Whatever the log/antilog tables and the matrix buffer hold on entry
    (given their sizes), round ii prints what tables built for generator ii
    from zeroed storage give on the matrix of all symbols: the generator
    overwrites every table entry that is read later. *)
Theorem PrintMinWeights_rounds_independent T matrix :
  length (GF256_LOG_TABLE T) = 256%nat ->
  length (GF256_EXP_TABLE T) = 1025%nat ->
  length matrix = 512%nat ->
  PrintMinWeights T matrix = map minweights_report (zrange 0 16).
Proof.
  intros HL HE HM; unfold PrintMinWeights.
  assert (I : let r := for_range 0 16
                (fun ii '(st, out) =>
                   let '(st0, printed) := PrintMinWeights_round ii st in
                   (st0, out ++ [printed]))
                ((T, matrix), []) in
              length (GF256_LOG_TABLE (fst (fst r))) = 256%nat
              /\ length (GF256_EXP_TABLE (fst (fst r))) = 1025%nat
              /\ length (snd (fst r)) = 512%nat
              /\ snd r = map minweights_report (zrange 0 16)).
  { apply (for_range_inv
             (fun n (r : Tables * list Z * list (list Z * list Z)) =>
                length (GF256_LOG_TABLE (fst (fst r))) = 256%nat
                /\ length (GF256_EXP_TABLE (fst (fst r))) = 1025%nat
                /\ length (snd (fst r)) = 512%nat
                /\ snd r = map minweights_report (zrange 0 n))); [lia| |].
    - cbn [fst snd]; rewrite zrange_empty by lia; auto.
    - intros n [[T1 M1] out] Hn; cbn [fst snd].
      intros (L1 & E1 & LM1 & ->).
      destruct (PrintMinWeights_round_eq n T1 M1 ltac:(lia) L1 E1 LM1)
        as (R1 & R2 & R3 & R4).
      destruct (PrintMinWeights_round n (T1, M1)) as [[T2 M2] printed].
      cbn [fst snd] in *; subst printed.
      rewrite zrange_snoc, map_app by lia; cbn [map]; auto. }
  exact (proj2 (proj2 (proj2 I))).
Qed.

Lemma PrintMinWeights_rounds_independent_witness :
  PrintMinWeights Tables_0 (repeat 0 512) = map minweights_report (zrange 0 16).
Proof.
  apply (PrintMinWeights_rounds_independent Tables_0 (repeat 0 512));
    reflexivity.
Defined.

Lemma CAUCHY_ONES_zero_least ii v :
  0 <= ii < 16 -> 1 <= v <= 255 ->
  get (CAUCHY_ONES (InitTables ii)) 0 < get (CAUCHY_ONES (InitTables ii)) v.
Proof.
  intros Hii Hv.
  pose proof (all_in_spec _ _ _ weights_check_all ii Hii) as C.
  cbv beta in C; apply weights_check_spec in C.
  rewrite <- (CAUCHY_ONES_entry ii Hii) in C.
  destruct C as (_ & C2 & _).
  apply C2, Hv.
Qed.

(** The sorted matrix of a round, through the column permutation [f] the
    sort applied. *)
Lemma minweights_sorted ii :
  0 <= ii < 16 ->
  let T := InitTables ii in
  let M := SortColumns T 256 2 symbols_matrix in
  exists f : Z -> Z,
    (forall j, 0 <= j < 256 -> 0 <= f j < 256)
    /\ (forall i j, 0 <= i < 256 -> 0 <= j < 256 -> f i = f j -> i = j)
    /\ f 0 = 0
    /\ (forall j, 0 <= j < 256 -> get M j = 1 /\ get M (256 + j) = f j)
    /\ (forall i j, 0 <= i <= j -> j < 256 ->
          get (CAUCHY_ONES T) (f i) <= get (CAUCHY_ONES T) (f j)).
Proof.
  intros Hii T M; subst M; unfold SortColumns.
  pose proof (SortColumns_inv T 256 2 ltac:(lia) ltac:(lia) symbols_matrix
                ltac:(rewrite length_symbols_matrix; reflexivity)) as I.
  destruct (for_range 0 256 (sort_columns_step 256 2)
              (map (column_ones T 256 2 symbols_matrix) (zrange 0 256),
               symbols_matrix)) as [counts M].
  cbn [snd]; unfold sort_inv in I.
  destruct I as (Hc & HL' & Hrow0 & (f & Hfr & Hfi & HfM & Hfc) & Hsorted).
  assert (Ecol : forall c, 0 <= c < 256 ->
            column_ones T 256 2 symbols_matrix c
            = get (CAUCHY_ONES T) 1 + get (CAUCHY_ONES T) c).
  { intros c Hc'; unfold column_ones.
    rewrite for_range_cons by lia.
    rewrite for_range_cons by lia.
    rewrite for_range_empty by lia.
    change (0 * 256 + c) with c.
    replace ((0 + 1) * 256 + c) with (256 + c) by lia.
    destruct (get_symbols_matrix c Hc') as (-> & ->); lia. }
  assert (Hw : forall i j, 0 <= i <= j -> j < 256 ->
            get (CAUCHY_ONES T) (f i) <= get (CAUCHY_ONES T) (f j)).
  { intros i j Hi Hj.
    pose proof (Hsorted i j ltac:(lia) ltac:(lia)) as S.
    rewrite !Hfc, !Ecol in S by (try apply Hfr; lia).
    lia. }
  exists f.
  split; [exact Hfr|]; split; [exact Hfi|]; split; [|split; [|exact Hw]].
  - pose proof (injective_range_perm 256 f Hfr Hfi) as P.
    assert (Hin : In 0 (map f (zrange 0 256))).
    { apply (Permutation_in _ (Permutation_sym P)), in_zrange; lia. }
    apply in_map_iff in Hin; destruct Hin as (j0 & E0 & Hj0).
    apply in_zrange in Hj0.
    pose proof (Hw 0 j0 ltac:(lia) ltac:(lia)) as W.
    rewrite E0 in W.
    destruct (Z.eq_dec (f 0) 0) as [E|NE]; [exact E|exfalso].
    pose proof (Hfr 0 ltac:(lia)) as R0.
    pose proof (CAUCHY_ONES_zero_least ii (f 0) Hii ltac:(lia)) as Z0.
    fold T in Z0; lia.
  - intros j Hj; split.
    + rewrite Hrow0 by lia.
      apply (get_symbols_matrix j Hj).
    + replace (256 + j) with (1 * 256 + j) by lia.
      rewrite HfM by lia.
      replace (1 * 256 + f j) with (256 + f j) by lia.
      apply (get_symbols_matrix (f j)), Hfr, Hj.
Qed.

(** X18: what a round of [PrintMinWeights] prints as "symbols in order".
    For each catalogue generator the sorted matrix keeps its row of ones,
    holds symbol 0 in column 0, lists every symbol 0..255 exactly once in
    row 1, and the weights [CAUCHY_ONES] of the symbols do not decrease
    from left to right. *)
Theorem PrintMinWeights_symbols_in_weight_order ii :
  0 <= ii < 16 ->
  let T := InitTables ii in
  let M := fst (minweights_report ii) in
  (forall x, 0 <= x < 256 -> get M x = 1)
  /\ get M 256 = 0
  /\ Permutation (map (fun z => get M (256 + z)) (zrange 0 256)) (zrange 0 256)
  /\ (forall z z', 0 <= z <= z' /\ z' < 256 ->
        get (CAUCHY_ONES T) (get M (256 + z))
        <= get (CAUCHY_ONES T) (get M (256 + z'))).
Proof.
  intros Hii T M; subst M; unfold minweights_report; cbv zeta; cbn [fst].
  fold T.
  destruct (minweights_sorted ii Hii) as (f & Hfr & Hfi & F0 & HM & Hw).
  fold T in HM, Hw.
  split; [intros x Hx; apply (HM x Hx)|].
  split.
  { destruct (HM 0 ltac:(lia)) as (_ & E).
    change (256 + 0) with 256 in E; exact (eq_trans E F0). }
  split.
  - rewrite (map_ext_in _ f).
    + apply injective_range_perm; assumption.
    + intros z Hz; apply in_zrange in Hz; apply (HM z Hz).
  - intros z z' (Hz & Hz').
    destruct (HM z ltac:(lia)) as (_ & ->).
    destruct (HM z' ltac:(lia)) as (_ & ->).
    apply Hw; lia.
Qed.

Lemma PrintMinWeights_symbols_in_weight_order_witness :
  let T := InitTables FAVORITE_POLY in
  let M := fst (minweights_report FAVORITE_POLY) in
  (forall x, 0 <= x < 256 -> get M x = 1)
  /\ get M 256 = 0
  /\ Permutation (map (fun z => get M (256 + z)) (zrange 0 256)) (zrange 0 256)
  /\ (forall z z', 0 <= z <= z' /\ z' < 256 ->
        get (CAUCHY_ONES T) (get M (256 + z))
        <= get (CAUCHY_ONES T) (get M (256 + z'))).
Proof.
  apply (PrintMinWeights_symbols_in_weight_order FAVORITE_POLY).
  unfold FAVORITE_POLY; lia.
Defined.

(** *** The printed counts are the least possible *)

Section Smallest.
Variable w : Z -> Z.
Variable B : Z.
Hypothesis w_mono : forall i j, 1 <= i <= j -> j <= B -> w i <= w j.

Definition wsum (P : list Z) : Z := fold_right (fun p acc => w p + acc) 0 P.

Lemma wsum_perm P P' : Permutation P P' -> wsum P = wsum P'.
Proof.
  induction 1; cbn [wsum fold_right] in *; try lia.
  unfold wsum in *; lia.
Qed.

Lemma list_greatest (P : list Z) :
  P <> [] -> exists g, In g P /\ forall p, In p P -> p <= g.
Proof.
  induction P as [|a P IH]; [congruence|intros _].
  destruct P as [|b P'].
  - exists a; split; [now left|].
    intros p [<-|[]]; lia.
  - destruct (IH ltac:(discriminate)) as (g & Hg & Hmax).
    destruct (Z.le_gt_cases a g) as [Hle|Hgt].
    + exists g; split; [now right|].
      intros p [<-|Hp]; [exact Hle|apply Hmax, Hp].
    + exists a; split; [now left|].
      intros p [<-|Hp]; [lia|].
      specialize (Hmax p Hp); lia.
Qed.

(** The first [n] positions carry the least total any [n] distinct positions
    can. *)
Lemma wsum_smallest (n : nat) :
  forall P, NoDup P -> (forall p, In p P -> 1 <= p <= B) ->
    length P = n ->
    sum_range 1 (Z.of_nat n + 1) w <= wsum P.
Proof.
  induction n as [|n IH]; intros P ND HP HL.
  - destruct P; [|discriminate].
    unfold sum_range; rewrite for_range_empty by lia.
    cbn [wsum fold_right]; lia.
  - assert (NE : P <> []) by (intros ->; discriminate).
    destruct (list_greatest P NE) as (g & Hg & Hmax).
    destruct (in_split g P Hg) as (l1 & l2 & EP).
    assert (Pm : Permutation P (g :: l1 ++ l2))
      by (rewrite EP; apply Permutation_sym, Permutation_middle).
    pose proof (Permutation_NoDup Pm ND) as ND'.
    inversion ND' as [|? ? Hnin ND'']; subst.
    assert (HL' : length (l1 ++ l2) = n).
    { apply Permutation_length in Pm; cbn [length] in Pm; lia. }
    assert (HP' : forall p, In p (l1 ++ l2) -> 1 <= p <= B).
    { intros p Hp; apply HP.
      apply (Permutation_in _ (Permutation_sym Pm)); now right. }
    specialize (IH (l1 ++ l2) ND'' HP' HL').
    assert (Hgn : Z.of_nat (S n) <= g).
    { assert (Hincl : incl (l1 ++ g :: l2) (zrange 1 (g + 1))).
      { intros p Hp; apply in_zrange.
        specialize (HP p Hp); specialize (Hmax p Hp); lia. }
      pose proof (NoDup_incl_length ND Hincl) as Hlen.
      rewrite length_zrange in Hlen; lia. }
    rewrite (wsum_perm _ _ Pm); cbn [wsum fold_right]; fold (wsum (l1 ++ l2)).
    replace (Z.of_nat (S n) + 1) with (Z.of_nat n + 1 + 1) by lia.
    rewrite sum_range_snoc by lia.
    pose proof (w_mono (Z.of_nat n + 1) g ltac:(lia)
                  ltac:(apply HP; exact Hg)).
    lia.
Qed.
End Smallest.

(** X19: the counts [PrintMinWeights] prints are the least possible.  For a
    catalogue generator and 1 <= x <= 32, the count printed for x columns
    is the total weight of the x symbols right of column 0 in the sorted
    matrix, and no list of x distinct nonzero symbols has a smaller total
    weight. *)
Theorem PrintMinWeights_counts_minimal ii x S :
  0 <= ii < 16 -> 1 <= x <= 32 ->
  NoDup S -> (forall v, In v S -> 1 <= v <= 255) ->
  Z.of_nat (length S) = x ->
  let T := InitTables ii in
  let M := fst (minweights_report ii) in
  let counts := snd (minweights_report ii) in
  get counts (x - 1)
  = row_weight T (map (fun z => get M (256 + z)) (zrange 1 (x + 1)))
  /\ get counts (x - 1) <= row_weight T S.
Proof.
  intros Hii Hx ND HS HL T M counts; subst M counts.
  unfold minweights_report; cbv zeta; cbn [fst snd]; fold T.
  set (M := SortColumns T 256 2 symbols_matrix).
  destruct (minweights_sorted ii Hii) as (f & Hfr & Hfi & F0 & HM & Hw).
  fold T in HM, Hw; fold M in HM.
  set (w := fun z => get (CAUCHY_ONES T) (f z)).
  assert (Ec : get (map (minweights_ones T 256 M) (zrange 1 33)) (x - 1)
               = sum_range 1 (x + 1) w).
  { unfold get; rewrite (nth_map_zrange _ 1 33 x) by lia.
    unfold minweights_ones, sum_range.
    apply for_range_ext; intros z acc Hz.
    destruct (HM z ltac:(lia)) as (_ & ->); reflexivity. }
  rewrite Ec; split.
  - assert (G : forall n, 1 <= n <= 33 ->
              sum_range 1 n w
              = row_weight T (map (fun z => get M (256 + z)) (zrange 1 n))).
    { intros n Hn.
      unfold sum_range.
      apply (for_range_inv
               (fun i r =>
                  r = row_weight T
                        (map (fun z => get M (256 + z)) (zrange 1 i))));
        [lia| |].
      - rewrite zrange_empty by lia; reflexivity.
      - intros i r Hi ->.
        rewrite zrange_snoc, map_app by lia; cbn [map].
        rewrite row_weight_snoc.
        destruct (HM i ltac:(lia)) as (_ & ->); reflexivity. }
    apply G; lia.
  - assert (Hpre : forall S0, (forall v, In v S0 -> 1 <= v <= 255) ->
              exists P, map f P = S0 /\ forall p, In p P -> 1 <= p <= 255).
    { pose proof (injective_range_perm 256 f Hfr Hfi) as Pf.
      induction S0 as [|v S0 IH]; intros HS0.
      - exists []; split; [reflexivity|intros p []].
      - destruct (IH ltac:(intros u Hu; apply HS0; now right)) as (P & EP & HP).
        assert (Hin : In v (map f (zrange 0 256))).
        { apply (Permutation_in _ (Permutation_sym Pf)), in_zrange.
          specialize (HS0 v ltac:(now left)); lia. }
        apply in_map_iff in Hin; destruct Hin as (z & Ez & Hz).
        apply in_zrange in Hz.
        exists (z :: P); split; [cbn [map]; congruence|].
        intros p [<-|Hp]; [|apply HP, Hp].
        specialize (HS0 v ltac:(now left)).
        destruct (Z.eq_dec z 0) as [->|]; [|lia].
        rewrite F0 in Ez; lia. }
    destruct (Hpre S HS) as (P & EP & HP).
    assert (NDP : NoDup P) by (apply (NoDup_map_inv f); now rewrite EP).
    assert (LP : length P = Z.to_nat x).
    { rewrite <- EP, length_map in HL; lia. }
    pose proof (wsum_smallest w 255
                  ltac:(intros i j Hi Hj; apply Hw; lia)
                  (Z.to_nat x) P NDP HP LP) as Hmin.
    rewrite Z2Nat.id in Hmin by lia.
    assert (Ew : row_weight T S = wsum w P).
    { rewrite <- EP; clear.
      induction P as [|p P IH]; [reflexivity|].
      cbn [map row_weight wsum fold_right] in *.
      unfold row_weight, wsum in IH; rewrite IH; reflexivity. }
    rewrite Ew; exact Hmin.
Qed.

Lemma PrintMinWeights_counts_minimal_witness :
  let T := InitTables FAVORITE_POLY in
  let M := fst (minweights_report FAVORITE_POLY) in
  let counts := snd (minweights_report FAVORITE_POLY) in
  get counts (2 - 1)
  = row_weight T (map (fun z => get M (256 + z)) (zrange 1 (2 + 1)))
  /\ get counts (2 - 1) <= row_weight T [7; 200].
Proof.
  apply (PrintMinWeights_counts_minimal FAVORITE_POLY 2 [7; 200]).
  - unfold FAVORITE_POLY; lia.
  - lia.
  - repeat constructor; cbn [In]; intuition lia.
  - intros v [<-|[<-|[]]]; lia.
  - reflexivity.
Defined.

(** ** The random search never divides by zero *)

Lemma shuffled_deck (prng : Type) (Next : prng -> Z * prng) p deck :
  length deck = 256%nat ->
  deck_inv 256 (fst (ShuffleDeck8 prng Next p deck)).
Proof.
  intros HL; unfold ShuffleDeck8.
  apply ShuffleDeck8_loop_inv; [lia|now apply deck_inv_start].
Qed.

(** The two slices of a shuffled deck that [Explore] uses as X and Y. *)
Lemma deck_slices XY k m :
  deck_inv 256 XY -> 0 <= k -> 0 <= m -> k + m <= 256 ->
  forall x y, 0 <= x < k -> 0 <= y < m ->
    is_byte (get XY x)
    /\ is_byte (get (skipn (Z.to_nat k) XY) y)
    /\ get XY x <> get (skipn (Z.to_nat k) XY) y.
Proof.
  intros (HL & HP) Hk Hm Hkm x y Hx Hy.
  rewrite firstn_all2 in HP by (rewrite HL; lia).
  assert (ND : NoDup XY)
    by (apply (Permutation_NoDup (Permutation_sym HP)), NoDup_zrange).
  assert (HB : forall i, 0 <= i < 256 -> is_byte (get XY i)).
  { intros i Hi; unfold is_byte.
    apply in_zrange, (Permutation_in _ HP).
    unfold get; apply nth_In; lia. }
  assert (ES : get (skipn (Z.to_nat k) XY) y = get XY (k + y)).
  { unfold get; rewrite nth_skipn; f_equal; lia. }
  rewrite ES.
  split; [apply HB; lia|]; split; [apply HB; lia|].
  intros E; unfold get in E.
  apply (proj1 (NoDup_nth XY 0) ND) in E; lia.
Qed.

Lemma GenerateCauchyMatrix_log_nonzero ii k m M X Y :
  0 <= ii < 16 -> 1 <= k <= 256 -> 1 <= m ->
  Z.of_nat (length M) = k * m ->
  (forall x, 0 <= x < k -> is_byte (get X x)) ->
  (forall y, 0 <= y < m -> is_byte (get Y y)) ->
  (forall x y, 0 <= x < k -> 0 <= y < m -> get X x <> get Y y) ->
  let r := GenerateCauchyMatrix (InitTables ii) k m M X Y in
  length (fst (fst r)) = length M
  /\ Forall (fun d => d <> 0) (snd r).
Proof.
  intros Hii Hk Hm HL HX HY Hdis r; subst r.
  set (T := InitTables ii).
  assert (Hkmax : 255 * k < INT_MAX) by (unfold INT_MAX; lia).
  pose proof (GenerateCauchyMatrix_pivoted T k m M X Y ltac:(lia) Hkmax Hm
                (CAUCHY_ONES_byte ii) HL) as I.
  destruct (cauchy_raw_spec T k m X Y ltac:(lia) M Hm HL)
    as (RL & _ & Rcell & Rlog).
  destruct (GenerateCauchyMatrix T k m M X Y) as [[out ones] dv].
  cbn [fst snd]; unfold pivoted_inv in I.
  destruct I as (LO & _ & _ & _ & Hlog).
  split; [congruence|].
  apply Hlog.
  - apply Rlog; intros y x Hy Hx.
    assert (1 <= raw_index X Y y x <= 255)
      by (eapply raw_index_nonzero; eauto).
    lia.
  - intros y x Hy Hx; rewrite Rcell by auto.
    assert (1 <= raw_cell (InitTables ii) X Y y x <= 255)
      by (eapply raw_cell_nonzero; eauto).
    fold T in H; lia.
Qed.

Section SearchSafe.
Variable prng : Type.
Variable Next : prng -> Z * prng.
Variable ii : Z.
Hypothesis Hii : 0 <= ii < 16.
Let T := InitTables ii.
Variables k m : Z.
Hypothesis Hk : 1 <= k.
Hypothesis Hm : 1 <= m.
Hypothesis Hkm : k + m <= 256.

(** The buffers keep their sizes from turn to turn. *)
Definition search_inv (s : explore prng) : Prop :=
  length (ex_XY prng s) = 256%nat
  /\ Z.of_nat (length (ex_matrix prng s)) = k * m.

Lemma Explore_iter_safe s :
  search_inv s ->
  let XY := fst (ShuffleDeck8 prng Next (ex_prng prng s) (ex_XY prng s)) in
  (forall x y, 0 <= x < k -> 0 <= y < m ->
     is_byte (get XY x)
     /\ is_byte (get (skipn (Z.to_nat k) XY) y)
     /\ get XY x <> get (skipn (Z.to_nat k) XY) y)
  /\ Forall (fun d => d <> 0)
       (snd (GenerateCauchyMatrix T k m (ex_matrix prng s) XY
               (skipn (Z.to_nat k) XY)))
  /\ search_inv (Explore_iter prng Next T k m s).
Proof.
  intros (LXY & LM) XY.
  pose proof (shuffled_deck prng Next (ex_prng prng s) (ex_XY prng s) LXY) as D.
  fold XY in D.
  pose proof (deck_slices XY k m D ltac:(lia) ltac:(lia) Hkm) as HS.
  destruct (GenerateCauchyMatrix_log_nonzero ii k m (ex_matrix prng s) XY
              (skipn (Z.to_nat k) XY) Hii ltac:(lia) Hm LM
              ltac:(intros x Hx; apply (HS x 0); lia)
              ltac:(intros y Hy; apply (HS 0 y); lia)
              ltac:(intros x y Hx Hy; apply (HS x y); lia)) as (LG & HG).
  fold T in LG, HG.
  split; [exact HS|]; split; [exact HG|].
  unfold Explore_iter, search_inv.
  subst XY.
  destruct (ShuffleDeck8 prng Next (ex_prng prng s) (ex_XY prng s)) as [XY p].
  cbn [fst] in *.
  destruct (GenerateCauchyMatrix T k m (ex_matrix prng s) XY
              (skipn (Z.to_nat k) XY)) as [[out ones] dv].
  cbn [fst snd] in LG.
  destruct D as (LD & _).
  destruct (ones <? ex_least prng s); cbn [ex_XY ex_matrix];
    (split; [exact LD|rewrite LG; exact LM]).
Qed.
End SearchSafe.

(** X20: [Explore(k, m)] never divides by zero.  With the tables of a
    catalogue polynomial, k, m >= 1 and k + m <= 256, in every turn of the
    search loop the shuffled deck gives byte vectors X and Y that share no
    value, and every index read from the inverse table and every divisor
    passed to [GF256Divide] by [GenerateCauchyMatrix] in that turn is
    nonzero, whatever words the generator yields. *)
Theorem Explore_divisors_nonzero (prng : Type) (Next : prng -> Z * prng)
    ii k m n p XY matrix best :
  0 <= ii < 16 -> 1 <= k -> 1 <= m -> k + m <= 256 ->
  length XY = 256%nat -> Z.of_nat (length matrix) = k * m ->
  let T := InitTables ii in
  let s := Explore_loop prng Next T k m n p XY matrix best in
  let XY' := fst (ShuffleDeck8 prng Next (ex_prng prng s) (ex_XY prng s)) in
  let X := XY' in
  let Y := skipn (Z.to_nat k) XY' in
  (forall x y, 0 <= x < k -> 0 <= y < m ->
     is_byte (get X x) /\ is_byte (get Y y) /\ get X x <> get Y y)
  /\ Forall (fun d => d <> 0)
       (snd (GenerateCauchyMatrix T k m (ex_matrix prng s) X Y)).
Proof.
  intros Hii Hk Hm Hkm LXY LM T s XY' X Y; subst X Y XY'.
  assert (I : search_inv prng k m s).
  { unfold s, Explore_loop.
    apply for_range_preserve.
    - unfold search_inv; cbn [ex_XY ex_matrix]; auto.
    - intros i s0 _ H0.
      apply (Explore_iter_safe prng Next ii Hii k m Hk Hm Hkm s0 H0). }
  destruct (Explore_iter_safe prng Next ii Hii k m Hk Hm Hkm s I)
    as (HS & HG & _).
  split; [exact HS|exact HG].
Qed.

Lemma Explore_divisors_nonzero_witness :
  let Next := fun p : Z => (p, (p * 1103515245 + 12345) mod 4294967296) in
  let T := InitTables FAVORITE_POLY in
  let s := Explore_loop Z Next T 29 3 5 1 (repeat 0 256)
             (repeat 0 87) (repeat 0 87) in
  let XY' := fst (ShuffleDeck8 Z Next (ex_prng Z s) (ex_XY Z s)) in
  let X := XY' in
  let Y := skipn (Z.to_nat 29) XY' in
  (forall x y, 0 <= x < 29 -> 0 <= y < 3 ->
     is_byte (get X x) /\ is_byte (get Y y) /\ get X x <> get Y y)
  /\ Forall (fun d => d <> 0)
       (snd (GenerateCauchyMatrix T 29 3 (ex_matrix Z s) X Y)).
Proof.
  intros Next.
  apply (Explore_divisors_nonzero Z Next FAVORITE_POLY 29 3 5 1
           (repeat 0 256) (repeat 0 87) (repeat 0 87));
    unfold FAVORITE_POLY; try lia; reflexivity.
Defined.
